(** * JaxRK: cross-validation linear algebra, conditional operators, inducing sets

    A shallow embedding of
      - [jaxrk/utilities/cv.py]       (index generators, selection matrices,
                                       batched submatrix inversion and
                                       factorisation),
      - [jaxrk/models/conditional_operator.py] (Cmo, RidgeCmo, Cdo),
      - [jaxrk/utilities/inducing.py] (inducing_set),
    together with the properties of these functions.

    Conventions.
      - Python integers are [Z]; array dimensions and positions produced by
        [enumerate] are [nat].  The entries of an index array are [int32]
        values, written as integers.
      - Array entries (float32 in the source) are modelled twice.  In the
        main development they are exact rationals [Qc]: every array is
        finite and nothing is rounded, so a statement about the value of an
        inverse is a statement of exact arithmetic.  The part
        "[jaxrk/utilities/cv.py] in IEEE binary32" evaluates the batched
        kernels and the submatrix solvers with every operation rounded to
        binary32, with infinities and NaN; it shows where rounding and
        non-finite values make the float32 result differ.
      - A two-dimensional array is a [matrix]: its shape together with its
        rows.  A three-dimensional array is the list of the matrices along
        its leading (batch) axis, and [vmap f] over that axis is [map f].
      - A Python exception is a [Raise] result. *)

From Stdlib Require Import List ZArith Lia Bool Arith PeanoNat.
From Stdlib Require Import QArith Qcanon Field.
From Stdlib Require Import Permutation Sorted Finite.
From Stdlib Require Import SpecFloat.
Import ListNotations.

Set Implicit Arguments.

(* ================================================================== *)
(** * Exceptions *)

(** [ShapeError] stands for the error with which the array library
    rejects a shape (a negative dimension, shapes that do not broadcast, a
    reshape to another size, unequal batch sizes). *)
Inductive exn : Type :=
| AssertionError
| ShapeError
| TypeError
| IndexError.

Inductive result (A : Type) : Type :=
| Ok (a : A)
| Raise (e : exn).

Arguments Ok {A} a.
Arguments Raise {A} e.

Definition bind {A B : Type} (m : result A) (f : A -> result B) : result B :=
  match m with
  | Ok a => f a
  | Raise e => Raise e
  end.

Notation "x <- m ;; k" := (bind m (fun x => k))
  (at level 61, m at next level, right associativity).

Definition is_raise {A : Type} (m : result A) : Prop :=
  exists e, m = Raise e.

(** Computations that record the calls they make to the numerical
    collaborators (kernel evaluation, covariance solves, inversion, the
    optimizer), in order, and then return or raise. *)
Inductive call : Type :=
| CallCovOp
| CallCovSolve
| CallCrossCovOp
| CallCovRegul
| CallInner
| CallInv
| CallKernel
| CallMinimize
| CallPrint.

Definition comp (A : Type) : Type := (list call * result A)%type.

Definition ret {A : Type} (a : A) : comp A := ([], Ok a).

Definition raise {A : Type} (e : exn) : comp A := ([], Raise e).

Definition cbind {A B : Type} (m : comp A) (f : A -> comp B) : comp B :=
  match m with
  | (t, Ok a) => let (t', r) := f a in (t ++ t', r)
  | (t, Raise e) => (t, Raise e)
  end.

Notation "x <~ m ;; k" := (cbind m (fun x => k))
  (at level 61, m at next level, right associativity).

(** [assert b] *)
Definition assert (b : bool) : comp unit :=
  if b then ret tt else raise AssertionError.

(** A call to a collaborator that returns [a]. *)
Definition called {A : Type} (c : call) (a : A) : comp A := ([c], Ok a).

(** A pure step that may raise. *)
Definition lift {A : Type} (r : result A) : comp A := ([], r).

(* ================================================================== *)
(** * Arrays *)

Local Open Scope Qc_scope.

(** Finite sums [sum n f = f 0 + ... + f (n-1)]. *)
Fixpoint sum (n : nat) (f : nat -> Qc) : Qc :=
  match n with
  | O => 0
  | S m => sum m f + f m
  end.

Record matrix : Type := Matrix {
  nrows : nat;
  ncols : nat;
  rows : list (list Qc)
}.

(** [A[i, j]] *)
Definition get (A : matrix) (i j : nat) : Qc :=
  nth j (nth i (rows A) []) 0.

(** The array of shape [(n, m)] whose entry [[i, j]] is [f i j]. *)
Definition mk (n m : nat) (f : nat -> nat -> Qc) : matrix :=
  Matrix n m (map (fun i => map (fun j => f i j) (seq 0 m)) (seq 0 n)).

(** The shape recorded for a matrix agrees with its rows. *)
Definition wf (A : matrix) : Prop :=
  length (rows A) = nrows A /\
  Forall (fun r => length r = ncols A) (rows A).

(** [np.zeros((n, m))] and [np.eye(n)] *)
Definition zeros (n m : nat) : matrix := mk n m (fun _ _ => 0).
Definition eye (n : nat) : matrix :=
  mk n n (fun i j => if Nat.eqb i j then 1 else 0).

(** [A @ B], for [ncols A = nrows B] as at every call below *)
Definition matmul (A B : matrix) : matrix :=
  mk (nrows A) (ncols B)
     (fun i j => sum (ncols A) (fun k => get A i k * get B k j)).

(** [A.T], which for a two-dimensional array is also
    [np.swapaxes(A, -1, -2)] *)
Definition transpose (A : matrix) : matrix :=
  mk (ncols A) (nrows A) (fun i j => get A j i).

Infix "@" := matmul (at level 40, left associativity).

(** Functional update of position [i] of a list. *)
Fixpoint list_update {A : Type} (l : list A) (i : nat) (f : A -> A) : list A :=
  match l, i with
  | [], _ => []
  | x :: t, O => f x :: t
  | x :: t, S j => x :: list_update t j f
  end.

(** [enumerate(l)] *)
Definition enumerate {A : Type} (l : list A) : list (nat * A) :=
  combine (seq 0 (length l)) l.

(** [np.arange(n)] *)
Definition arange (n : Z) : list Z := map Z.of_nat (seq 0 (Z.to_nat n)).

(** [np.sort] of a one-dimensional integer array: ascending order. *)
Fixpoint insert_sorted (x : Z) (l : list Z) : list Z :=
  match l with
  | [] => [x]
  | y :: t => if (x <=? y)%Z then x :: l else y :: insert_sorted x t
  end.

Fixpoint np_sort (l : list Z) : list Z :=
  match l with
  | [] => []
  | x :: t => insert_sorted x (np_sort t)
  end.

(** Python slice bounds: a negative bound counts from the end. *)
Definition slice_bound (len : nat) (b : Z) : nat :=
  if (b <? 0)%Z then Z.to_nat (Z.max 0 (Z.of_nat len + b)) else Z.to_nat b.

(** [l[:b]] and [l[b:]] *)
Definition slice_to {A : Type} (l : list A) (b : Z) : list A :=
  firstn (slice_bound (length l) b) l.
Definition slice_from {A : Type} (l : list A) (b : Z) : list A :=
  skipn (slice_bound (length l) b) l.

(* ================================================================== *)
(** * [jaxrk/utilities/cv.py] *)

(** ** Batched kernels *)

(** [np.linalg.inv] in exact arithmetic: Gauss-Jordan elimination on the
    augmented array [[A | I]].  On a non-singular input this is the inverse,
    which the library approximates in float32.  A column without a pivot is
    left as it is, so that the function is defined on a singular input too;
    the library returns non-finite entries there (see [linalg_inv32]), and
    the statements below that depend on the entries of an inverse assume a
    non-singular argument. *)
Definition augment (A : matrix) : matrix :=
  let n := nrows A in
  mk n (n + n) (fun i j =>
    if j <? n then get A i j else if Nat.eqb (j - n) i then 1 else 0).

Fixpoint find_pivot (M : matrix) (j p fuel : nat) : option nat :=
  match fuel with
  | O => None
  | S f => if Qc_eq_bool (get M p j) 0 then find_pivot M j (S p) f
           else Some p
  end.

Definition swap_rows (M : matrix) (a b : nat) : matrix :=
  mk (nrows M) (ncols M) (fun i c =>
    get M (if Nat.eqb i a then b else if Nat.eqb i b then a else i) c).

Definition scale_row (M : matrix) (a : nat) (s : Qc) : matrix :=
  mk (nrows M) (ncols M) (fun i c =>
    if Nat.eqb i a then s * get M i c else get M i c).

Definition clear_col (M : matrix) (a : nat) : matrix :=
  mk (nrows M) (ncols M) (fun i c =>
    if Nat.eqb i a then get M i c else get M i c - get M i a * get M a c).

Definition eliminate (M : matrix) (j : nat) : matrix :=
  match find_pivot M j j (nrows M - j) with
  | None => M
  | Some p =>
      let M1 := swap_rows M j p in
      let M2 := scale_row M1 j (/ get M1 j j) in
      clear_col M2 j
  end.

Fixpoint gauss_jordan (M : matrix) (j fuel : nat) : matrix :=
  match fuel with
  | O => M
  | S f => gauss_jordan (eliminate M j) (S j) f
  end.

Definition linalg_inv (A : matrix) : matrix :=
  let n := nrows A in
  let M := gauss_jordan (augment A) 0 n in
  mk n n (fun i c => get M i (n + c)).

(** [vmap f] over two batched arguments; the batch sizes must agree. *)
Definition vmap2 {A B C : Type} (f : A -> B -> C) (xs : list A) (ys : list B)
  : result (list C) :=
  if Nat.eqb (length xs) (length ys)
  then Ok (map (fun p => f (fst p) (snd p)) (combine xs ys))
  else Raise ShapeError.

(** [vinvert = jit(vmap(np.linalg.inv))] *)
Definition vinvert (batch : list matrix) : list matrix :=
  map linalg_inv batch.

(** [select_rows = jit(vmap(lambda sel, inp: sel @ inp, (0, None)))] *)
Definition select_rows (sels : list matrix) (inp : matrix) : list matrix :=
  map (fun sel => sel @ inp) sels.

(** [sym_matmul_fixed_inp =
       jit(vmap(lambda sel, inp: sel @ inp @ sel.T, (0, None)))] *)
Definition sym_matmul_fixed_inp (sels : list matrix) (inp : matrix)
  : list matrix :=
  map (fun sel => sel @ inp @ transpose sel) sels.

(** [sym_matmul_variable_inp =
       jit(vmap(lambda sel, inp: sel @ inp @ sel.T))] *)
Definition sym_matmul_variable_inp (sels inps : list matrix)
  : result (list matrix) :=
  vmap2 (fun sel inp => sel @ inp @ transpose sel) sels inps.

(** [vmatmul_fixed_inp = jit(vmap(lambda sel, inp: sel @ inp, (0, None)))] *)
Definition vmatmul_fixed_inp (sels : list matrix) (inp : matrix)
  : list matrix :=
  map (fun sel => sel @ inp) sels.

(** [vmatmul_variable_inp = jit(vmap(lambda sel, inp: sel @ inp))] *)
Definition vmatmul_variable_inp (sels inps : list matrix)
  : result (list matrix) :=
  vmap2 (fun sel inp => sel @ inp) sels inps.

(** ** Index generators *)

(** [np.delete(arr, i)] for a position [0 <= i]. *)
Definition np_delete (arr : list Z) (i : Z) : list Z :=
  firstn (Z.to_nat i) arr ++ skipn (S (Z.to_nat i)) arr.

Definition loo_train_val (n_orig : Z) : list (list Z) * list (list Z) :=
  let val := arange n_orig in
  let train := map (fun i => np_delete val i) val in
  (train, map (fun v => [v]) val).

Section CvTrainVal.
(** The random source: [random.split] and [random.permutation]. *)
Variable PRNGKey : Type.
Variable random_split : PRNGKey -> Z -> list PRNGKey.
Variable random_permutation : PRNGKey -> Z -> list Z.

Definition cv_train_val (n_orig n_train n_splits : Z) (rng : PRNGKey)
  : list (list Z) * list (list Z) :=
  let p := map (fun key => random_permutation key n_orig)
               (random_split rng n_splits) in
  (map (fun row => slice_to row n_train) p,
   map (fun row => slice_from row n_train) p).
End CvTrainVal.

(** ** Selection matrices *)

(** A negative index counts from the end of the axis. *)
Definition normalize_index (c : Z) (size : nat) : Z :=
  if (c <? 0)%Z then (c + Z.of_nat size)%Z else c.

(** [A.at[r, c].set(v)] on one matrix: a new array.  [r] is a position
    produced by [enumerate]; [c] is an entry of an [int32] index array,
    counted from the end if negative.  An update whose index is out of
    bounds is dropped. *)
Definition set_entry (A : matrix) (r : nat) (c : Z) (v : Qc) : matrix :=
  let c' := normalize_index c (ncols A) in
  if (0 <=? c')%Z && (c' <? Z.of_nat (ncols A))%Z
  then mk (nrows A) (ncols A) (fun i j =>
         if Nat.eqb i r && Nat.eqb j (Z.to_nat c') then v else get A i j)
  else A.

(** [rval.at[split, r, c].set(v)] on the batch.  Indexing an axis of length
    zero is an [IndexError], whatever the index. *)
Definition at_set (rval : list matrix) (split r : nat) (c : Z) (v : Qc)
  : result (list matrix) :=
  if Nat.eqb (ncols (nth split rval (zeros 0 0))) 0
  then Raise IndexError
  else Ok (list_update rval split (fun A => set_entry A r c v)).

(** [for b in l: a = body(a, b)], left at the first exception. *)
Fixpoint for_each {A B : Type} (l : list B) (a : A)
  (body : A -> B -> result A) : result A :=
  match l with
  | [] => Ok a
  | b :: t => a' <- body a b ;; for_each t a' body
  end.

(** [np.zeros((s, k, n))]; a negative dimension is rejected. *)
Definition np_zeros3 (s k : nat) (n : Z) : result (list matrix) :=
  if (n <? 0)%Z then Raise ShapeError
  else Ok (repeat (zeros k (Z.to_nat n)) s).

Definition idcs_to_selection_matr (n_orig : Z) (idcs : list (list Z))
  (idcs_sorted : bool) : result (list matrix) :=
  let idcs := if negb idcs_sorted then map np_sort idcs else idcs in
  rval <- np_zeros3 (length idcs) (length (hd [] idcs)) n_orig ;;
  for_each (enumerate idcs) rval (fun rval sv =>
    for_each (enumerate (snd sv)) rval (fun rval rc =>
      at_set rval (fst sv) (fst rc) (snd rc) 1)).

(** ** Submatrix solver *)

Definition invert_submatr (gram : matrix) (train_idcs : list (list Z))
  (zerofill : bool) : result (list matrix) :=
  train_sel_matr <-
    idcs_to_selection_matr (Z.of_nat (nrows gram)) train_idcs false ;;
  let rval := vinvert (sym_matmul_fixed_inp train_sel_matr gram) in
  if zerofill
  then sym_matmul_variable_inp (map transpose train_sel_matr) rval
  else Ok rval.

(* ================================================================== *)
(** * [jaxrk/utilities/cv.py] in IEEE binary32 *)

(** The same kernels and solvers with [float32] entries: 24 bits of
    precision, round to nearest even, signed zeros, infinities and NaN.
    The index computations are shared with the exact development; the
    selection tensor holds only 0.0 and 1.0, which binary32 represents
    exactly. *)

Definition prec32 : Z := 24.
Definition emax32 : Z := 128.

Definition float32 : Type := spec_float.

Definition add32 : float32 -> float32 -> float32 := SFadd prec32 emax32.
Definition sub32 : float32 -> float32 -> float32 := SFsub prec32 emax32.
Definition mul32 : float32 -> float32 -> float32 := SFmul prec32 emax32.
Definition div32 : float32 -> float32 -> float32 := SFdiv prec32 emax32.
Definition sqrt32 : float32 -> float32 := SFsqrt prec32 emax32.

Definition zero32 : float32 := S754_zero false.
Definition nan32 : float32 := S754_nan.

(** The binary32 value of an integer and of a rational [p/q]; for [p] and
    [q] below [2^24] the latter is the float nearest to [p/q]. *)
Definition of_Z32 (n : Z) : float32 := binary_normalize prec32 emax32 n 0 false.
Definition of_Qc32 (q : Qc) : float32 :=
  div32 (of_Z32 (Qnum q)) (of_Z32 (Zpos (Qden q))).

Definition one32 : float32 := of_Z32 1.

(** [np.isfinite(x)] and [np.isnan(x)] *)
Definition is_finite32 (x : float32) : bool :=
  match x with
  | S754_zero _ | S754_finite _ _ _ => true
  | S754_infinity _ | S754_nan => false
  end.
Definition is_nan32 (x : float32) : bool :=
  match x with
  | S754_nan => true
  | _ => false
  end.
Definition is_zero32 (x : float32) : bool :=
  match x with
  | S754_zero _ => true
  | _ => false
  end.

(** [x] is a number of the binary32 format: its mantissa and exponent are
    those of a normal or subnormal float32. *)
Definition valid32 (x : float32) : bool := valid_binary prec32 emax32 x.

(** Sums accumulate from the left, starting at 0.0. *)
Fixpoint sum32 (n : nat) (f : nat -> float32) : float32 :=
  match n with
  | O => zero32
  | S m => add32 (sum32 m f) (f m)
  end.

Record matrix32 : Type := Matrix32 {
  nrows32 : nat;
  ncols32 : nat;
  rows32 : list (list float32)
}.

Definition get32 (A : matrix32) (i j : nat) : float32 :=
  nth j (nth i (rows32 A) []) zero32.

(** The shape recorded for a float32 array agrees with its rows. *)
Definition wf32 (A : matrix32) : Prop :=
  length (rows32 A) = nrows32 A /\
  Forall (fun r => length r = ncols32 A) (rows32 A).

Definition mk32 (n m : nat) (f : nat -> nat -> float32) : matrix32 :=
  Matrix32 n m (map (fun i => map (fun j => f i j) (seq 0 m)) (seq 0 n)).

Definition zeros32 (n m : nat) : matrix32 := mk32 n m (fun _ _ => zero32).

(** The float32 array with the entries of [A]. *)
Definition to_float32 (A : matrix) : matrix32 :=
  Matrix32 (nrows A) (ncols A) (map (map of_Qc32) (rows A)).


(** [A @ B], for [ncols32 A = nrows32 B] as at every call below *)
Definition matmul32 (A B : matrix32) : matrix32 :=
  mk32 (nrows32 A) (ncols32 B)
       (fun i j => sum32 (ncols32 A)
                     (fun k => mul32 (get32 A i k) (get32 B k j))).

Definition transpose32 (A : matrix32) : matrix32 :=
  mk32 (ncols32 A) (nrows32 A) (fun i j => get32 A j i).

(** [np.linalg.inv(A)] is [solve(A, eye)]: an LU factorisation with
    partial pivoting, then forward and back substitution, carried out here
    on the augmented array [[A | I]].  Nothing is checked and nothing is
    raised: back substitution divides by a zero pivot, which gives
    infinities and NaN. *)
Definition augment32 (A : matrix32) : matrix32 :=
  let n := nrows32 A in
  mk32 n (n + n) (fun i j =>
    if j <? n then get32 A i j
    else if Nat.eqb (j - n) i then one32 else zero32).

(** The row at or below [p] whose entry in column [j] is largest in
    magnitude, [best] being the largest so far. *)
Fixpoint pivot_row32 (M : matrix32) (j p best fuel : nat) : nat :=
  match fuel with
  | O => best
  | S f =>
      pivot_row32 M j (S p)
        (if SFltb (SFabs (get32 M best j)) (SFabs (get32 M p j))
         then p else best) f
  end.

Definition swap_rows32 (M : matrix32) (a b : nat) : matrix32 :=
  mk32 (nrows32 M) (ncols32 M) (fun i c =>
    get32 M (if Nat.eqb i a then b else if Nat.eqb i b then a else i) c).

(** Column [j] of the factorisation: the rows below the pivot row lose
    their multiple of it, on the columns to the right of [j] (those of the
    right-hand side included).  A column that is zero from the diagonal
    down is left as it is. *)
Definition lu_step32 (M : matrix32) (j : nat) : matrix32 :=
  let n := nrows32 M in
  let M1 := swap_rows32 M j (pivot_row32 M j (S j) j (n - S j)) in
  if is_zero32 (get32 M1 j j) then M1
  else mk32 n (ncols32 M) (fun i c =>
         if (j <? i) && (j <? c)
         then sub32 (get32 M1 i c)
                    (mul32 (div32 (get32 M1 i j) (get32 M1 j j))
                           (get32 M1 j c))
         else get32 M1 i c).

Fixpoint lu_forward32 (M : matrix32) (j fuel : nat) : matrix32 :=
  match fuel with
  | O => M
  | S f => lu_forward32 (lu_step32 M j) (S j) f
  end.

(** Back substitution, row [k]: the right-hand side of row [k] is divided
    by the diagonal entry and then removed from the rows above. *)
Definition back_step32 (M : matrix32) (k : nat) : matrix32 :=
  let n := nrows32 M in
  let M1 := mk32 n (ncols32 M) (fun i c =>
              if Nat.eqb i k && (n <=? c)
              then div32 (get32 M i c) (get32 M k k)
              else get32 M i c) in
  mk32 n (ncols32 M) (fun i c =>
    if (i <? k) && (n <=? c)
    then sub32 (get32 M1 i c) (mul32 (get32 M1 i k) (get32 M1 k c))
    else get32 M1 i c).

Fixpoint back_subst32 (M : matrix32) (fuel : nat) : matrix32 :=
  match fuel with
  | O => M
  | S k => back_subst32 (back_step32 M k) k
  end.

Definition linalg_inv32 (A : matrix32) : matrix32 :=
  let n := nrows32 A in
  let M := back_subst32 (lu_forward32 (augment32 A) 0 n) n in
  mk32 n n (fun i c => get32 M i (n + c)).

(** [sp.linalg.cholesky(A, lower=True)]: the lower factor, column by
    column, read from the lower triangle of [A].  When a pivot is not
    positive the factorisation stops and the library fills the lower
    triangle of the result with NaN; it does not raise. *)
Definition chol_step32 (A L : matrix32) (j : nat) : option matrix32 :=
  let n := nrows32 A in
  let d := sub32 (get32 A j j)
                 (sum32 j (fun k => mul32 (get32 L j k) (get32 L j k))) in
  if SFltb zero32 d
  then Some (mk32 n n (fun i c =>
               if Nat.eqb c j
               then (if i <? j then zero32
                     else if Nat.eqb i j then sqrt32 d
                     else div32
                            (sub32 (get32 A i j)
                               (sum32 j (fun k =>
                                  mul32 (get32 L i k) (get32 L j k))))
                            (sqrt32 d))
               else get32 L i c))
  else None.

Fixpoint chol_loop32 (A L : matrix32) (j fuel : nat) : option matrix32 :=
  match fuel with
  | O => Some L
  | S f =>
      match chol_step32 A L j with
      | Some L' => chol_loop32 A L' (S j) f
      | None => None
      end
  end.

Definition cholesky32 (A : matrix32) : matrix32 :=
  let n := nrows32 A in
  match chol_loop32 A (zeros32 n n) 0 n with
  | Some L => L
  | None => mk32 n n (fun i c => if c <=? i then nan32 else zero32)
  end.

(** [vinvert = jit(vmap(np.linalg.inv))] *)
Definition vinvert32 (batch : list matrix32) : list matrix32 :=
  map linalg_inv32 batch.

(** [vcholesky = jit(vmap(partial(sp.linalg.cholesky, lower=True)))] *)
Definition vcholesky32 (batch : list matrix32) : list matrix32 :=
  map cholesky32 batch.

Definition sym_matmul_fixed_inp32 (sels : list matrix32) (inp : matrix32)
  : list matrix32 :=
  map (fun sel => matmul32 (matmul32 sel inp) (transpose32 sel)) sels.

Definition sym_matmul_variable_inp32 (sels inps : list matrix32)
  : result (list matrix32) :=
  vmap2 (fun sel inp => matmul32 (matmul32 sel inp) (transpose32 sel))
        sels inps.

Definition invert_submatr32 (gram : matrix32) (train_idcs : list (list Z))
  (zerofill : bool) : result (list matrix32) :=
  sels <- idcs_to_selection_matr (Z.of_nat (nrows32 gram)) train_idcs false ;;
  let train_sel_matr := map to_float32 sels in
  let rval := vinvert32 (sym_matmul_fixed_inp32 train_sel_matr gram) in
  if zerofill
  then sym_matmul_variable_inp32 (map transpose32 train_sel_matr) rval
  else Ok rval.

Definition cholesky_submatr32 (gram : matrix32) (train_idcs : list (list Z))
  (zerofill : bool) : result (list matrix32) :=
  sels <- idcs_to_selection_matr (Z.of_nat (nrows32 gram)) train_idcs false ;;
  let train_sel_matr := map to_float32 sels in
  let rval := vcholesky32 (sym_matmul_fixed_inp32 train_sel_matr gram) in
  if zerofill
  then sym_matmul_variable_inp32 (map transpose32 train_sel_matr) rval
  else Ok rval.

(* ================================================================== *)
(** * Arrays of rank at most two *)

(** The value of a [regul] argument after [np.array(regul, dtype=...)]:
    a scalar, a vector or a two-dimensional array. *)
Inductive ndarray : Type :=
| Scalar (x : Qc)
| Vector (v : list Qc)
| Array2 (m : matrix).

Definition shape (a : ndarray) : list nat :=
  match a with
  | Scalar _ => []
  | Vector v => [length v]
  | Array2 m => [nrows m; ncols m]
  end.

(** The shape of [a.squeeze()]: axes of length one are removed. *)
Definition squeeze_shape (a : ndarray) : list nat :=
  filter (fun d => negb (Nat.eqb d 1)) (shape a).

(** [a.size] from a shape *)
Definition size_of (sh : list nat) : nat := fold_right Nat.mul 1%nat sh.

(** [a.shape[0]] from a shape *)
Definition shape0 (sh : list nat) : result nat :=
  match sh with
  | [] => Raise IndexError
  | d :: _ => Ok d
  end.

(** Broadcasting against a two-dimensional array: a scalar acts as an array
    of shape (1, 1) and a vector of length m as one of shape (1, m). *)
Definition atleast_2d (a : ndarray) : matrix :=
  match a with
  | Scalar x => Matrix 1 1 [[x]]
  | Vector v => Matrix 1 (length v) [v]
  | Array2 m => m
  end.

Definition broadcast_dim (a b : nat) : result nat :=
  if Nat.eqb a b then Ok a
  else if Nat.eqb a 1 then Ok b
  else if Nat.eqb b 1 then Ok a
  else Raise ShapeError.

Definition broadcast2 (op : Qc -> Qc -> Qc) (A B : matrix) : result matrix :=
  n <- broadcast_dim (nrows A) (nrows B) ;;
  m <- broadcast_dim (ncols A) (ncols B) ;;
  Ok (mk n m (fun i j =>
    op (get A (if Nat.eqb (nrows A) 1 then 0%nat else i)
              (if Nat.eqb (ncols A) 1 then 0%nat else j))
       (get B (if Nat.eqb (nrows B) 1 then 0%nat else i)
              (if Nat.eqb (ncols B) 1 then 0%nat else j)))).

(* ================================================================== *)
(** * [jaxrk/models/conditional_operator.py] *)

(** The RKHS collaborators of the constructors: feature vectors and
    operators ([InpVecT], [OutVecT], [FiniteOp]), with their length and
    Gram matrix, the covariance operator and its regularised solve, and the
    default regularisation schedule. *)
Class Rkhs : Type := {
  obj : Type;
  len : obj -> nat;
  inner : obj -> matrix;
  CovOp : obj -> obj;
  Cov_solve : obj -> obj -> option ndarray -> obj;
  CrossCovOp : obj -> obj -> obj;
  FiniteOp : obj -> obj -> matrix -> obj;
  Cov_regul : nat -> nat -> Qc  (* a scalar *)
}.

(** [regul.squeeze().size == 1 or
     regul.squeeze().shape[0] == len(inp_feat)] *)
Definition regul_shape_ok (regul : ndarray) (n : nat) : result bool :=
  let sq := squeeze_shape regul in
  if Nat.eqb (size_of sq) 1 then Ok true
  else (d <- shape0 sq ;; Ok (Nat.eqb d n)).

(** The two lines
      [regul = np.array(regul, dtype=np.float32)]
      [assert regul.squeeze().size == 1 or ...]
    shared by the three constructors. *)
Definition check_regul (regul : ndarray) (n : nat) : comp ndarray :=
  b <~ lift (regul_shape_ok regul n) ;;
  _ <~ assert b ;;
  ret regul.

Section ConditionalOperator.
Context {R : Rkhs}.

Definition Cmo (inp_feat outp_feat : obj) (regul : option ndarray)
  : comp obj :=
  regul <~ match regul with
           | Some r => r' <~ check_regul r (len inp_feat) ;; ret (Some r')
           | None => ret None
           end ;;
  cov <~ called CallCovOp (CovOp inp_feat) ;;
  sol <~ called CallCovSolve (Cov_solve cov inp_feat regul) ;;
  called CallCrossCovOp (CrossCovOp sol outp_feat).

Definition RidgeCmo (inp_feat outp_feat : obj) (regul : option ndarray)
  : comp obj :=
  regul <~ match regul with
           | None =>
               r <~ called CallCovRegul (Cov_regul 1 (len inp_feat)) ;;
               ret (Scalar r)
           | Some r => check_regul r (len inp_feat)
           end ;;
  K <~ called CallInner (inner inp_feat) ;;
  RI <~ lift (broadcast2 Qcmult (atleast_2d regul) (eye (len inp_feat))) ;;
  S <~ lift (broadcast2 Qcplus K RI) ;;
  matr <~ called CallInv (linalg_inv S) ;;
  ret (FiniteOp inp_feat outp_feat matr).

Definition Cdo (inp_feat outp_feat ref_feat : obj)
  (regul : option ndarray) : comp obj :=
  regul <~ match regul with
           | Some r => r' <~ check_regul r (len inp_feat) ;; ret (Some r')
           | None => ret None
           end ;;
  mo <~ Cmo inp_feat outp_feat regul ;;
  cov <~ called CallCovOp (CovOp ref_feat) ;;
  called CallCovSolve (Cov_solve cov mo regul).
End ConditionalOperator.

(* ================================================================== *)
(** * [jaxrk/utilities/inducing.py] *)

(** A point array: its shape and its entries in row-major order. *)
Record points_t : Type := Points {
  pshape : list nat;
  pdata : list Qc
}.

(** [len(a)] from the shape of [a] *)
Definition py_len (sh : list nat) : result nat :=
  match sh with
  | [] => Raise TypeError
  | d :: _ => Ok d
  end.

(** [a < b] on entries *)
Definition Qc_ltb (a b : Qc) : bool :=
  match a ?= b with
  | Lt => true
  | _ => false
  end.

Definition Qc_of_nat (n : nat) : Qc := Q2Qc (inject_Z (Z.of_nat n)).

(** [np.diag(v)] of a vector and [np.diag(A)] of a matrix *)
Definition diag_matrix (v : list Qc) : matrix :=
  mk (length v) (length v) (fun i j => if Nat.eqb i j then nth i v 0 else 0).
Definition diagonal (A : matrix) : list Qc :=
  map (fun i => get A i i) (seq 0 (Nat.min (nrows A) (ncols A))).

(** [np.trace(A)] *)
Definition trace (A : matrix) : Qc :=
  sum (Nat.min (nrows A) (ncols A)) (fun i => get A i i).

(** [A - B] for arrays of one shape *)
Definition msub (A B : matrix) : matrix :=
  mk (nrows A) (ncols A) (fun i j => get A i j - get B i j).

(** [v.sum()] *)
Definition vsum (v : list Qc) : Qc := fold_right Qcplus 0 v.

(** [v.reshape((n, m))] *)
Definition reshape (v : list Qc) (n m : nat) : result matrix :=
  if Nat.eqb (length v) (n * m)
  then Ok (mk n m (fun i j => nth (i * m + j) v 0))
  else Raise ShapeError.

(** [A.flatten()] *)
Definition flatten (A : matrix) : list Qc := concat (rows A).

Section InducingSet.
(** [scipy.optimize.minimize(fun, x0, jac=grad(fun), bounds=bounds)];
    the result carries the fields ["success"] and ["x"]. *)
Variable minimize :
  (list Qc -> result Qc) -> list Qc -> list (option Qc * option Qc) ->
  bool * list Qc.

Definition cost (N : nat) (I G : matrix) (non_sparse_penalty : Qc)
  (A : matrix) (lamb : list Qc) : result Qc :=
  if Nat.eqb (length lamb) (nrows A) && Nat.eqb (nrows A) (ncols A)
  then
    let fact := msub I (A @ diag_matrix lamb) in
    Ok ((trace (fact @ G @ transpose fact)
         + non_sparse_penalty * vsum lamb) / Qc_of_nat N)
  else Raise AssertionError.

Definition extract_params (N : nat) (params : list Qc)
  : result (matrix * list Qc) :=
  A <- reshape (skipn N params) N N ;;
  Ok (A, firstn N params).

Definition flat_cost (N : nat) (I G : matrix) (non_sparse_penalty : Qc)
  (params : list Qc) : result Qc :=
  Al <- extract_params N params ;;
  cost N I G non_sparse_penalty (fst Al) (snd Al).

Definition inducing_set (points : points_t) (k : points_t -> matrix)
  (non_sparse_penalty : Qc)
  : comp (matrix * list bool * list Qc
          * (matrix -> list Qc -> result Qc)) :=
  _ <~ assert (Qc_ltb 0 non_sparse_penalty) ;;
  n <~ lift (py_len (pshape points)) ;;
  _ <~ assert (1 <? n) ;;
  _ <~ assert (Nat.eqb (length (pshape points)) 2) ;;
  let N := n in
  let I := eye N in
  G <~ called CallKernel (k points) ;;
  let init := repeat 1 N ++ flatten (eye N) in
  let bounds := repeat (Some 0, Some 1) N ++ repeat (None, None) (N * N) in
  rval <~ called CallMinimize
            (minimize (flat_cost N I G non_sparse_penalty) init bounds) ;;
  _ <~ assert (fst rval) ;;
  Al <~ lift (extract_params N (snd rval)) ;;
  let A := fst Al in
  let lamb := snd Al in
  let selected := map (fun l => Qc_ltb 0 l) lamb in
  let not_selected := map negb selected in
  let AL := A @ diag_matrix lamb in
  let appr_matr := mk N N (fun i j =>
    if nth i selected false then get I i j else get AL i j) in
  let fact := msub I appr_matr in
  let m := count_occ bool_dec selected true in
  let distances := diagonal (fact @ G @ transpose fact) in
  _ <~ assert (0 <? m) ;;
  _ <~ called CallPrint tt ;;
  ret (appr_matr, selected, distances, cost N I G non_sparse_penalty).
End InducingSet.


(* ================================================================== *)
(** * Concrete collaborators, used in the examples *)

(** A random source whose keys are numbers: [split] hands out consecutive
    keys and [permutation] rotates [arange n] by the key. *)
Definition rot_split (rng : nat) (n_splits : Z) : list nat :=
  map (fun i => (rng + i)%nat) (seq 0 (Z.to_nat n_splits)).

Definition rot_permutation (key : nat) (n : Z) : list Z :=
  let r := (key mod (Z.to_nat n))%nat in
  skipn r (arange n) ++ firstn r (arange n).

(* ================================================================== *)
(** * Notions used in the statements *)

(** The entry that [idcs_to_selection_matr] writes in column [c] of a row
    whose index is [x], for an axis of length [n]: [1] when [x], counted from
    the end if negative, is the in-bounds position [c]. *)
Definition selects (n : nat) (x : Z) (c : nat) : Qc :=
  let x' := normalize_index x n in
  if (0 <=? x')%Z && (x' <? Z.of_nat n)%Z && Nat.eqb c (Z.to_nat x')
  then 1 else 0.

(** A square matrix is non-singular when only the zero vector is mapped to
    zero: [A v = 0] implies [v = 0]. *)
Definition nonsingular (A : matrix) : Prop :=
  forall v : nat -> Qc,
    (forall i, (i < nrows A)%nat ->
               sum (ncols A) (fun c => get A i c * v c) = 0) ->
    forall c, (c < ncols A)%nat -> v c = 0.

(** The selection matrix of one row [vi] of indices into an axis of
    length [n]. *)
Definition selection_matrix (n : nat) (vi : list Z) : matrix :=
  mk (length vi) n (fun r c => selects n (nth r vi 0%Z) c).

(** ** Invariants of the elimination *)

(** Row [i] of the left block of [M], applied to the vector [v]. *)
Definition rdot (n : nat) (M : matrix) (i : nat) (v : nat -> Qc) : Qc :=
  sum n (fun c => get M i c * v c).

(** The augmented array [[L | B]] reached from [[A | I]] by row operations:
    [L = B A], and [L] still maps only the zero vector to zero. *)
Record gj_inv (A : matrix) (n : nat) (M : matrix) : Prop := {
  gj_rows : nrows M = n;
  gj_cols : ncols M = (n + n)%nat;
  gj_lin : forall i c, (i < n)%nat -> (c < n)%nat ->
    get M i c = sum n (fun k => get M i (n + k) * get A k c);
  gj_ker : forall v : nat -> Qc,
    (forall i, (i < n)%nat -> rdot n M i v = 0) ->
    forall c, (c < n)%nat -> v c = 0
}.

(** The first [j] columns of the left block are those of the identity. *)
Definition gj_done (n j : nat) (M : matrix) : Prop :=
  forall i c, (i < n)%nat -> (c < j)%nat ->
    get M i c = if Nat.eqb i c then 1 else 0.

(** The Gram matrix of the examples: 2 on the diagonal and 1 elsewhere. *)
Definition gram3 : matrix :=
  mk 3 3 (fun i j => if Nat.eqb i j then Q2Qc 2 else 1).

(** A Gram matrix whose leading 2 by 2 block is singular:
    [[1, 1, 0], [1, 1, 0], [0, 0, 1]]. *)
Definition gram_singular : matrix :=
  mk 3 3 (fun i j =>
    if (i <? 2) && (j <? 2) then 1 else if Nat.eqb i j then 1 else 0).

Definition gram_neg : matrix := Matrix 1 1 [[- (1)]].


(** Equality of arrays, entry by entry. *)
Definition matrix_eqb (A B : matrix) : bool :=
  Nat.eqb (nrows A) (nrows B) && Nat.eqb (ncols A) (ncols B) &&
  Nat.eqb (length (rows A)) (length (rows B)) &&
  forallb (fun rr =>
             Nat.eqb (length (fst rr)) (length (snd rr)) &&
             forallb (fun xy => Qc_eq_bool (fst xy) (snd xy))
                     (combine (fst rr) (snd rr)))
          (combine (rows A) (rows B)).

(** [K + diag(rho)]: the Gram matrix with [rho j] added to its diagonal
    entry [j]. *)
Definition ridge (K : matrix) (rho : nat -> Qc) : matrix :=
  mk (nrows K) (ncols K) (fun i j =>
    get K i j + if Nat.eqb i j then rho j else 0).

(** A symbolic RKHS: feature vectors are given by their Gram matrix and the
    operators are kept as terms. *)
Inductive sym : Type :=
| SFeat (gram : matrix)
| SCovOp (v : sym)
| SCov_solve (cov rhs : sym) (regul : option ndarray)
| SCrossCovOp (a b : sym)
| SFiniteOp (inp outp : sym) (matr : matrix).

Definition sym_len (v : sym) : nat :=
  match v with
  | SFeat g => nrows g
  | _ => 0%nat
  end.

Definition sym_inner (v : sym) : matrix :=
  match v with
  | SFeat g => g
  | _ => zeros 0 0
  end.

#[export] Instance sym_rkhs : Rkhs := {|
  obj := sym;
  len := sym_len;
  inner := sym_inner;
  CovOp := SCovOp;
  Cov_solve := SCov_solve;
  CrossCovOp := SCrossCovOp;
  FiniteOp := SFiniteOp;
  Cov_regul := fun _ n => Q2Qc (1 # Pos.of_nat (S n))
|}.

(** A regularisation array of shape (3, 2). *)
Definition regul32 : ndarray := Array2 (mk 3 2 (fun _ _ => 1)).

(** A kernel whose Gram matrix is the identity, and three optimisers: one
    that reports failure, one that succeeds with the zero vector, and one
    that succeeds with its starting point. *)
Definition eye_kernel (points : points_t) : matrix :=
  eye (hd 0%nat (pshape points)).

Definition minimize_fails (f : list Qc -> result Qc) (x0 : list Qc)
  (bounds : list (option Qc * option Qc)) : bool * list Qc :=
  (false, x0).

Definition minimize_zero (f : list Qc -> result Qc) (x0 : list Qc)
  (bounds : list (option Qc * option Qc)) : bool * list Qc :=
  (true, map (fun _ => 0) x0).

Definition minimize_init (f : list Qc -> result Qc) (x0 : list Qc)
  (bounds : list (option Qc * option Qc)) : bool * list Qc :=
  (true, x0).

(** Two points in the plane. *)
Definition two_points : points_t := Points [2; 2]%nat [0; 0; 1; 1].

(* ================================================================== *)
(** * Lists and sums *)

Lemma nth_map_seq (A : Type) (f : nat -> A) (a n i : nat) (d : A) :
  (i < n)%nat -> nth i (map f (seq a n)) d = f (a + i)%nat.
Proof.
  intros Hi.
  rewrite (nth_indep _ d (f 0%nat)) by (rewrite length_map, length_seq; exact Hi).
  rewrite map_nth, seq_nth by exact Hi.
  reflexivity.
Qed.

Lemma list_ext (A : Type) (d : A) (l1 l2 : list A) :
  length l1 = length l2 ->
  (forall i, (i < length l1)%nat -> nth i l1 d = nth i l2 d) ->
  l1 = l2.
Proof.
  revert l2.
  induction l1 as [|x t IH]; intros [|y u] Hlen Hnth; simpl in *;
    try discriminate; auto.
  f_equal.
  - apply (Hnth 0%nat). lia.
  - apply IH; [lia|].
    intros i Hi. apply (Hnth (S i)). lia.
Qed.

Lemma sum_ext (n : nat) (f g : nat -> Qc) :
  (forall k, (k < n)%nat -> f k = g k) -> sum n f = sum n g.
Proof.
  induction n as [|n IH]; intros H; simpl; auto.
  rewrite IH, H; auto.
Qed.

Lemma sum_zero (n : nat) (f : nat -> Qc) :
  (forall k, (k < n)%nat -> f k = 0) -> sum n f = 0.
Proof.
  induction n as [|n IH]; intros H; simpl; auto.
  rewrite IH, H by auto. ring.
Qed.

Lemma sum_plus (n : nat) (f g : nat -> Qc) :
  sum n (fun k => f k + g k) = sum n f + sum n g.
Proof.
  induction n as [|n IH]; simpl; [ring|]. rewrite IH. ring.
Qed.

Lemma sum_scale (n : nat) (c : Qc) (f : nat -> Qc) :
  sum n (fun k => c * f k) = c * sum n f.
Proof.
  induction n as [|n IH]; simpl; [ring|]. rewrite IH. ring.
Qed.

(** A sum with a single non-zero term. *)
Lemma sum_single (n a : nat) (f : nat -> Qc) :
  (a < n)%nat ->
  (forall k, (k < n)%nat -> k <> a -> f k = 0) ->
  sum n f = f a.
Proof.
  induction n as [|n IH]; intros Ha H; [lia|]. simpl.
  destruct (Nat.eq_dec a n) as [->|Hne].
  - rewrite sum_zero; [ring|]. intros k Hk. apply H; lia.
  - rewrite IH, (H n) by (try intros; try apply H; lia). ring.
Qed.


(* ================================================================== *)
(** * Matrices: shape and entries *)

Lemma get_mk (n m : nat) (f : nat -> nat -> Qc) (i j : nat) :
  (i < n)%nat -> (j < m)%nat -> get (mk n m f) i j = f i j.
Proof.
  intros Hi Hj. unfold get, mk. simpl.
  rewrite nth_map_seq by exact Hi.
  rewrite nth_map_seq by exact Hj.
  reflexivity.
Qed.

Lemma row_mk (n m : nat) (f : nat -> nat -> Qc) (i : nat) :
  (i < n)%nat ->
  nth i (rows (mk n m f)) [] = map (fun j => f i j) (seq 0 m).
Proof.
  intros Hi. unfold mk. simpl. rewrite nth_map_seq by exact Hi. reflexivity.
Qed.

Lemma wf_mk (n m : nat) (f : nat -> nat -> Qc) : wf (mk n m f).
Proof.
  split; simpl.
  - rewrite length_map, length_seq. reflexivity.
  - apply Forall_forall. intros r Hr.
    apply in_map_iff in Hr. destruct Hr as [i [<- _]].
    rewrite length_map, length_seq. reflexivity.
Qed.

Lemma mk_ext (n m : nat) (f g : nat -> nat -> Qc) :
  (forall i j, (i < n)%nat -> (j < m)%nat -> f i j = g i j) ->
  mk n m f = mk n m g.
Proof.
  intros H. unfold mk. f_equal.
  apply map_ext_in. intros i Hi. apply in_seq in Hi.
  apply map_ext_in. intros j Hj. apply in_seq in Hj.
  apply H; lia.
Qed.

Lemma wf_row_length (A : matrix) (i : nat) :
  wf A -> (i < nrows A)%nat -> length (nth i (rows A) []) = ncols A.
Proof.
  intros [Hlen Hall] Hi.
  rewrite Forall_forall in Hall. apply Hall. apply nth_In. lia.
Qed.

(** A well-formed matrix is determined by its shape and its entries. *)
Lemma mk_get (A : matrix) : wf A -> mk (nrows A) (ncols A) (get A) = A.
Proof.
  intros HA. destruct A as [n m rs]. unfold mk. simpl. f_equal.
  pose proof HA as [Hlen Hall]. simpl in *.
  apply (list_ext []).
  - rewrite length_map, length_seq. auto.
  - intros i Hi. rewrite length_map, length_seq in Hi.
    rewrite nth_map_seq by exact Hi. simpl.
    assert (Hr : length (nth i rs []) = m)
      by (apply (wf_row_length (A := Matrix n m rs)); auto).
    apply (list_ext 0).
    + rewrite length_map, length_seq. auto.
    + intros j Hj. rewrite length_map, length_seq in Hj.
      rewrite nth_map_seq by exact Hj. reflexivity.
Qed.

Lemma matrix_ext (A B : matrix) :
  wf A -> wf B -> nrows A = nrows B -> ncols A = ncols B ->
  (forall i j, (i < nrows A)%nat -> (j < ncols A)%nat ->
               get A i j = get B i j) ->
  A = B.
Proof.
  intros HA HB Hn Hm H.
  rewrite <- (mk_get HA), <- (mk_get HB), <- Hn, <- Hm.
  apply mk_ext. exact H.
Qed.

Lemma get_matmul (A B : matrix) (i j : nat) :
  (i < nrows A)%nat -> (j < ncols B)%nat ->
  get (A @ B) i j = sum (ncols A) (fun k => get A i k * get B k j).
Proof. intros. unfold matmul. rewrite get_mk; auto. Qed.

Lemma get_transpose (A : matrix) (i j : nat) :
  (i < ncols A)%nat -> (j < nrows A)%nat ->
  get (transpose A) i j = get A j i.
Proof. intros. unfold transpose. rewrite get_mk; auto. Qed.

Lemma wf_matmul (A B : matrix) : wf (A @ B).
Proof. apply wf_mk. Qed.

Lemma wf_transpose (A : matrix) : wf (transpose A).
Proof. apply wf_mk. Qed.

Lemma wf_eye (n : nat) : wf (eye n).
Proof. apply wf_mk. Qed.

Lemma wf_zeros (n m : nat) : wf (zeros n m).
Proof. apply wf_mk. Qed.

Create HintDb mx.
#[local] Hint Resolve wf_mk wf_matmul wf_transpose wf_eye wf_zeros : mx.


Lemma get_eye (n i j : nat) :
  (i < n)%nat -> (j < n)%nat ->
  get (eye n) i j = if Nat.eqb i j then 1 else 0.
Proof. intros. unfold eye. rewrite get_mk; auto. Qed.

(* ================================================================== *)
(** * Index generators *)

Lemma nth_map_lt (A B : Type) (f : A -> B) (l : list A) (i : nat)
  (d : B) (d' : A) :
  (i < length l)%nat -> nth i (map f l) d = f (nth i l d').
Proof.
  intros Hi.
  rewrite (nth_indep _ d (f d')) by (rewrite length_map; exact Hi).
  apply map_nth.
Qed.

Lemma firstn_seq_le (a n i : nat) :
  (i <= n)%nat -> firstn i (seq a n) = seq a i.
Proof.
  revert a n. induction i as [|i IH]; intros a [|n] Hi; simpl; auto; try lia.
  f_equal. apply IH. lia.
Qed.

Lemma length_arange (n : Z) : length (arange n) = Z.to_nat n.
Proof. unfold arange. rewrite length_map, length_seq. reflexivity. Qed.

Lemma nth_arange (n : Z) (i : nat) :
  (i < Z.to_nat n)%nat -> nth i (arange n) 0%Z = Z.of_nat i.
Proof.
  intros Hi. unfold arange.
  rewrite (nth_map_lt _ _ _ 0%nat) by (rewrite length_seq; exact Hi).
  rewrite seq_nth by exact Hi. reflexivity.
Qed.

Lemma in_arange (n x : Z) : In x (arange n) <-> (0 <= x < n)%Z.
Proof.
  unfold arange. rewrite in_map_iff. split.
  - intros [i [<- Hi]]. apply in_seq in Hi. lia.
  - intros Hx. exists (Z.to_nat x). split; [lia|]. apply in_seq. lia.
Qed.

Lemma NoDup_arange (n : Z) : NoDup (arange n).
Proof.
  unfold arange. apply Finite.Injective_map_NoDup.
  - intros a b. apply Nat2Z.inj.
  - apply seq_NoDup.
Qed.

(** Deleting position [i] of [arange n] leaves the indices below [i]
    followed by those above. *)
Lemma np_delete_arange (n : Z) (i : nat) :
  (i < Z.to_nat n)%nat ->
  np_delete (arange n) (Z.of_nat i) =
  map Z.of_nat (seq 0 i ++ seq (S i) (Z.to_nat n - S i)).
Proof.
  intros Hi. unfold np_delete, arange.
  rewrite Nat2Z.id, firstn_map, skipn_map, map_app.
  rewrite firstn_seq_le by lia. rewrite skipn_seq. reflexivity.
Qed.

Lemma StronglySorted_seq (a n : nat) : StronglySorted lt (seq a n).
Proof.
  revert a. induction n as [|n IH]; intros a; simpl; constructor; auto.
  apply Forall_forall. intros x Hx. apply in_seq in Hx. lia.
Qed.

Lemma StronglySorted_app (A : Type) (R : A -> A -> Prop) (l1 l2 : list A) :
  StronglySorted R l1 -> StronglySorted R l2 ->
  (forall x y, In x l1 -> In y l2 -> R x y) ->
  StronglySorted R (l1 ++ l2).
Proof.
  induction l1 as [|a t IH]; intros H1 H2 H12; simpl; auto.
  apply StronglySorted_inv in H1. destruct H1 as [Ht Ha].
  constructor.
  - apply IH; auto. intros x y Hx Hy. apply H12; simpl; auto.
  - apply Forall_app. split; auto.
    apply Forall_forall. intros y Hy. apply H12; simpl; auto.
Qed.

Lemma StronglySorted_map_of_nat (l : list nat) :
  StronglySorted lt l -> StronglySorted Z.lt (map Z.of_nat l).
Proof.
  induction 1 as [|a t Ht IH Ha]; simpl; constructor; auto.
  rewrite Forall_forall in *. intros y Hy.
  apply in_map_iff in Hy. destruct Hy as [b [<- Hb]].
  apply Nat2Z.inj_lt. auto.
Qed.

(** C4. For every [n > 1], [loo_train_val n] returns [(train, val)] with
    [n] rows each; row [i] of [train] has [n - 1] entries, is strictly
    ascending and holds exactly the indices of [[0, n)] other than [i];
    row [i] of [val] is [[i]].  The result is a function of [n] alone. *)
Theorem loo_train_val_spec (n : Z) :
  (1 < n)%Z ->
  let train := fst (loo_train_val n) in
  let val := snd (loo_train_val n) in
  length train = Z.to_nat n /\
  length val = Z.to_nat n /\
  forall i : nat, (i < Z.to_nat n)%nat ->
    length (nth i train []) = (Z.to_nat n - 1)%nat /\
    StronglySorted Z.lt (nth i train []) /\
    (forall j : Z, In j (nth i train []) <->
                   (0 <= j < n)%Z /\ j <> Z.of_nat i) /\
    nth i val [] = [Z.of_nat i].
Proof.
  intros Hn train val. unfold train, val, loo_train_val. simpl.
  rewrite !length_map, length_arange.
  split; [reflexivity|]. split; [reflexivity|].
  intros i Hi.
  rewrite (nth_map_lt _ _ _ 0%Z) by (rewrite length_arange; exact Hi).
  rewrite (nth_map_lt _ _ _ 0%Z) by (rewrite length_arange; exact Hi).
  rewrite nth_arange by exact Hi.
  rewrite np_delete_arange by exact Hi.
  repeat split.
  - rewrite length_map, length_app, !length_seq. lia.
  - apply StronglySorted_map_of_nat, StronglySorted_app;
      auto using StronglySorted_seq.
    intros x y Hx Hy. apply in_seq in Hx, Hy. lia.
  - apply in_map_iff in H. destruct H as [k [<- Hk]].
    apply in_app_iff in Hk. rewrite !in_seq in Hk. lia.
  - apply in_map_iff in H. destruct H as [k [<- Hk]].
    apply in_app_iff in Hk. rewrite !in_seq in Hk. lia.
  - apply in_map_iff in H. destruct H as [k [<- Hk]].
    apply in_app_iff in Hk. rewrite !in_seq in Hk. lia.
  - intros [Hj Hne]. apply in_map_iff. exists (Z.to_nat j).
    split; [lia|]. apply in_app_iff. rewrite !in_seq. lia.
Qed.

Lemma loo_train_val_witness :
  (1 < 5)%Z /\
  loo_train_val 5 =
  ([[1; 2; 3; 4]; [0; 2; 3; 4]; [0; 1; 3; 4]; [0; 1; 2; 4]; [0; 1; 2; 3]]%Z,
   [[0]; [1]; [2]; [3]; [4]]%Z) /\
  length (fst (loo_train_val 5)) = 5%nat.
Proof.
  split; [lia|]. split; [reflexivity|].
  apply (loo_train_val_spec (n := 5)). lia.
Defined.

Lemma NoDup_app_disjoint (A : Type) (l1 l2 : list A) :
  NoDup (l1 ++ l2) -> forall x, In x l1 -> ~ In x l2.
Proof.
  induction l1 as [|a t IH]; simpl; intros Hnd x Hx Hx2; [contradiction|].
  inversion Hnd as [|? ? Hnotin Hnd']; subst.
  destruct Hx as [->|Hx].
  - apply Hnotin, in_or_app. auto.
  - exact (IH Hnd' x Hx Hx2).
Qed.

Section CvTrainValFacts.
Variable PRNGKey : Type.
Variable random_split : PRNGKey -> Z -> list PRNGKey.
Variable random_permutation : PRNGKey -> Z -> list Z.

(** What the random source promises: [split] returns the requested number
    of keys and [permutation] a permutation of [arange n]. *)
Hypothesis random_split_length :
  forall rng s, length (random_split rng s) = Z.to_nat s.
Hypothesis random_permutation_perm :
  forall key n, Permutation (random_permutation key n) (arange n).

(** C5. For [0 < n_train < n], [cv_train_val] returns [train] of shape
    [(S, n_train)] and [val] of shape [(S, n - n_train)]; in every split
    the train row followed by the val row is a permutation of [[0, n)]
    without repetition, so the two rows are disjoint and together hold
    every index exactly once. *)
Theorem cv_train_val_partition (n n_train S : Z) (rng : PRNGKey) :
  (0 < n_train < n)%Z ->
  let tv := cv_train_val random_split random_permutation
              n n_train S rng in
  length (fst tv) = Z.to_nat S /\
  length (snd tv) = Z.to_nat S /\
  forall s : nat, (s < Z.to_nat S)%nat ->
    let tr := nth s (fst tv) [] in
    let va := nth s (snd tv) [] in
    length tr = Z.to_nat n_train /\
    length va = Z.to_nat (n - n_train) /\
    Permutation (tr ++ va) (arange n) /\
    NoDup (tr ++ va) /\
    (forall x, In x tr -> ~ In x va) /\
    (forall x, (0 <= x < n)%Z -> count_occ Z.eq_dec (tr ++ va) x = 1%nat).
Proof.
  intros Hn tv. unfold tv, cv_train_val. simpl.
  rewrite !length_map, random_split_length.
  split; [reflexivity|]. split; [reflexivity|].
  intros s Hs. simpl.
  set (keys := random_split rng S).
  assert (Hk : (s < length keys)%nat)
    by (unfold keys; rewrite random_split_length; exact Hs).
  assert (Hp : (s < length (map (fun key => random_permutation key n) keys))%nat)
    by (rewrite length_map; exact Hk).
  rewrite (nth_map_lt _ _ _ []) by exact Hp.
  rewrite (nth_map_lt _ _ _ []) by exact Hp.
  set (row := nth s (map (fun key => random_permutation key n) keys) []).
  assert (Hrow : Permutation row (arange n)).
  { unfold row.
    destruct (nth_in_or_default s
                (map (fun key => random_permutation key n) keys) [])
      as [Hin | Hd].
    - apply in_map_iff in Hin. destruct Hin as [key [<- _]].
      apply random_permutation_perm.
    - exfalso. apply nth_In with (d := @nil Z) in Hp. fold row in Hp.
      apply in_map_iff in Hp. destruct Hp as [key [Hkey _]].
      pose proof (Permutation_length (random_permutation_perm key n)) as Hl.
      rewrite Hkey in Hl. fold row in Hd. rewrite Hd, length_arange in Hl.
      simpl in Hl. lia. }
  assert (Hlen : length row = Z.to_nat n)
    by (rewrite (Permutation_length Hrow); apply length_arange).
  unfold slice_to, slice_from, slice_bound.
  destruct (Z.ltb_spec n_train 0) as [Hneg|_]; [lia|].
  rewrite firstn_skipn, length_firstn, length_skipn, Hlen.
  assert (Hnd : NoDup row).
  { apply (Permutation_NoDup (Permutation_sym Hrow)), NoDup_arange. }
  repeat split; try lia; auto.
  - intros x Hx1 Hx2.
    rewrite <- (firstn_skipn (Z.to_nat n_train) row) in Hnd.
    exact (NoDup_app_disjoint _ _ Hnd x Hx1 Hx2).
  - intros x Hx.
    assert (Hin : In x row)
      by (apply (Permutation_in _ (Permutation_sym Hrow)), in_arange, Hx).
    apply (NoDup_count_occ' Z.eq_dec); auto.
Qed.
End CvTrainValFacts.

Lemma rot_split_length (rng : nat) (s : Z) :
  length (rot_split rng s) = Z.to_nat s.
Proof. unfold rot_split. rewrite length_map, length_seq. reflexivity. Qed.

Lemma rot_permutation_perm (key : nat) (n : Z) :
  Permutation (rot_permutation key n) (arange n).
Proof.
  unfold rot_permutation.
  rewrite Permutation_app_comm, firstn_skipn. reflexivity.
Qed.

Lemma cv_train_val_partition_witness :
  (0 < 3 < 5)%Z /\
  cv_train_val rot_split rot_permutation 5 3 2 7%nat =
    ([[2; 3; 4]; [3; 4; 0]]%Z, [[0; 1]; [1; 2]]%Z) /\
  length (fst (cv_train_val rot_split rot_permutation 5 3 2 7%nat)) = 2%nat.
Proof.
  split; [lia|]. split; [reflexivity|].
  apply (@cv_train_val_partition nat rot_split rot_permutation
           rot_split_length rot_permutation_perm 5 3 2 7%nat).
  lia.
Defined.

(* ================================================================== *)
(** * Sorting *)

Lemma insert_sorted_perm (x : Z) (l : list Z) :
  Permutation (insert_sorted x l) (x :: l).
Proof.
  induction l as [|y t IH]; simpl; auto.
  destruct (x <=? y)%Z; auto.
  rewrite IH. apply perm_swap.
Qed.

Lemma np_sort_perm (l : list Z) : Permutation (np_sort l) l.
Proof.
  induction l as [|x t IH]; simpl; auto.
  rewrite insert_sorted_perm. auto.
Qed.

Lemma insert_sorted_sorted (x : Z) (l : list Z) :
  StronglySorted Z.le l -> StronglySorted Z.le (insert_sorted x l).
Proof.
  induction 1 as [|y t Ht IH Hy]; simpl.
  - repeat constructor.
  - destruct (Z.leb_spec x y) as [Hle|Hgt].
    + constructor; [constructor; auto|].
      constructor; auto.
      rewrite Forall_forall in *. intros z Hz. specialize (Hy z Hz). lia.
    + constructor; auto.
      rewrite Forall_forall in *. intros z Hz.
      apply (Permutation_in _ (insert_sorted_perm x t)) in Hz.
      destruct Hz as [<-|Hz]; [lia|auto].
Qed.

Lemma np_sort_sorted (l : list Z) : StronglySorted Z.le (np_sort l).
Proof.
  induction l as [|x t IH]; simpl; [constructor|].
  apply insert_sorted_sorted, IH.
Qed.

Lemma np_sort_length (l : list Z) : length (np_sort l) = length l.
Proof. apply Permutation_length, np_sort_perm. Qed.

(* ================================================================== *)
(** * Selection matrices *)

Lemma list_update_length (A : Type) (l : list A) (i : nat) (f : A -> A) :
  length (list_update l i f) = length l.
Proof.
  revert i. induction l as [|x t IH]; intros [|i]; simpl; auto.
Qed.

Lemma list_update_app (A : Type) (pre : list A) (x : A) (post : list A)
  (f : A -> A) :
  list_update (pre ++ x :: post) (length pre) f = pre ++ f x :: post.
Proof.
  induction pre as [|y t IH]; simpl; auto. rewrite IH. reflexivity.
Qed.

Lemma list_update_fold (A B : Type) (g : B -> A -> A) (s : nat)
  (l : list B) (rv : list A) :
  fold_left (fun rv b => list_update rv s (g b)) l rv =
  list_update rv s (fun a => fold_left (fun a b => g b a) l a).
Proof.
  revert rv. induction l as [|b t IH]; intros rv; simpl.
  - revert s. induction rv as [|x u IHu]; intros [|s]; simpl; auto.
    rewrite <- IHu. reflexivity.
  - rewrite IH. clear IH.
    revert s. induction rv as [|x u IHu]; intros [|s]; simpl; auto.
    rewrite IHu. reflexivity.
Qed.

(** The outer loop touches the matrix of split [s] in iteration [s] only. *)
Lemma fold_enumerate_update (A B : Type) (G : B -> A -> A) (z : A)
  (l : list B) (pre : list A) :
  fold_left (fun rv sv => list_update rv (fst sv) (G (snd sv)))
            (combine (seq (length pre) (length l)) l)
            (pre ++ repeat z (length l)) =
  pre ++ map (fun b => G b z) l.
Proof.
  revert pre. induction l as [|b t IH]; intros pre; simpl; auto.
  rewrite list_update_app.
  change (pre ++ G b z :: repeat z (length t))
    with (pre ++ [G b z] ++ repeat z (length t)).
  rewrite app_assoc.
  replace (S (length pre)) with (length (pre ++ [G b z]))
    by (rewrite length_app; simpl; lia).
  rewrite IH, <- app_assoc. reflexivity.
Qed.

Lemma set_entry_shape (A : matrix) (r : nat) (c : Z) (v : Qc) :
  nrows (set_entry A r c v) = nrows A /\
  ncols (set_entry A r c v) = ncols A.
Proof.
  unfold set_entry.
  destruct ((0 <=? _)%Z && (_ <? _)%Z); simpl; auto.
Qed.

Lemma wf_set_entry (A : matrix) (r : nat) (c : Z) (v : Qc) :
  wf A -> wf (set_entry A r c v).
Proof.
  unfold set_entry.
  destruct ((0 <=? _)%Z && (_ <? _)%Z); auto with mx.
Qed.

Lemma get_set_entry (A : matrix) (r : nat) (c : Z) (i j : nat) :
  (i < nrows A)%nat -> (j < ncols A)%nat ->
  get (set_entry A r c 1) i j =
  if Nat.eqb i r then
    (if Qc_eq_bool (selects (ncols A) c j) 1 then 1 else get A i j)
  else get A i j.
Proof.
  intros Hi Hj. unfold set_entry, selects.
  destruct ((0 <=? _)%Z && (_ <? _)%Z); simpl.
  - rewrite get_mk by auto.
    destruct (Nat.eqb i r); simpl; auto.
    destruct (Nat.eqb j _); reflexivity.
  - destruct (Nat.eqb i r); reflexivity.
Qed.

Lemma selects_01 (n : nat) (x : Z) (c : nat) :
  Qc_eq_bool (selects n x c) 1 = true /\ selects n x c = 1 \/
  Qc_eq_bool (selects n x c) 1 = false /\ selects n x c = 0.
Proof.
  unfold selects. destruct (_ && _ && _); [left | right]; split; reflexivity.
Qed.

(** The inner loop over a row [vi] of indices, started at position [a]. *)
Lemma fold_set_entry (vi : list Z) (a : nat) (A : matrix) :
  wf A ->
  let B := fold_left (fun M rc => set_entry M (fst rc) (snd rc) 1)
                     (combine (seq a (length vi)) vi) A in
  wf B /\ nrows B = nrows A /\ ncols B = ncols A /\
  forall i j, (i < nrows A)%nat -> (j < ncols A)%nat ->
    get B i j =
    if (a <=? i) && (i <? a + length vi)
    then (if Qc_eq_bool (selects (ncols A) (nth (i - a) vi 0%Z) j) 1
          then 1 else get A i j)
    else get A i j.
Proof.
  revert a A. induction vi as [|x t IH]; intros a A HA; simpl.
  - split; [exact HA|]. do 2 (split; [reflexivity|]). intros i j _ _.
    destruct (a <=? i) eqn:E1, (i <? a + 0) eqn:E2; simpl; auto.
    apply Nat.leb_le in E1. apply Nat.ltb_lt in E2. lia.
  - destruct (set_entry_shape A a x 1) as [Hn Hm].
    destruct (IH (S a) (set_entry A a x 1) (wf_set_entry a x 1 HA))
      as [HB [HBn [HBm HBe]]].
    rewrite Hn in *. rewrite Hm in *.
    split; [exact HB|]. do 2 (split; [assumption|]).
    intros i j Hi Hj. rewrite HBe by auto.
    rewrite get_set_entry by auto.
    destruct (Nat.eqb_spec i a) as [->|Hne].
    + replace (S a <=? a) with false by (symmetry; apply Nat.leb_gt; lia).
      replace (a <=? a) with true by (symmetry; apply Nat.leb_le; lia).
      replace (a <? a + S (length t)) with true
        by (symmetry; apply Nat.ltb_lt; lia).
      simpl. rewrite Nat.sub_diag. reflexivity.
    + destruct (Nat.leb_spec (S a) i) as [H1|H1];
      destruct (Nat.ltb_spec i (S a + length t)) as [H2|H2];
      destruct (Nat.leb_spec a i) as [H3|H3];
      destruct (Nat.ltb_spec i (a + S (length t))) as [H4|H4];
      simpl; try lia; auto.
      replace (i - a)%nat with (S (i - S a)) by lia. reflexivity.
Qed.

Lemma fold_left_ext (A B : Type) (f g : A -> B -> A) (l : list B) (a : A) :
  (forall x y, f x y = g x y) -> fold_left f l a = fold_left g l a.
Proof.
  intros H. revert a. induction l as [|b t IH]; intros a; simpl; auto.
  rewrite H. apply IH.
Qed.

Lemma inner_loop_zeros (n : nat) (vi : list Z) :
  fold_left (fun M rc => set_entry M (fst rc) (snd rc) 1)
            (enumerate vi) (zeros (length vi) n) =
  selection_matrix n vi.
Proof.
  unfold enumerate.
  destruct (fold_set_entry vi 0 (wf_zeros (length vi) n))
    as [HB [HBn [HBm HBe]]].
  apply matrix_ext; auto. { apply wf_mk. }
  rewrite HBn, HBm. simpl. intros i j Hi Hj.
  rewrite HBe by auto.
  unfold selection_matrix, zeros. rewrite !get_mk by auto.
  replace (0 <=? i) with true by (symmetry; apply Nat.leb_le; lia).
  replace (i <? 0 + length vi) with true by (symmetry; apply Nat.ltb_lt; lia).
  simpl. rewrite Nat.sub_0_r.
  destruct (selects_01 n (nth i vi 0%Z) j) as [[-> ->]|[-> ->]]; reflexivity.
Qed.

Lemma nth_list_update (A : Type) (l : list A) (i : nat) (f : A -> A)
  (d : A) :
  (i < length l)%nat ->
  nth i (list_update l i f) d = f (nth i l d).
Proof.
  revert i. induction l as [|x t IH]; intros [|i] Hi; simpl in *;
    try lia; auto.
  apply IH. lia.
Qed.

Lemma Forall_list_update (A : Type) (P : A -> Prop) (l : list A) (i : nat)
  (f : A -> A) :
  (forall a, P a -> P (f a)) -> Forall P l -> Forall P (list_update l i f).
Proof.
  intros Hf. revert i.
  induction l as [|x t IH]; intros [|i] Hl; simpl; auto;
    inversion Hl; subst; constructor; auto.
Qed.

(** A loop whose body never raises is a fold. *)
Lemma for_each_ok (A B : Type) (P : A -> Prop) (Q : B -> Prop)
  (body : A -> B -> result A) (g : A -> B -> A) (l : list B) (a : A) :
  (forall a b, P a -> Q b -> body a b = Ok (g a b) /\ P (g a b)) ->
  P a -> Forall Q l ->
  for_each l a body = Ok (fold_left g l a) /\ P (fold_left g l a).
Proof.
  intros Hbody. revert a.
  induction l as [|b t IH]; intros a Ha Hl; simpl; auto.
  inversion Hl; subst.
  destruct (Hbody a b) as [-> HP]; auto. simpl. apply IH; auto.
Qed.

(** A loop over rows without entries leaves the array as it is. *)
Lemma for_each_skip (A B : Type) (body : A -> B -> result A) (l : list B)
  (a : A) :
  Forall (fun b => forall a, body a b = Ok a) l ->
  for_each l a body = Ok a.
Proof.
  induction 1 as [|b t Hb Ht IH]; simpl; auto.
  rewrite Hb. simpl. exact IH.
Qed.

Lemma enumerate_fst_lt (A : Type) (l : list A) :
  Forall (fun p => (fst p < length l)%nat) (enumerate l).
Proof.
  unfold enumerate. apply Forall_forall. intros [i x] Hin.
  apply in_combine_l in Hin. apply in_seq in Hin. simpl. lia.
Qed.

(** On an axis of positive length no update raises, and the two loops are
    folds of [set_entry]. *)
Lemma selection_loops_ok (n k : nat) (idcs : list (list Z)) :
  (0 < n)%nat ->
  for_each (enumerate idcs) (repeat (zeros k n) (length idcs))
    (fun rval sv =>
       for_each (enumerate (snd sv)) rval (fun rval rc =>
         at_set rval (fst sv) (fst rc) (snd rc) 1)) =
  Ok (fold_left
        (fun rval sv =>
           fold_left
             (fun rval rc =>
                list_update rval (fst sv)
                  (fun A => set_entry A (fst rc) (snd rc) 1))
             (enumerate (snd sv)) rval)
        (enumerate idcs) (repeat (zeros k n) (length idcs))).
Proof.
  intros Hn.
  set (P := fun rval : list matrix =>
              length rval = length idcs /\
              Forall (fun A => ncols A = n) rval).
  refine (proj1 (@for_each_ok _ _ P
            (fun sv : nat * list Z => (fst sv < length idcs)%nat)
            _ _ _ _ _ _ (enumerate_fst_lt idcs))).
  - intros rval sv [Hlen Hcols] Hsv.
    refine (@for_each_ok _ _ P (fun _ => True) _ _ _ _ _ _ _).
    + intros rv rc [Hl Hc] _. unfold at_set.
      assert (Hnth : ncols (nth (fst sv) rv (zeros 0 0)) = n).
      { rewrite Forall_forall in Hc. apply Hc, nth_In. lia. }
      rewrite Hnth.
      destruct (Nat.eqb_spec n 0) as [E|_]; [lia|].
      split; [reflexivity|]. split.
      * rewrite list_update_length. exact Hl.
      * apply Forall_list_update; auto.
        intros A HA. rewrite (proj2 (set_entry_shape A _ _ _)). exact HA.
    + split; assumption.
    + apply Forall_forall. auto.
  - split.
    + apply repeat_length.
    + apply Forall_forall. intros A HA.
      apply repeat_spec in HA. subst A. reflexivity.
Qed.

(** What [idcs_to_selection_matr] computes, for any index values: on an
    axis of positive length, or when no row holds an index. *)
Lemma idcs_to_selection_matr_eq (N : Z) (idcs : list (list Z))
  (idcs_sorted : bool) (k : nat) :
  (0 <= N)%Z ->
  Forall (fun row => length row = k) idcs ->
  (0 < N)%Z \/ Forall (fun row => row = []) idcs ->
  idcs_to_selection_matr N idcs idcs_sorted =
  Ok (map (selection_matrix (Z.to_nat N))
          (if idcs_sorted then idcs else map np_sort idcs)).
Proof.
  intros HN Hk Hcase. unfold idcs_to_selection_matr.
  assert (Hk' : Forall (fun row => length row = k)
                  (if negb idcs_sorted then map np_sort idcs else idcs)).
  { destruct idcs_sorted; simpl; auto.
    rewrite Forall_forall in *. intros row Hrow.
    apply in_map_iff in Hrow. destruct Hrow as [row' [<- Hin]].
    rewrite np_sort_length. auto. }
  assert (Hcase' : (0 < N)%Z \/
            Forall (fun row => row = [])
                   (if negb idcs_sorted then map np_sort idcs else idcs)).
  { destruct Hcase as [H|H]; [left; exact H|right].
    destruct idcs_sorted; simpl; auto.
    rewrite Forall_forall in *. intros row Hrow.
    apply in_map_iff in Hrow. destruct Hrow as [row' [<- Hin]].
    rewrite (H row' Hin). reflexivity. }
  replace (if idcs_sorted then idcs else map np_sort idcs)
    with (if negb idcs_sorted then map np_sort idcs else idcs)
    by (destruct idcs_sorted; reflexivity).
  set (idcs' := if negb idcs_sorted then map np_sort idcs else idcs) in *.
  unfold np_zeros3.
  destruct (Z.ltb_spec N 0) as [Hneg|_]; [lia|]. cbn [bind].
  destruct Hcase' as [Hpos | Hempty].
  - rewrite selection_loops_ok by lia. f_equal.
    rewrite (fold_left_ext _
      (fun rv sv => list_update rv (fst sv)
         (fun M => fold_left (fun M rc => set_entry M (fst rc) (snd rc) 1)
                             (enumerate (snd sv)) M)))
      by (intros rv sv; apply list_update_fold
            with (g := fun rc M => set_entry M (fst rc) (snd rc) 1)).
    unfold enumerate at 2.
    pose proof (fold_enumerate_update
      (fun vi M => fold_left (fun M rc => set_entry M (fst rc) (snd rc) 1)
                             (enumerate vi) M)
      (zeros (length (hd [] idcs')) (Z.to_nat N)) idcs' []) as Hfold.
    cbn [app length] in Hfold. rewrite Hfold. clear Hfold.
    apply map_ext_in. intros vi Hvi.
    assert (Hlen : length vi = k)
      by (rewrite Forall_forall in Hk'; auto).
    assert (Hhd : length (hd [] idcs') = k).
    { destruct idcs' as [|v0 rest]; [contradiction|].
      inversion Hk'; subst; auto. }
    rewrite Hhd, <- Hlen. apply inner_loop_zeros.
  - rewrite for_each_skip.
    + f_equal.
      assert (Hhd : hd [] idcs' = []).
      { destruct idcs' as [|v0 rest]; [reflexivity|].
        inversion Hempty; subst; auto. }
      rewrite Hhd. clear Hhd Hk'.
      induction Hempty as [|row t Hrow Ht IH]; [reflexivity|].
      cbn [length repeat map]. rewrite Hrow. f_equal. exact IH.
    + apply Forall_forall. intros [i row] Hin a.
      unfold enumerate in Hin. apply in_combine_r in Hin.
      rewrite Forall_forall in Hempty. rewrite (Hempty row Hin).
      reflexivity.
Qed.

(** On an axis of length zero the first index met is an [IndexError]. *)
Lemma idcs_to_selection_matr_empty_axis (idcs : list (list Z))
  (idcs_sorted : bool) (k : nat) :
  Forall (fun row => length row = k) idcs ->
  idcs <> [] -> (0 < k)%nat ->
  idcs_to_selection_matr 0 idcs idcs_sorted = Raise IndexError.
Proof.
  intros Hk Hne Hpos. unfold idcs_to_selection_matr.
  assert (Hk' : Forall (fun row => length row = k)
                  (if negb idcs_sorted then map np_sort idcs else idcs)).
  { destruct idcs_sorted; simpl; auto.
    rewrite Forall_forall in *. intros row Hrow.
    apply in_map_iff in Hrow. destruct Hrow as [row' [<- Hin]].
    rewrite np_sort_length. auto. }
  assert (Hne' : (if negb idcs_sorted then map np_sort idcs else idcs) <> [])
    by (destruct idcs_sorted; simpl; auto; destruct idcs; simpl; congruence).
  destruct (if negb idcs_sorted then map np_sort idcs else idcs)
    as [|row rest]; [congruence|].
  inversion Hk' as [|? ? Hrow _]; subst.
  destruct row as [|x t]; [simpl in Hpos; lia|].
  reflexivity.
Qed.

(** The tensor that [idcs_to_selection_matr] returns, when it returns. *)
Lemma idcs_to_selection_matr_ok (N : Z) (idcs : list (list Z))
  (idcs_sorted : bool) (k : nat) (sels : list matrix) :
  (0 <= N)%Z ->
  Forall (fun row => length row = k) idcs ->
  idcs_to_selection_matr N idcs idcs_sorted = Ok sels ->
  sels = map (selection_matrix (Z.to_nat N))
             (if idcs_sorted then idcs else map np_sort idcs).
Proof.
  intros HN Hk Hsels.
  assert (Hcase : (0 < N)%Z \/ Forall (fun row => row = []) idcs \/
                  (N = 0%Z /\ idcs <> [] /\ (0 < k)%nat)).
  { destruct (Z.eq_dec N 0) as [E|E]; [|left; lia].
    right. destruct idcs as [|row rest]; [left; constructor|].
    destruct k as [|k].
    - left. eapply Forall_impl; [|exact Hk].
      intros r Hr. destruct r; [reflexivity|discriminate].
    - right. split; [exact E|]. split; [discriminate|lia]. }
  destruct Hcase as [H|[H|[H0 [Hne Hpos]]]].
  - rewrite (@idcs_to_selection_matr_eq N idcs idcs_sorted k HN Hk
               (or_introl H)) in Hsels.
    injection Hsels as <-. reflexivity.
  - rewrite (@idcs_to_selection_matr_eq N idcs idcs_sorted k HN Hk
               (or_intror H)) in Hsels.
    injection Hsels as <-. reflexivity.
  - subst N.
    rewrite (@idcs_to_selection_matr_empty_axis idcs idcs_sorted k Hk Hne Hpos)
      in Hsels.
    discriminate.
Qed.

(** Index rows with values in [[0, N)] either meet an axis of positive
    length or hold no index. *)
Lemma in_range_axis (N : Z) (idcs : list (list Z)) :
  Forall (fun row => Forall (fun c => (0 <= c < N)%Z) row) idcs ->
  (0 < N)%Z \/ Forall (fun row => row = []) idcs.
Proof.
  intros Hall. destruct (Z.ltb_spec 0 N) as [H|H]; [left; exact H|right].
  eapply Forall_impl; [|exact Hall].
  intros [|c t] Hrow; [reflexivity|].
  inversion Hrow; subst. lia.
Qed.

Lemma selects_in_range (n : nat) (x : Z) (c : nat) :
  (0 <= x < Z.of_nat n)%Z -> (c < n)%nat ->
  selects n x c = if (Z.of_nat c =? x)%Z then 1 else 0.
Proof.
  intros Hx Hc. unfold selects, normalize_index.
  destruct (Z.ltb_spec x 0) as [H|_]; [lia|].
  destruct (Z.leb_spec 0 x) as [_|H]; [|lia].
  destruct (Z.ltb_spec x (Z.of_nat n)) as [_|H]; [|lia]. simpl.
  destruct (Nat.eqb_spec c (Z.to_nat x)) as [E|E];
    destruct (Z.eqb_spec (Z.of_nat c) x) as [E'|E']; auto; lia.
Qed.

(** Multiplying by a selection matrix picks rows. *)
Lemma selection_matmul_row (n : nat) (vi : list Z) (M : matrix) (r : nat) :
  wf M -> nrows M = n ->
  Forall (fun c => (0 <= c < Z.of_nat n)%Z) vi ->
  (r < length vi)%nat ->
  nth r (rows (selection_matrix n vi @ M)) [] =
  nth (Z.to_nat (nth r vi 0%Z)) (rows M) [].
Proof.
  intros HM Hn Hvi Hr.
  assert (Hx : (0 <= nth r vi 0 < Z.of_nat n)%Z)
    by (rewrite Forall_forall in Hvi; apply Hvi, nth_In, Hr).
  set (x := nth r vi 0%Z) in *.
  unfold matmul. rewrite row_mk by exact Hr.
  apply (list_ext 0).
  - rewrite length_map, length_seq, wf_row_length; auto. lia.
  - intros j Hj. rewrite length_map, length_seq in Hj. simpl in Hj.
    rewrite nth_map_seq by exact Hj. simpl.
    rewrite (sum_single (a := Z.to_nat x)); [| lia |].
    + unfold selection_matrix. rewrite get_mk by (auto; lia). fold x.
      rewrite selects_in_range by lia.
      rewrite Z2Nat.id, Z.eqb_refl by lia. unfold get. ring.
    + intros c Hc Hne. unfold selection_matrix.
      rewrite get_mk by auto. fold x. rewrite selects_in_range by lia.
      destruct (Z.eqb_spec (Z.of_nat c) x) as [E|E]; [lia|ring].
Qed.

Lemma nth_selection (N : nat) (l : list (list Z)) (s : nat) :
  (s < length l)%nat ->
  nth s (map (selection_matrix N) l) (zeros 0 0) =
  selection_matrix N (nth s l []).
Proof. intros Hs. apply nth_map_lt. exact Hs. Qed.

(** C1. For an index array of shape [(num_splits, k)] with values in
    [[0, N)], [idcs_to_selection_matr] returns [num_splits] matrices of
    shape [(k, N)].  With [row] the indices of split [s] (sorted ascending
    unless [idcs_sorted]), entry [[s, r, c]] is 1 if [c] is the [r]-th
    index of [row] and 0 otherwise, and row [r] of the product of the
    split-[s] matrix with any [N]-row matrix [M] is row [row[r]] of [M]. *)
Theorem idcs_to_selection_matr_spec (N : Z) (idcs : list (list Z))
  (idcs_sorted : bool) (k : nat) :
  (0 <= N)%Z ->
  Forall (fun row => length row = k /\
                     Forall (fun c => (0 <= c < N)%Z) row) idcs ->
  exists t,
    idcs_to_selection_matr N idcs idcs_sorted = Ok t /\
    length t = length idcs /\
    forall s, (s < length idcs)%nat ->
      exists row,
        (if idcs_sorted then row = nth s idcs []
         else Permutation row (nth s idcs []) /\ StronglySorted Z.le row) /\
        let sel := nth s t (zeros 0 0) in
        wf sel /\ nrows sel = k /\ ncols sel = Z.to_nat N /\
        (forall r c, (r < k)%nat -> (c < Z.to_nat N)%nat ->
           get sel r c = if (Z.of_nat c =? nth r row 0%Z)%Z then 1 else 0) /\
        (forall M, wf M -> nrows M = Z.to_nat N ->
           forall r, (r < k)%nat ->
             nth r (rows (sel @ M)) [] =
             nth (Z.to_nat (nth r row 0%Z)) (rows M) []).
Proof.
  intros HN Hall.
  assert (Hk : Forall (fun row => length row = k) idcs)
    by (eapply Forall_impl; [|exact Hall]; simpl; tauto).
  assert (Hax : (0 < N)%Z \/ Forall (fun row => row = []) idcs)
    by (apply in_range_axis; eapply Forall_impl; [|exact Hall];
        simpl; tauto).
  rewrite (@idcs_to_selection_matr_eq N idcs idcs_sorted k HN Hk Hax).
  eexists. split; [reflexivity|].
  split; [rewrite length_map; destruct idcs_sorted;
          rewrite ?length_map; reflexivity|].
  intros s Hs.
  set (row := nth s (if idcs_sorted then idcs else map np_sort idcs) []).
  assert (Hs' : (s < length (if idcs_sorted then idcs
                             else map np_sort idcs))%nat)
    by (destruct idcs_sorted; rewrite ?length_map; exact Hs).
  assert (Horig : length (nth s idcs []) = k /\
                  Forall (fun c => (0 <= c < N)%Z) (nth s idcs []))
    by (rewrite Forall_forall in Hall; apply Hall, nth_In, Hs).
  assert (Hrow : Permutation row (nth s idcs [])).
  { unfold row. destruct idcs_sorted; [reflexivity|].
    rewrite (nth_map_lt _ _ _ []) by exact Hs. apply np_sort_perm. }
  assert (Hlen : length row = k)
    by (rewrite (Permutation_length Hrow); tauto).
  assert (Hrange : Forall (fun c => (0 <= c < Z.of_nat (Z.to_nat N))%Z) row).
  { destruct Horig as [_ Hr]. rewrite Forall_forall in *. intros c Hc.
    rewrite Z2Nat.id by lia. apply Hr, (Permutation_in _ Hrow), Hc. }
  exists row. split.
  - unfold row. destruct idcs_sorted; [reflexivity|].
    split; [exact Hrow|].
    rewrite (nth_map_lt _ _ _ []) by exact Hs. apply np_sort_sorted.
  - simpl. rewrite nth_selection by exact Hs'. fold row.
    split; [apply wf_mk|]. split; [exact Hlen|]. split; [reflexivity|].
    split.
    + intros r c Hr Hc. unfold selection_matrix.
      rewrite get_mk by (auto; lia).
      apply selects_in_range; auto.
      rewrite Forall_forall in Hrange. apply Hrange, nth_In. lia.
    + intros M HM HMn r Hr.
      apply selection_matmul_row; auto. lia.
Qed.

Lemma idcs_to_selection_matr_spec_witness :
  (0 <= 5)%Z /\
  idcs_to_selection_matr 5 [[3; 0; 2]; [1; 2; 3]]%Z false =
    Ok [Matrix 3 5 [[1; 0; 0; 0; 0]; [0; 0; 1; 0; 0]; [0; 0; 0; 1; 0]];
        Matrix 3 5 [[0; 1; 0; 0; 0]; [0; 0; 1; 0; 0]; [0; 0; 0; 1; 0]]] /\
  exists t, idcs_to_selection_matr 5 [[3; 0; 2]; [1; 2; 3]]%Z false = Ok t /\
            length t = 2%nat.
Proof.
  split; [lia|]. split; [reflexivity|].
  destruct (@idcs_to_selection_matr_spec 5 [[3; 0; 2]; [1; 2; 3]]%Z false 3)
    as [t [Ht [Hlen _]]].
  - lia.
  - repeat constructor; lia.
  - exists t. split; [exact Ht | exact Hlen].
Defined.

(** C9, as stated, fails: the index 5 is outside [[0, 3)], and the function
    returns a tensor (whose only row is zero) instead of rejecting the
    input; the index -1 is outside [[0, 3)] too and selects column 2. *)
Lemma idcs_to_selection_matr_out_of_range :
  ~ (0 <= 5 < 3)%Z /\ ~ (0 <= -1 < 3)%Z /\
  idcs_to_selection_matr 3 [[5]; [-1]]%Z false =
    Ok [Matrix 1 3 [[0; 0; 0]]; Matrix 1 3 [[0; 0; 1]]] /\
  ~ is_raise (idcs_to_selection_matr 3 [[5]; [-1]]%Z false).
Proof.
  split; [lia|]. split; [lia|]. split; [reflexivity|].
  intros [e He]. discriminate He.
Qed.

(** C9, amended.  [idcs_to_selection_matr] does not compare the index
    values with [N].  For [1 <= N < 2^31] and every array of [int32]
    indices it returns a tensor: a row whose index [x] lies in [[0, N)] has
    its 1 in column [x]; a row whose index lies in [[-N, 0)] has its 1 in
    column [x + N]; a row whose index lies outside [[-N, N)] is zero.  Only
    for [N = 0], where no index is in range, is an index rejected: the
    first update raises [IndexError]. *)
Theorem idcs_to_selection_matr_any_index (N : Z) (idcs : list (list Z))
  (idcs_sorted : bool) (k : nat) :
  (0 <= N < 2 ^ 31)%Z ->
  Forall (fun row => length row = k /\
            Forall (fun x => (- 2 ^ 31 <= x < 2 ^ 31)%Z) row) idcs ->
  ((0 < N)%Z ->
   exists t,
     idcs_to_selection_matr N idcs idcs_sorted = Ok t /\
     length t = length idcs /\
     forall s r c,
       (s < length idcs)%nat -> (r < k)%nat -> (c < Z.to_nat N)%nat ->
       let row := nth s (if idcs_sorted then idcs else map np_sort idcs) [] in
       let x := nth r row 0%Z in
       get (nth s t (zeros 0 0)) r c =
       if (0 <=? x)%Z && (x <? N)%Z
       then (if (Z.of_nat c =? x)%Z then 1 else 0)
       else if (- N <=? x)%Z && (x <? 0)%Z
       then (if (Z.of_nat c =? x + N)%Z then 1 else 0)
       else 0) /\
  (N = 0%Z -> idcs <> [] -> (0 < k)%nat ->
   idcs_to_selection_matr N idcs idcs_sorted = Raise IndexError).
Proof.
  intros HN Hall.
  assert (Hk : Forall (fun row => length row = k) idcs)
    by (eapply Forall_impl; [|exact Hall]; simpl; tauto).
  split.
  - intros Hpos.
    assert (HN0 : (0 <= N)%Z) by lia.
    rewrite (@idcs_to_selection_matr_eq N idcs idcs_sorted k HN0 Hk
               (or_introl Hpos)).
    eexists. split; [reflexivity|].
    split; [rewrite length_map; destruct idcs_sorted;
            rewrite ?length_map; reflexivity|].
    intros s r c Hs Hr Hc row x.
    assert (Hs' : (s < length (if idcs_sorted then idcs
                               else map np_sort idcs))%nat)
      by (destruct idcs_sorted; rewrite ?length_map; exact Hs).
    rewrite nth_selection by exact Hs'. fold row.
    assert (Hlen : length row = k).
    { unfold row. destruct idcs_sorted.
      - rewrite Forall_forall in Hk. apply Hk, nth_In, Hs.
      - rewrite (nth_map_lt _ _ _ []) by exact Hs. rewrite np_sort_length.
        rewrite Forall_forall in Hk. apply Hk, nth_In, Hs. }
    unfold selection_matrix. rewrite get_mk by (auto; lia). fold x.
    unfold selects, normalize_index.
    destruct (Z.ltb_spec x 0); destruct (Z.leb_spec 0 x);
      destruct (Z.ltb_spec x N); destruct (Z.leb_spec (- N) x);
      destruct (Z.leb_spec 0 (x + Z.of_nat (Z.to_nat N)));
      destruct (Z.ltb_spec (x + Z.of_nat (Z.to_nat N))
                           (Z.of_nat (Z.to_nat N)));
      destruct (Z.ltb_spec x (Z.of_nat (Z.to_nat N)));
      destruct (Z.eqb_spec (Z.of_nat c) x);
      destruct (Z.eqb_spec (Z.of_nat c) (x + N));
      destruct (Nat.eqb_spec c (Z.to_nat x));
      destruct (Nat.eqb_spec c (Z.to_nat (x + Z.of_nat (Z.to_nat N))));
      simpl; try reflexivity; try lia.
  - intros -> Hne Hpos.
    apply (@idcs_to_selection_matr_empty_axis idcs idcs_sorted k Hk Hne Hpos).
Qed.

Lemma idcs_to_selection_matr_any_index_witness :
  (0 <= 3 < 2 ^ 31)%Z /\
  Forall (fun row => length row = 1%nat /\
            Forall (fun x => (- 2 ^ 31 <= x < 2 ^ 31)%Z) row)
         [[5]; [-1]]%Z /\
  exists t, idcs_to_selection_matr 3 [[5]; [-1]]%Z false = Ok t /\
            length t = 2%nat /\
            get (nth 0 t (zeros 0 0)) 0 2 = 0 /\
            get (nth 1 t (zeros 0 0)) 0 2 = 1.
Proof.
  assert (HN : (0 <= 3 < 2 ^ 31)%Z) by lia.
  assert (Hall : Forall (fun row => length row = 1%nat /\
                   Forall (fun x => (- 2 ^ 31 <= x < 2 ^ 31)%Z) row)
                 [[5]; [-1]]%Z)
    by (repeat constructor; lia).
  split; [exact HN|]. split; [exact Hall|].
  destruct (@idcs_to_selection_matr_any_index 3 [[5]; [-1]]%Z false 1
              HN Hall) as [Hok _].
  destruct Hok as [t [Ht [Hlen Hget]]]; [lia|].
  exists t. split; [exact Ht|]. split; [exact Hlen|]. split.
  - apply (Hget 0%nat 0%nat 2%nat); simpl; lia.
  - apply (Hget 1%nat 0%nat 2%nat); simpl; lia.
Defined.

(* ================================================================== *)
(** * Matrix inversion *)

Lemma Qc_eq_bool_false (x y : Qc) : Qc_eq_bool x y = false -> x <> y.
Proof.
  unfold Qc_eq_bool. destruct (Qc_eq_dec x y); [discriminate | auto].
Qed.

Lemma Qc_one_neq_zero : (1 : Qc) <> 0.
Proof. intros H. apply (f_equal this) in H. discriminate H. Qed.

Lemma find_pivot_some (M : matrix) (j p fuel q : nat) :
  find_pivot M j p fuel = Some q ->
  (p <= q < p + fuel)%nat /\ get M q j <> 0.
Proof.
  revert p. induction fuel as [|f IH]; intros p; simpl; [discriminate|].
  destruct (Qc_eq_bool (get M p j) 0) eqn:E.
  - intros H. apply IH in H. split; [lia | tauto].
  - intros H. injection H as <-. split; [lia|].
    apply Qc_eq_bool_false, E.
Qed.

Lemma find_pivot_none (M : matrix) (j p fuel : nat) :
  find_pivot M j p fuel = None ->
  forall q, (p <= q < p + fuel)%nat -> get M q j = 0.
Proof.
  revert p. induction fuel as [|f IH]; intros p; simpl; [intros; lia|].
  destruct (Qc_eq_bool (get M p j) 0) eqn:E; [|discriminate].
  intros H q Hq. destruct (Nat.eq_dec q p) as [->|Hne].
  - apply Qc_eq_bool_correct, E.
  - apply (IH (S p)); auto. lia.
Qed.

Section Elimination.
Variable A : matrix.
Variable n : nat.

Lemma gj_inv_swap (M : matrix) (a b : nat) :
  (a < n)%nat -> (b < n)%nat ->
  gj_inv A n M -> gj_inv A n (swap_rows M a b).
Proof.
  intros Ha Hb [Hr Hc Hlin Hker].
  set (sw := fun i => if Nat.eqb i a then b
                      else if Nat.eqb i b then a else i).
  assert (Hsw : forall i, (i < n)%nat -> (sw i < n)%nat).
  { intros i Hi. unfold sw.
    destruct (Nat.eqb i a); auto. destruct (Nat.eqb i b); auto. }
  assert (Hinv : forall i, sw (sw i) = i).
  { intros i. unfold sw.
    destruct (Nat.eqb_spec i a) as [->|H1].
    - destruct (Nat.eqb_spec b a) as [->|H2]; auto.
      rewrite Nat.eqb_refl. reflexivity.
    - destruct (Nat.eqb_spec i b) as [->|H2].
      + rewrite Nat.eqb_refl. reflexivity.
      + destruct (Nat.eqb_spec i a); [contradiction|].
        destruct (Nat.eqb_spec i b); [contradiction|]. reflexivity. }
  assert (Hget : forall i c, (i < n)%nat -> (c < n + n)%nat ->
            get (swap_rows M a b) i c = get M (sw i) c).
  { intros i c Hi Hcc. unfold swap_rows.
    rewrite get_mk by lia. reflexivity. }
  constructor; simpl; auto.
  - intros i c Hi Hcc. rewrite Hget by lia.
    rewrite Hlin by auto. apply sum_ext. intros k Hk.
    rewrite Hget by lia. reflexivity.
  - intros v Hv. apply Hker. intros i Hi.
    specialize (Hv (sw i) (Hsw i Hi)). rewrite <- Hv.
    unfold rdot. apply sum_ext. intros c Hcc.
    rewrite Hget by (auto; lia). rewrite Hinv. reflexivity.
Qed.

Lemma gj_inv_scale (M : matrix) (a : nat) (s : Qc) :
  s <> 0 -> gj_inv A n M -> gj_inv A n (scale_row M a s).
Proof.
  intros Hs [Hr Hc Hlin Hker].
  assert (Hget : forall i c, (i < n)%nat -> (c < n + n)%nat ->
            get (scale_row M a s) i c =
            if Nat.eqb i a then s * get M i c else get M i c).
  { intros i c Hi Hcc. unfold scale_row.
    rewrite get_mk by lia. reflexivity. }
  constructor; simpl; auto.
  - intros i c Hi Hcc. rewrite Hget by lia.
    rewrite (@sum_ext _ _
      (fun k => (if Nat.eqb i a then s else 1)
                * (get M i (n + k) * get A k c))).
    + rewrite sum_scale, <- Hlin by auto.
      destruct (Nat.eqb i a); ring.
    + intros k Hk. rewrite Hget by lia.
      destruct (Nat.eqb i a); ring.
  - intros v Hv. apply Hker. intros i Hi.
    specialize (Hv i Hi). unfold rdot in *.
    rewrite (@sum_ext _ _
      (fun c => (if Nat.eqb i a then s else 1) * (get M i c * v c))) in Hv.
    + rewrite sum_scale in Hv.
      destruct (Nat.eqb i a).
      * apply Qcmult_integral in Hv. destruct Hv; [contradiction|auto].
      * rewrite Qcmult_1_l in Hv. exact Hv.
    + intros c Hcc. rewrite Hget by (auto; lia).
      destruct (Nat.eqb i a); ring.
Qed.

Lemma gj_inv_clear (M : matrix) (a : nat) :
  (a < n)%nat -> gj_inv A n M -> gj_inv A n (clear_col M a).
Proof.
  intros Ha [Hr Hc Hlin Hker].
  assert (Hget : forall i c, (i < n)%nat -> (c < n + n)%nat ->
            get (clear_col M a) i c =
            if Nat.eqb i a then get M i c
            else get M i c - get M i a * get M a c).
  { intros i c Hi Hcc. unfold clear_col.
    rewrite get_mk by lia. reflexivity. }
  constructor; simpl; auto.
  - intros i c Hi Hcc. rewrite Hget by lia.
    destruct (Nat.eqb_spec i a) as [->|Hne].
    + rewrite Hlin by auto. apply sum_ext. intros k Hk.
      rewrite Hget by lia. rewrite Nat.eqb_refl. reflexivity.
    + rewrite (@sum_ext _ _
        (fun k => get M i (n + k) * get A k c
                  + (- get M i a) * (get M a (n + k) * get A k c))).
      * rewrite sum_plus, sum_scale, <- !Hlin by auto. ring.
      * intros k Hk. rewrite Hget by lia.
        destruct (Nat.eqb_spec i a); [contradiction|]. ring.
  - intros v Hv. apply Hker.
    assert (Hrow_a : rdot n M a v = 0).
    { rewrite <- (Hv a Ha). unfold rdot. apply sum_ext. intros c Hcc.
      rewrite Hget by (auto; lia). rewrite Nat.eqb_refl. reflexivity. }
    intros i Hi. destruct (Nat.eq_dec i a) as [->|Hne]; auto.
    specialize (Hv i Hi). unfold rdot in *.
    rewrite (@sum_ext _ _
      (fun c => get M i c * v c
                + (- get M i a) * (get M a c * v c))) in Hv.
    + rewrite sum_plus, sum_scale, Hrow_a in Hv.
      rewrite <- Hv. ring.
    + intros c Hcc. rewrite Hget by (auto; lia).
      destruct (Nat.eqb_spec i a); [contradiction|]. ring.
Qed.
End Elimination.

Lemma get_swap_rows (M : matrix) (a b i c : nat) :
  (i < nrows M)%nat -> (c < ncols M)%nat ->
  get (swap_rows M a b) i c =
  get M (if Nat.eqb i a then b else if Nat.eqb i b then a else i) c.
Proof. intros. unfold swap_rows. rewrite get_mk; auto. Qed.

Lemma get_scale_row (M : matrix) (a : nat) (s : Qc) (i c : nat) :
  (i < nrows M)%nat -> (c < ncols M)%nat ->
  get (scale_row M a s) i c =
  if Nat.eqb i a then s * get M i c else get M i c.
Proof. intros. unfold scale_row. rewrite get_mk; auto. Qed.

Lemma get_clear_col (M : matrix) (a i c : nat) :
  (i < nrows M)%nat -> (c < ncols M)%nat ->
  get (clear_col M a) i c =
  if Nat.eqb i a then get M i c else get M i c - get M i a * get M a c.
Proof. intros. unfold clear_col. rewrite get_mk; auto. Qed.

Section GaussJordan.
Variable A : matrix.
Variable n : nat.

(** Without a pivot in column [j], a non-zero vector is mapped to zero. *)
Lemma pivot_exists (M : matrix) (j : nat) :
  (j < n)%nat -> gj_inv A n M -> gj_done n j M ->
  find_pivot M j j (n - j) <> None.
Proof.
  intros Hj [Hr Hc Hlin Hker] Hdone Hnone.
  pose proof (@find_pivot_none M j j (n - j)%nat Hnone) as Hz.
  set (v := fun c => if c <? j then - get M c j
                     else if Nat.eqb c j then 1 else 0).
  assert (Hv : forall i, (i < n)%nat -> rdot n M i v = 0).
  { intros i Hi. unfold rdot.
    rewrite (@sum_ext _ _
      (fun c => (if (c <? j) && Nat.eqb c i then - get M i j else 0)
                + (if Nat.eqb c j then get M i j else 0))).
    - rewrite sum_plus.
      rewrite (sum_single (a := j)
                 (fun c => if Nat.eqb c j then get M i j else 0))
        by (try intros k Hk Hne;
            try (destruct (Nat.eqb_spec k j); [contradiction|reflexivity]);
            lia).
      rewrite Nat.eqb_refl.
      destruct (Nat.lt_ge_cases i j) as [Hlt|Hge].
      + rewrite (sum_single (a := i)).
        * rewrite Nat.eqb_refl.
          replace (i <? j) with true by (symmetry; apply Nat.ltb_lt; lia).
          simpl. ring.
        * lia.
        * intros k Hk Hne.
          destruct (Nat.eqb_spec k i); [contradiction|].
          rewrite andb_false_r. reflexivity.
      + rewrite sum_zero.
        * rewrite (Hz i) by lia. ring.
        * intros k Hk.
          destruct (Nat.ltb_spec k j); simpl; auto.
          destruct (Nat.eqb_spec k i); [lia|reflexivity].
    - intros c Hcc. unfold v.
      destruct (Nat.ltb_spec c j) as [Hlt|Hge]; simpl.
      + rewrite (Hdone i c) by auto.
        destruct (Nat.eqb_spec c j); [lia|].
        rewrite (Nat.eqb_sym c i).
        destruct (Nat.eqb_spec i c) as [->|Hne]; ring.
      + destruct (Nat.eqb_spec c j) as [->|Hne]; ring. }
  pose proof (Hker v Hv j Hj) as Hvj. unfold v in Hvj.
  rewrite Nat.ltb_irrefl, Nat.eqb_refl in Hvj.
  exact (Qc_one_neq_zero Hvj).
Qed.

Lemma eliminate_step (M : matrix) (j : nat) :
  (j < n)%nat -> gj_inv A n M -> gj_done n j M ->
  gj_inv A n (eliminate M j) /\ gj_done n (S j) (eliminate M j).
Proof.
  intros Hj Hinv Hdone.
  pose proof (pivot_exists Hj Hinv Hdone) as Hpiv.
  pose proof (gj_rows Hinv) as Hr. pose proof (gj_cols Hinv) as Hc.
  unfold eliminate. rewrite Hr.
  destruct (find_pivot M j j (n - j)) as [p|] eqn:Ep; [|contradiction].
  apply find_pivot_some in Ep. destruct Ep as [Hp Hne].
  assert (Hpn : (p < n)%nat) by lia.
  assert (Hjj : get (swap_rows M j p) j j = get M p j).
  { rewrite get_swap_rows by lia. rewrite Nat.eqb_refl. reflexivity. }
  rewrite Hjj.
  set (s := / get M p j).
  assert (Hs : s <> 0).
  { unfold s. intros H0. apply Hne.
    rewrite <- (Qcmult_1_l (get M p j)).
    rewrite <- (Qcmult_inv_l (get M p j)) by exact Hne.
    rewrite H0. ring. }
  assert (Hs1 : s * get M p j = 1)
    by (unfold s; apply Qcmult_inv_l; exact Hne).
  split.
  - apply gj_inv_clear; auto. apply gj_inv_scale; auto.
    apply gj_inv_swap; auto.
  - set (sw := fun i => if Nat.eqb i j then p
                        else if Nat.eqb i p then j else i).
    assert (Hpc : forall c, (c < j)%nat -> get M p c = 0).
    { intros c Hcj. rewrite (Hdone p c) by auto.
      destruct (Nat.eqb_spec p c); [lia|reflexivity]. }
    assert (Hrow_j : forall c, (c < n + n)%nat ->
              get (scale_row (swap_rows M j p) j s) j c = s * get M p c).
    { intros c Hcc.
      rewrite get_scale_row by (simpl; lia). rewrite Nat.eqb_refl.
      rewrite get_swap_rows by lia. rewrite Nat.eqb_refl. reflexivity. }
    assert (Hrow_i : forall i c, (i < n)%nat -> i <> j -> (c < n + n)%nat ->
              get (scale_row (swap_rows M j p) j s) i c = get M (sw i) c).
    { intros i c Hi Hij Hcc.
      rewrite get_scale_row by (simpl; lia).
      destruct (Nat.eqb_spec i j); [contradiction|].
      rewrite get_swap_rows by lia. unfold sw.
      destruct (Nat.eqb_spec i j); [contradiction|]. reflexivity. }
    intros i c Hi Hcs.
    rewrite get_clear_col by (simpl; lia).
    destruct (Nat.eqb_spec i j) as [->|Hij].
    + rewrite Hrow_j by lia.
      destruct (Nat.eqb_spec j c) as [<-|Hjc]; [exact Hs1|].
      rewrite Hpc by lia. ring.
    + rewrite !Hrow_i by (auto; lia). rewrite Hrow_j by lia.
      destruct (Nat.eqb_spec i c) as [<-|Hic].
      * assert (Hi_lt : (i < j)%nat) by lia.
        rewrite Hpc by lia.
        assert (Hsw : sw i = i).
        { unfold sw. destruct (Nat.eqb_spec i j); [lia|].
          destruct (Nat.eqb_spec i p); [lia|reflexivity]. }
        rewrite Hsw, (Hdone i i) by auto. rewrite Nat.eqb_refl. ring.
      * destruct (Nat.eq_dec c j) as [->|Hcj].
        -- rewrite Hs1. ring.
        -- rewrite Hpc by lia.
           assert (Hsw : (sw i < n)%nat).
           { unfold sw. destruct (Nat.eqb i j); auto.
             destruct (Nat.eqb i p); auto. }
           rewrite (Hdone (sw i) c) by (auto; lia).
           destruct (Nat.eqb_spec (sw i) c) as [E|E]; [|ring].
           exfalso. unfold sw in E.
           destruct (Nat.eqb_spec i j); [lia|].
           destruct (Nat.eqb_spec i p); lia.
Qed.

Lemma gauss_jordan_inv (fuel : nat) :
  forall (M : matrix) (j : nat),
    (j + fuel = n)%nat -> gj_inv A n M -> gj_done n j M ->
    gj_inv A n (gauss_jordan M j fuel) /\
    gj_done n n (gauss_jordan M j fuel).
Proof.
  induction fuel as [|f IH]; intros M j Hjf Hinv Hdone; simpl.
  - assert (j = n) by lia. subst j. split; assumption.
  - destruct (@eliminate_step M j) as [Hinv' Hdone']; auto; [lia|].
    apply IH; auto. lia.
Qed.

Lemma gj_inv_augment :
  nrows A = n -> ncols A = n -> nonsingular A -> gj_inv A n (augment A).
Proof.
  intros Hr Hc Hns.
  assert (Hget : forall i c, (i < n)%nat -> (c < n + n)%nat ->
            get (augment A) i c =
            if c <? n then get A i c
            else if Nat.eqb (c - n) i then 1 else 0).
  { intros i c Hi Hcc. unfold augment. rewrite Hr.
    rewrite get_mk by auto. reflexivity. }
  constructor; unfold augment; simpl; try (rewrite Hr; reflexivity).
  - intros i c Hi Hcc. fold (augment A). rewrite Hget by lia.
    replace (c <? n) with true by (symmetry; apply Nat.ltb_lt; lia).
    rewrite (sum_single (a := i)); auto.
    + rewrite Hget by lia.
      replace (n + i <? n) with false by (symmetry; apply Nat.ltb_ge; lia).
      replace (n + i - n)%nat with i by lia.
      rewrite Nat.eqb_refl. ring.
    + intros k Hk Hne. rewrite Hget by lia.
      replace (n + k <? n) with false by (symmetry; apply Nat.ltb_ge; lia).
      replace (n + k - n)%nat with k by lia.
      destruct (Nat.eqb_spec k i); [contradiction|ring].
  - intros v Hv. fold (augment A) in Hv.
    rewrite <- Hc. apply Hns. rewrite Hr, Hc. intros i Hi.
    rewrite <- (Hv i Hi). unfold rdot. apply sum_ext. intros c Hcc.
    rewrite Hget by lia.
    replace (c <? n) with true by (symmetry; apply Nat.ltb_lt; lia).
    reflexivity.
Qed.
End GaussJordan.

(** [np.linalg.inv] of a non-singular matrix is a left inverse. *)
Lemma linalg_inv_correct (A : matrix) (n : nat) :
  nrows A = n -> ncols A = n -> nonsingular A ->
  linalg_inv A @ A = eye n.
Proof.
  intros Hr Hc Hns.
  destruct (@gauss_jordan_inv A n n (augment A) 0) as [Hinv Hdone].
  - lia.
  - apply gj_inv_augment; auto.
  - intros i c _ Hc0. lia.
  - unfold matmul, eye, linalg_inv. simpl. rewrite Hr, Hc.
    apply mk_ext. intros i c Hi Hcc.
    rewrite <- (Hdone i c Hi Hcc), (gj_lin Hinv) by auto.
    apply sum_ext. intros k Hk. rewrite get_mk by auto. reflexivity.
Qed.



Lemma list_eqb_eq (l1 l2 : list Qc) :
  length l1 = length l2 ->
  forallb (fun xy => Qc_eq_bool (fst xy) (snd xy)) (combine l1 l2) = true ->
  l1 = l2.
Proof.
  revert l2. induction l1 as [|x t IH]; intros [|y u] Hlen H;
    simpl in *; try discriminate; auto.
  apply andb_prop in H. destruct H as [Hxy Ht].
  apply Qc_eq_bool_correct in Hxy. f_equal; auto.
Qed.

Lemma matrix_eqb_eq (A B : matrix) : matrix_eqb A B = true -> A = B.
Proof.
  destruct A as [n m ra], B as [n' m' rb]. unfold matrix_eqb. simpl.
  intros H.
  apply andb_prop in H. destruct H as [H Hall].
  apply andb_prop in H. destruct H as [H Hlen].
  apply andb_prop in H. destruct H as [Hn Hm].
  apply Nat.eqb_eq in Hn, Hm, Hlen. subst n' m'. f_equal.
  revert rb Hlen Hall. induction ra as [|r t IH]; intros [|r' t'] Hlen Hall;
    simpl in *; try discriminate; auto.
  apply andb_prop in Hall. destruct Hall as [Hr Ht].
  apply andb_prop in Hr. destruct Hr as [Hl Hr].
  apply Nat.eqb_eq in Hl. f_equal.
  - apply list_eqb_eq; auto.
  - apply IH; auto.
Qed.

(* ================================================================== *)
(** * Submatrix solver *)


(** The extracted submatrix is [gram] restricted to the indices of the
    split, on rows and on columns. *)
Lemma sym_matmul_entries (gram : matrix) (row : list Z) (r c : nat) :
  Forall (fun x => (0 <= x < Z.of_nat (nrows gram))%Z) row ->
  nrows gram = ncols gram ->
  (r < length row)%nat -> (c < length row)%nat ->
  let sel := selection_matrix (nrows gram) row in
  get (sel @ gram @ transpose sel) r c =
  get gram (Z.to_nat (nth r row 0%Z)) (Z.to_nat (nth c row 0%Z)).
Proof.
  intros Hrange Hsq Hr Hc sel.
  assert (Hin : forall i, (i < length row)%nat ->
            (0 <= nth i row 0 < Z.of_nat (nrows gram))%Z)
    by (intros i Hi; rewrite Forall_forall in Hrange;
        apply Hrange, nth_In, Hi).
  pose proof (Hin r Hr) as Hxr. pose proof (Hin c Hc) as Hxc.
  assert (Hsel : forall i j, (i < length row)%nat -> (j < nrows gram)%nat ->
            get sel i j = if (Z.of_nat j =? nth i row 0%Z)%Z then 1 else 0).
  { intros i j Hi Hj. unfold sel, selection_matrix.
    rewrite get_mk by auto. apply selects_in_range; auto. }
  assert (Hcs : ncols sel = nrows gram) by reflexivity.
  assert (Hrs : nrows sel = length row) by reflexivity.
  rewrite get_matmul by (simpl; auto).
  cbn [ncols matmul mk]. rewrite <- Hsq.
  rewrite (sum_single (a := Z.to_nat (nth c row 0%Z))); [| lia |].
  - rewrite get_transpose by (rewrite ?Hcs, ?Hrs; auto; lia).
    rewrite Hsel by (auto; lia).
    rewrite Z2Nat.id, Z.eqb_refl by lia.
    rewrite get_matmul by (rewrite ?Hcs, ?Hrs; auto; lia).
    rewrite Hcs.
    rewrite (sum_single (a := Z.to_nat (nth r row 0%Z))); [| lia |].
    + rewrite Hsel by (auto; lia).
      rewrite Z2Nat.id, Z.eqb_refl by lia. ring.
    + intros j Hj Hne. rewrite Hsel by auto.
      destruct (Z.eqb_spec (Z.of_nat j) (nth r row 0%Z)); [lia|ring].
  - intros j Hj Hne.
    rewrite get_transpose by (rewrite ?Hcs, ?Hrs; auto).
    rewrite Hsel by auto.
    destruct (Z.eqb_spec (Z.of_nat j) (nth c row 0%Z)); [lia|ring].
Qed.









(** The leading block of [gram_singular] is singular: it maps the vector
    (1, -1) to zero. *)
Lemma gram_singular_sub_singular :
  ~ nonsingular (Matrix 2 3 [[1; 0; 0]; [0; 1; 0]] @ gram_singular
                 @ transpose (Matrix 2 3 [[1; 0; 0]; [0; 1; 0]])).
Proof.
  intros Hns.
  specialize (Hns (fun c => if Nat.eqb c 0 then 1 else - (1))).
  assert (Hv : forall i, (i < 2)%nat ->
            sum 2 (fun c =>
              get (Matrix 2 3 [[1; 0; 0]; [0; 1; 0]] @ gram_singular
                   @ transpose (Matrix 2 3 [[1; 0; 0]; [0; 1; 0]])) i c
              * (if Nat.eqb c 0 then 1 else - (1))) = 0).
  { intros [|[|i]] Hi; try lia;
      apply Qc_is_canon; vm_compute; reflexivity. }
  specialize (Hns Hv 0%nat). simpl in Hns.
  assert (H : (1 : Qc) = 0) by (apply Hns; lia).
  apply (f_equal this) in H. vm_compute in H. discriminate H.
Qed.




(* ================================================================== *)
(** * Singular and indefinite submatrices *)

Lemma vmap2_ok (A B C : Type) (f : A -> B -> C) (xs : list A)
  (ys : list B) :
  length xs = length ys ->
  exists r, vmap2 f xs ys = Ok r /\ length r = length xs.
Proof.
  intros H. unfold vmap2. rewrite H, Nat.eqb_refl.
  eexists. split; [reflexivity|].
  rewrite length_map, length_combine, H. apply Nat.min_id.
Qed.

(** The solvers raise only if the selection tensor cannot be built. *)
Lemma submatr32_returns (kernel : matrix32 -> matrix32) (gram : matrix32)
  (train_idcs : list (list Z)) (zerofill : bool) (sels : list matrix) :
  idcs_to_selection_matr (Z.of_nat (nrows32 gram)) train_idcs false
    = Ok sels ->
  length sels = length train_idcs ->
  exists r,
    (let train_sel_matr := map to_float32 sels in
     let rval := map kernel (sym_matmul_fixed_inp32 train_sel_matr gram) in
     if zerofill
     then sym_matmul_variable_inp32 (map transpose32 train_sel_matr) rval
     else Ok rval) = Ok r /\
    length r = length train_idcs.
Proof.
  intros Hsels Hlen. cbv zeta. destruct zerofill.
  - unfold sym_matmul_variable_inp32, sym_matmul_fixed_inp32.
    destruct (@vmap2_ok _ _ _
                (fun sel inp => matmul32 (matmul32 sel inp) (transpose32 sel))
                (map transpose32 (map to_float32 sels))
                (map kernel
                   (map (fun sel =>
                           matmul32 (matmul32 sel gram) (transpose32 sel))
                        (map to_float32 sels))))
      as [r [Hr Hl]].
    + rewrite !length_map. reflexivity.
    + exists r. split; [exact Hr|].
      rewrite Hl, !length_map. exact Hlen.
  - eexists. split; [reflexivity|].
    unfold sym_matmul_fixed_inp32. rewrite !length_map. exact Hlen.
Qed.

(** C8, as stated, fails.  The split [0, 1] of [gram_singular] selects the
    singular block [[1, 1], [1, 1]], and [invert_submatr] returns: in
    float32 the inverse it returns for the split is not finite, with or
    without zero-fill nothing is raised, and in exact arithmetic nothing
    is raised either.  The 1 by 1 matrix [[-1.0]] is not positive
    definite, and [cholesky_submatr] returns [[NaN]] for it. *)
Lemma submatr_singular_returns :
  let sel := Matrix 2 3 [[1; 0; 0]; [0; 1; 0]] in
  idcs_to_selection_matr 3 [[0; 1]]%Z false = Ok [sel] /\
  ~ nonsingular (sel @ gram_singular @ transpose sel) /\
  ~ is_raise (invert_submatr gram_singular [[0; 1]]%Z false) /\
  (exists inv,
     invert_submatr32 (to_float32 gram_singular) [[0; 1]]%Z false = Ok [inv] /\
     is_finite32 (get32 inv 0 0) = false) /\
  ~ is_raise (invert_submatr32 (to_float32 gram_singular) [[0; 1]]%Z false) /\
  ~ is_raise (invert_submatr32 (to_float32 gram_singular) [[0; 1]]%Z true) /\
  get gram_neg 0 0 < 0 /\
  (exists L,
     cholesky_submatr32 (to_float32 gram_neg) [[0]]%Z false = Ok [L] /\
     is_nan32 (get32 L 0 0) = true) /\
  ~ is_raise (cholesky_submatr32 (to_float32 gram_neg) [[0]]%Z false) /\
  ~ is_raise (cholesky_submatr32 (to_float32 gram_neg) [[0]]%Z true).
Proof.
  intros sel.
  split; [reflexivity|].
  split; [exact gram_singular_sub_singular|].
  split; [intros [e He]; vm_compute in He; discriminate He|].
  split; [eexists; split; vm_compute; reflexivity|].
  split; [intros [e He]; vm_compute in He; discriminate He|].
  split; [intros [e He]; vm_compute in He; discriminate He|].
  split; [reflexivity|].
  split; [eexists; split; vm_compute; reflexivity|].
  split; intros [e He]; vm_compute in He; discriminate He.
Qed.

(** C8, amended.  Neither batched kernel raises.  [vinvert] and
    [vcholesky] return one matrix for every entry of the batch; for the
    singular matrix [[1, 1], [1, 1]] the inverse kernel returns an array
    that is not finite, and for [[-1]], which is not positive definite,
    the Cholesky kernel returns NaN.  Consequently, for every square
    [gram] with at least one row and every rectangular index array,
    [invert_submatr] and [cholesky_submatr] return: without zero-fill the
    kernel's result on each extracted submatrix, whatever that submatrix
    is, and with zero-fill one matrix per split. *)
Theorem submatr_solvers_return (gram : matrix32)
  (train_idcs : list (list Z)) (k : nat) :
  wf32 gram -> (0 < nrows32 gram)%nat -> nrows32 gram = ncols32 gram ->
  Forall (fun row => length row = k) train_idcs ->
  (forall batch,
     length (vinvert32 batch) = length batch /\
     length (vcholesky32 batch) = length batch) /\
  is_finite32
    (get32 (linalg_inv32 (Matrix32 2 2 [[one32; one32]; [one32; one32]]))
           0 0) = false /\
  is_nan32 (get32 (cholesky32 (to_float32 gram_neg)) 0 0) = true /\
  exists sels,
    idcs_to_selection_matr (Z.of_nat (nrows32 gram)) train_idcs false
      = Ok sels /\
    length sels = length train_idcs /\
    let subs := sym_matmul_fixed_inp32 (map to_float32 sels) gram in
    invert_submatr32 gram train_idcs false = Ok (map linalg_inv32 subs) /\
    cholesky_submatr32 gram train_idcs false = Ok (map cholesky32 subs) /\
    (exists full,
       invert_submatr32 gram train_idcs true = Ok full /\
       length full = length train_idcs) /\
    (exists full,
       cholesky_submatr32 gram train_idcs true = Ok full /\
       length full = length train_idcs).
Proof.
  intros _ HN Hsq Hk.
  split; [intros batch; unfold vinvert32, vcholesky32;
          rewrite !length_map; auto|].
  split; [vm_compute; reflexivity|].
  split; [vm_compute; reflexivity|].
  assert (Hsels : idcs_to_selection_matr (Z.of_nat (nrows32 gram))
                    train_idcs false =
                  Ok (map (selection_matrix
                             (Z.to_nat (Z.of_nat (nrows32 gram))))
                          (map np_sort train_idcs))).
  { apply (@idcs_to_selection_matr_eq _ train_idcs false k
             (Nat2Z.is_nonneg _) Hk).
    left. lia. }
  assert (Hlen : length (map (selection_matrix
                                (Z.to_nat (Z.of_nat (nrows32 gram))))
                             (map np_sort train_idcs))
                 = length train_idcs)
    by (rewrite !length_map; reflexivity).
  eexists. split; [exact Hsels|]. split; [exact Hlen|].
  cbv zeta. unfold invert_submatr32, cholesky_submatr32.
  rewrite Hsels. cbn [bind].
  split; [reflexivity|]. split; [reflexivity|]. split.
  - apply (@submatr32_returns linalg_inv32 gram train_idcs true _
             Hsels Hlen).
  - apply (@submatr32_returns cholesky32 gram train_idcs true _
             Hsels Hlen).
Qed.

Lemma submatr_solvers_return_witness :
  let gram := to_float32 gram_singular in
  wf32 gram /\ (0 < nrows32 gram)%nat /\ nrows32 gram = ncols32 gram /\
  (exists full,
     invert_submatr32 gram [[0; 1]]%Z true = Ok full /\
     length full = 1%nat) /\
  (exists full,
     cholesky_submatr32 gram [[0; 1]]%Z true = Ok full /\
     length full = 1%nat).
Proof.
  intros gram.
  assert (Hwf : wf32 gram) by (split; [reflexivity|repeat constructor]).
  assert (HN : (0 < nrows32 gram)%nat) by (simpl; lia).
  assert (Hsq : nrows32 gram = ncols32 gram) by reflexivity.
  split; [exact Hwf|]. split; [exact HN|]. split; [exact Hsq|].
  destruct (@submatr_solvers_return gram [[0; 1]]%Z 2 Hwf HN Hsq)
    as [_ [_ [_ [sels [_ [_ [_ [_ [Hinv Hchol]]]]]]]]].
  - repeat constructor.
  - split; [exact Hinv | exact Hchol].
Defined.

(* ================================================================== *)
(** * Conditional operators *)

Lemma broadcast_index (n i : nat) :
  (i < n)%nat -> (if Nat.eqb n 1 then 0%nat else i) = i.
Proof. intros Hi. destruct (Nat.eqb_spec n 1); lia. Qed.

Lemma broadcast_dim_same (n : nat) : broadcast_dim n n = Ok n.
Proof. unfold broadcast_dim. rewrite Nat.eqb_refl. reflexivity. Qed.

Lemma broadcast_dim_one (n : nat) : broadcast_dim 1 n = Ok n.
Proof.
  unfold broadcast_dim. destruct (Nat.eqb_spec 1 n) as [<-|_]; reflexivity.
Qed.

Lemma broadcast_dim_one_r (n : nat) : broadcast_dim n 1 = Ok n.
Proof.
  unfold broadcast_dim. destruct (Nat.eqb_spec n 1) as [->|_]; reflexivity.
Qed.

(** Arrays of one shape are combined entry by entry. *)
Lemma broadcast2_same (op : Qc -> Qc -> Qc) (A B : matrix) (n m : nat) :
  nrows A = n -> ncols A = m -> nrows B = n -> ncols B = m ->
  broadcast2 op A B = Ok (mk n m (fun i j => op (get A i j) (get B i j))).
Proof.
  intros HA1 HA2 HB1 HB2. unfold broadcast2.
  rewrite HA1, HA2, HB1, HB2, !broadcast_dim_same. simpl. f_equal.
  apply mk_ext. intros i j Hi Hj.
  rewrite !broadcast_index by assumption. reflexivity.
Qed.

(** An array of shape (1, 1) is combined with every entry. *)
Lemma broadcast2_scalar (op : Qc -> Qc -> Qc) (x : Qc) (B : matrix)
  (n m : nat) :
  nrows B = n -> ncols B = m ->
  broadcast2 op (Matrix 1 1 [[x]]) B =
  Ok (mk n m (fun i j => op x (get B i j))).
Proof.
  intros HB1 HB2. unfold broadcast2. simpl.
  rewrite HB1, HB2, !broadcast_dim_one. simpl. f_equal.
  apply mk_ext. intros i j Hi Hj.
  rewrite !broadcast_index by assumption. reflexivity.
Qed.

(** An array of shape (1, m) is combined with every row. *)
Lemma broadcast2_row (op : Qc -> Qc -> Qc) (v : list Qc) (B : matrix)
  (n : nat) :
  nrows B = n -> ncols B = length v ->
  broadcast2 op (Matrix 1 (length v) [v]) B =
  Ok (mk n (length v) (fun i j => op (nth j v 0) (get B i j))).
Proof.
  intros HB1 HB2. unfold broadcast2. simpl.
  rewrite HB1, HB2, broadcast_dim_one, broadcast_dim_same. simpl. f_equal.
  apply mk_ext. intros i j Hi Hj.
  rewrite !broadcast_index by assumption.
  unfold get at 1. simpl. reflexivity.
Qed.

Lemma snd_cbind (A B : Type) (m : comp A) (f : A -> comp B) :
  snd (cbind m f) = bind (snd m) (fun a => snd (f a)).
Proof.
  destruct m as [t [a|e]]; simpl; [|reflexivity].
  destruct (f a); reflexivity.
Qed.

Lemma fst_cbind (A B : Type) (m : comp A) (f : A -> comp B) :
  fst (cbind m f) =
  fst m ++ match snd m with Ok a => fst (f a) | Raise _ => [] end.
Proof.
  destruct m as [t [a|e]]; simpl; [|rewrite app_nil_r; reflexivity].
  destruct (f a); reflexivity.
Qed.

Lemma regul_shape_ok_vector (v : list Qc) :
  regul_shape_ok (Vector v) (length v) = Ok true.
Proof.
  unfold regul_shape_ok, squeeze_shape. simpl.
  destruct (Nat.eqb_spec (length v) 1) as [E|E]; simpl; [reflexivity|].
  rewrite Nat.mul_1_r.
  destruct (Nat.eqb_spec (length v) 1); [contradiction|]. simpl.
  rewrite Nat.eqb_refl. reflexivity.
Qed.

Lemma check_regul_vector (v : list Qc) (n : nat) :
  length v = n -> check_regul (Vector v) n = ret (Vector v).
Proof.
  intros <-. unfold check_regul. rewrite regul_shape_ok_vector. reflexivity.
Qed.

Section ConditionalOperatorFacts.
Context {R : Rkhs}.

(** The dense part of [RidgeCmo], once [regul] is an array. *)
Lemma RidgeCmo_tail (inp_feat outp_feat : obj) (regul : ndarray)
  (RI S : matrix) :
  broadcast2 Qcmult (atleast_2d regul) (eye (len inp_feat)) = Ok RI ->
  broadcast2 Qcplus (inner inp_feat) RI = Ok S ->
  (K <~ called CallInner (inner inp_feat) ;;
   RI <~ lift (broadcast2 Qcmult (atleast_2d regul) (eye (len inp_feat))) ;;
   S <~ lift (broadcast2 Qcplus K RI) ;;
   matr <~ called CallInv (linalg_inv S) ;;
   ret (FiniteOp inp_feat outp_feat matr)) =
  ([CallInner; CallInv], Ok (FiniteOp inp_feat outp_feat (linalg_inv S))).
Proof.
  intros H1 H2. unfold cbind, called, lift, ret.
  rewrite H1, H2. reflexivity.
Qed.

Lemma ridge_scalar (K : matrix) (n : nat) (x : Qc) :
  nrows K = n -> ncols K = n ->
  exists RI,
    broadcast2 Qcmult (atleast_2d (Scalar x)) (eye n) = Ok RI /\
    broadcast2 Qcplus K RI = Ok (ridge K (fun _ => x)).
Proof.
  intros Hr Hc. eexists. split.
  - apply (@broadcast2_scalar Qcmult x (eye n) n n); reflexivity.
  - rewrite (@broadcast2_same Qcplus K _ n n) by auto.
    f_equal. unfold ridge. rewrite Hr, Hc.
    apply mk_ext. intros i j Hi Hj.
    rewrite get_mk, get_eye by auto.
    destruct (Nat.eqb i j); f_equal; ring.
Qed.

Lemma ridge_vector (K : matrix) (n : nat) (v : list Qc) :
  nrows K = n -> ncols K = n -> length v = n ->
  exists RI,
    broadcast2 Qcmult (atleast_2d (Vector v)) (eye n) = Ok RI /\
    broadcast2 Qcplus K RI = Ok (ridge K (fun j => nth j v 0)).
Proof.
  intros Hr Hc Hv. rewrite <- Hv in *. clear Hv. eexists. split.
  - apply (@broadcast2_row Qcmult v (eye (length v)) (length v));
      reflexivity.
  - rewrite (@broadcast2_same Qcplus K _ (length v) (length v)) by auto.
    f_equal. unfold ridge. rewrite Hr, Hc.
    apply mk_ext. intros i j Hi Hj.
    rewrite get_mk, get_eye by auto.
    destruct (Nat.eqb i j); f_equal; ring.
Qed.

(** C6. Let [K = inp_feat.inner()] be the [n] by [n] Gram matrix,
    [n = len(inp_feat)].  Without [regul], [RidgeCmo] calls
    [Cov_regul(1, n)] and takes its value as regularisation; with a scalar
    or with a vector of length [n] it takes that.  In each case it returns
    [FiniteOp(inp_feat, outp_feat, matr)] where [matr] is
    [np.linalg.inv] of [K] plus the regularisation on the diagonal; and
    [matr] times that matrix is the identity whenever the matrix is
    non-singular. *)
Theorem RidgeCmo_spec (inp_feat outp_feat : obj) :
  let n := len inp_feat in
  let K := inner inp_feat in
  nrows K = n -> ncols K = n ->
  RidgeCmo inp_feat outp_feat None =
    ([CallCovRegul; CallInner; CallInv],
     Ok (FiniteOp inp_feat outp_feat
           (linalg_inv (ridge K (fun _ => Cov_regul 1 n))))) /\
  (forall x : Qc,
     RidgeCmo inp_feat outp_feat (Some (Scalar x)) =
       ([CallInner; CallInv],
        Ok (FiniteOp inp_feat outp_feat
              (linalg_inv (ridge K (fun _ => x)))))) /\
  (forall v : list Qc, length v = n ->
     RidgeCmo inp_feat outp_feat (Some (Vector v)) =
       ([CallInner; CallInv],
        Ok (FiniteOp inp_feat outp_feat
              (linalg_inv (ridge K (fun j => nth j v 0)))))) /\
  (forall rho : nat -> Qc, nonsingular (ridge K rho) ->
     linalg_inv (ridge K rho) @ ridge K rho = eye n).
Proof.
  intros n K Hr Hc. subst n K.
  split; [|split; [|split]].
  - destruct (@ridge_scalar (inner inp_feat) (len inp_feat)
                (Cov_regul 1 (len inp_feat)) Hr Hc)
      as [RI [H1 H2]].
    unfold RidgeCmo.
    change (r <~ called CallCovRegul (Cov_regul 1 (len inp_feat)) ;;
            ret (Scalar r))
      with ([CallCovRegul], Ok (Scalar (Cov_regul 1 (len inp_feat)))).
    unfold cbind at 1.
    rewrite (@RidgeCmo_tail inp_feat outp_feat _ _ _ H1 H2). reflexivity.
  - intros x. destruct (@ridge_scalar (inner inp_feat) (len inp_feat) x Hr Hc)
      as [RI [H1 H2]].
    unfold RidgeCmo.
    change (check_regul (Scalar x) (len inp_feat)) with (ret (Scalar x)).
    unfold ret at 1. unfold cbind at 1.
    rewrite (@RidgeCmo_tail inp_feat outp_feat _ _ _ H1 H2). reflexivity.
  - intros v Hv.
    destruct (@ridge_vector (inner inp_feat) (len inp_feat) v Hr Hc Hv)
      as [RI [H1 H2]].
    unfold RidgeCmo. rewrite (check_regul_vector v Hv).
    unfold ret at 1. unfold cbind at 1.
    rewrite (@RidgeCmo_tail inp_feat outp_feat _ _ _ H1 H2). reflexivity.
  - intros rho Hns. apply linalg_inv_correct; auto.
Qed.
End ConditionalOperatorFacts.


Lemma RidgeCmo_spec_witness :
  nrows (inner (SFeat gram3)) = len (SFeat gram3) /\
  ncols (inner (SFeat gram3)) = len (SFeat gram3) /\
  RidgeCmo (SFeat gram3) (SFeat (eye 3)) None =
    ([CallCovRegul; CallInner; CallInv],
     Ok (SFiniteOp (SFeat gram3) (SFeat (eye 3))
           (linalg_inv (ridge gram3 (fun _ => Q2Qc (1 # 4)))))).
Proof.
  split; [reflexivity|]. split; [reflexivity|].
  apply (@RidgeCmo_spec sym_rkhs (SFeat gram3) (SFeat (eye 3)));
    reflexivity.
Defined.

Lemma regul_shape_ok_false (regul : ndarray) (n : nat) :
  size_of (squeeze_shape regul) <> 1%nat ->
  shape0 (squeeze_shape regul) <> Ok n ->
  regul_shape_ok regul n = Ok false.
Proof.
  intros Hsize Hdim. unfold regul_shape_ok.
  destruct (Nat.eqb_spec (size_of (squeeze_shape regul)) 1) as [E|_];
    [contradiction|].
  destruct (squeeze_shape regul) as [|d rest]; simpl in *.
  - exfalso. apply Hsize. reflexivity.
  - destruct (Nat.eqb_spec d n) as [->|_]; [|reflexivity].
    exfalso. apply Hdim. reflexivity.
Qed.

Lemma regul_shape_ok_true (regul : ndarray) (n : nat) :
  squeeze_shape regul = [] \/ squeeze_shape regul = [n] ->
  regul_shape_ok regul n = Ok true.
Proof.
  unfold regul_shape_ok. intros [-> | ->]; simpl; [reflexivity|].
  destruct (Nat.eqb_spec (n * 1) 1); [reflexivity|].
  rewrite Nat.eqb_refl. reflexivity.
Qed.

Lemma check_regul_false (regul : ndarray) (n : nat) :
  regul_shape_ok regul n = Ok false ->
  check_regul regul n = ([], Raise AssertionError).
Proof. intros H. unfold check_regul. rewrite H. reflexivity. Qed.

Lemma check_regul_true (regul : ndarray) (n : nat) :
  regul_shape_ok regul n = Ok true ->
  check_regul regul n = ret regul.
Proof. intros H. unfold check_regul. rewrite H. reflexivity. Qed.

Lemma broadcast_dim_raise (a b : nat) (e : exn) :
  broadcast_dim a b = Raise e -> e = ShapeError.
Proof.
  unfold broadcast_dim.
  destruct (Nat.eqb a b); [discriminate|].
  destruct (Nat.eqb a 1); [discriminate|].
  destruct (Nat.eqb b 1); [discriminate|].
  intros H. injection H as <-. reflexivity.
Qed.

Lemma broadcast2_raise (op : Qc -> Qc -> Qc) (A B : matrix) (e : exn) :
  broadcast2 op A B = Raise e -> e = ShapeError.
Proof.
  unfold broadcast2.
  destruct (broadcast_dim (nrows A) (nrows B)) as [n|e1] eqn:E1; simpl.
  - destruct (broadcast_dim (ncols A) (ncols B)) as [m|e2] eqn:E2; simpl.
    + discriminate.
    + intros H. injection H as <-. exact (broadcast_dim_raise _ _ E2).
  - intros H. injection H as <-. exact (broadcast_dim_raise _ _ E1).
Qed.

(** C7, as stated, fails: a [regul] of shape (3, 2) for three input
    features is, squeezed, neither a scalar nor a vector of length 3, yet
    no assertion fires.  [Cmo] and [Cdo] go on to their covariance solves
    and return; [RidgeCmo] computes the Gram matrix and then stops on the
    shape mismatch of [regul * np.eye(3)]. *)
Lemma regul_leading_dimension_only :
  squeeze_shape regul32 = [3; 2]%nat /\
  len (SFeat gram3) = 3%nat /\
  Cmo (SFeat gram3) (SFeat gram3) (Some regul32) =
    ([CallCovOp; CallCovSolve; CallCrossCovOp],
     Ok (SCrossCovOp
           (SCov_solve (SCovOp (SFeat gram3)) (SFeat gram3) (Some regul32))
           (SFeat gram3))) /\
  RidgeCmo (SFeat gram3) (SFeat gram3) (Some regul32) =
    ([CallInner], Raise ShapeError) /\
  fst (Cdo (SFeat gram3) (SFeat gram3) (SFeat gram3) (Some regul32)) =
    [CallCovOp; CallCovSolve; CallCrossCovOp; CallCovOp; CallCovSolve] /\
  ~ is_raise (snd (Cdo (SFeat gram3) (SFeat gram3) (SFeat gram3)
                       (Some regul32))).
Proof.
  repeat split; try reflexivity.
  intros [e He]. discriminate He.
Qed.

Section RegulAssertion.
Context {R : Rkhs}.

(** C7, amended.  For each of [Cmo], [RidgeCmo] and [Cdo]: when a [regul]
    is supplied whose squeezed form does not have exactly one element and
    whose leading dimension differs from the number of input features, the
    constructor raises an assertion error before any call to a numerical
    collaborator; when the squeezed form is a scalar or a vector of
    matching length, no assertion error is raised. *)
Theorem regul_assertion (inp_feat outp_feat ref_feat : obj)
  (regul : ndarray) :
  let n := len inp_feat in
  (size_of (squeeze_shape regul) <> 1%nat ->
   shape0 (squeeze_shape regul) <> Ok n ->
   Cmo inp_feat outp_feat (Some regul) = ([], Raise AssertionError) /\
   RidgeCmo inp_feat outp_feat (Some regul) = ([], Raise AssertionError) /\
   Cdo inp_feat outp_feat ref_feat (Some regul)
     = ([], Raise AssertionError)) /\
  (squeeze_shape regul = [] \/ squeeze_shape regul = [n] ->
   (exists op, snd (Cmo inp_feat outp_feat (Some regul)) = Ok op) /\
   snd (RidgeCmo inp_feat outp_feat (Some regul)) <> Raise AssertionError /\
   (exists op, snd (Cdo inp_feat outp_feat ref_feat (Some regul)) = Ok op)).
Proof.
  intros n. split.
  - intros Hsize Hdim.
    pose proof (@check_regul_false regul n
                  (@regul_shape_ok_false regul n Hsize Hdim)) as Hchk.
    unfold Cmo, RidgeCmo, Cdo. fold n. rewrite Hchk.
    repeat split; reflexivity.
  - intros Hshape.
    pose proof (@check_regul_true regul n
                  (@regul_shape_ok_true regul n Hshape)) as Hchk.
    assert (HCmo : Cmo inp_feat outp_feat (Some regul) =
              ([CallCovOp; CallCovSolve; CallCrossCovOp],
               Ok (CrossCovOp
                     (Cov_solve (CovOp inp_feat) inp_feat (Some regul))
                     outp_feat))).
    { unfold Cmo. fold n. rewrite Hchk. reflexivity. }
    split; [|split].
    + rewrite HCmo. eexists. reflexivity.
    + unfold RidgeCmo. fold n. rewrite Hchk.
      rewrite snd_cbind. cbn [snd ret bind].
      rewrite snd_cbind. cbn [snd called bind].
      rewrite snd_cbind. cbn [snd lift].
      destruct (broadcast2 Qcmult _ _) as [RI|e] eqn:E1; cbn [bind].
      * rewrite snd_cbind. cbn [snd lift].
        destruct (broadcast2 Qcplus _ _) as [S|e] eqn:E2; cbn [bind].
        -- discriminate.
        -- apply broadcast2_raise in E2. subst e. discriminate.
      * apply broadcast2_raise in E1. subst e. discriminate.
    + unfold Cdo. fold n. rewrite Hchk.
      change (r' <~ ret regul ;; ret (Some r')) with (ret (Some regul)).
      unfold ret at 1. unfold cbind at 1.
      rewrite HCmo. eexists. reflexivity.
Qed.
End RegulAssertion.

Lemma regul_assertion_witness :
  size_of (squeeze_shape (Vector [1; 1])) <> 1%nat /\
  shape0 (squeeze_shape (Vector [1; 1])) <> Ok (len (SFeat gram3)) /\
  RidgeCmo (SFeat gram3) (SFeat gram3) (Some (Vector [1; 1]))
    = ([], Raise AssertionError) /\
  squeeze_shape (Scalar 1) = [] /\
  snd (RidgeCmo (SFeat gram3) (SFeat gram3) (Some (Scalar 1)))
    <> Raise AssertionError.
Proof.
  assert (H1 : size_of (squeeze_shape (Vector [1; 1])) <> 1%nat)
    by (simpl; lia).
  assert (H2 : shape0 (squeeze_shape (Vector [1; 1]))
               <> Ok (len (SFeat gram3)))
    by (simpl; intros H; discriminate H).
  split; [exact H1|]. split; [exact H2|].
  split; [|split; [reflexivity|]].
  - apply (@regul_assertion sym_rkhs (SFeat gram3) (SFeat gram3)
             (SFeat gram3) (Vector [1; 1])); assumption.
  - apply (@regul_assertion sym_rkhs (SFeat gram3) (SFeat gram3)
             (SFeat gram3) (Scalar 1)).
    left. reflexivity.
Defined.

(* ================================================================== *)
(** * Inducing sets *)

Lemma Qc_ltb_lt (a b : Qc) : Qc_ltb a b = true <-> a < b.
Proof.
  unfold Qc_ltb, Qclt, Qccompare. rewrite Qlt_alt.
  destruct (a ?= b)%Q; split; intros H; congruence.
Qed.

Lemma Qc_ltb_nlt (a b : Qc) : Qc_ltb a b = false <-> ~ a < b.
Proof.
  rewrite <- Qc_ltb_lt. destruct (Qc_ltb a b); split; intros H; congruence.
Qed.

Lemma count_occ_all_false (l : list Qc) :
  (forall x, In x l -> ~ 0 < x) ->
  count_occ bool_dec (map (fun x => Qc_ltb 0 x) l) true = 0%nat.
Proof.
  induction l as [|x t IH]; intros H; simpl; auto.
  assert (Hx : Qc_ltb 0 x = false) by (apply Qc_ltb_nlt, H; simpl; auto).
  rewrite Hx. destruct (bool_dec false true); [discriminate|].
  apply IH. intros y Hy. apply H. simpl. auto.
Qed.

Section InducingSetFacts.
Variable minimize :
  (list Qc -> result Qc) -> list Qc -> list (option Qc * option Qc) ->
  bool * list Qc.

(** C10. [inducing_set] raises before the kernel is evaluated when the
    penalty is not strictly positive, when [points] has fewer than two
    entries and when [points] is not two-dimensional.  Past these checks it
    evaluates the kernel and calls the optimiser; if the optimiser reports
    failure it raises an assertion error, and if no entry of [lamb] is
    strictly positive it raises as well (an assertion error when the
    optimiser's vector has length [N + N * N]).  In none of these cases is
    a result returned. *)
Theorem inducing_set_contract (points : points_t) (k : points_t -> matrix)
  (non_sparse_penalty : Qc) :
  let run := inducing_set minimize points k non_sparse_penalty in
  (~ 0 < non_sparse_penalty -> run = ([], Raise AssertionError)) /\
  (forall d rest, pshape points = d :: rest -> (d <= 1)%nat ->
     run = ([], Raise AssertionError)) /\
  (length (pshape points) <> 2%nat -> fst run = [] /\ is_raise (snd run)) /\
  (forall N d,
     0 < non_sparse_penalty -> pshape points = [N; d] -> (1 < N)%nat ->
     let rval :=
       minimize (flat_cost N (eye N) (k points) non_sparse_penalty)
                (repeat 1 N ++ flatten (eye N))
                (repeat (Some 0, Some 1) N ++ repeat (None, None) (N * N)) in
     (fst rval = false ->
        run = ([CallKernel; CallMinimize], Raise AssertionError)) /\
     (fst rval = true ->
      (forall l, In l (firstn N (snd rval)) -> ~ 0 < l) ->
      fst run = [CallKernel; CallMinimize] /\ is_raise (snd run) /\
      (length (snd rval) = (N + N * N)%nat ->
       snd run = Raise AssertionError))).
Proof.
  intros run. unfold run, inducing_set.
  split; [|split; [|split]].
  - intros Hpen. apply Qc_ltb_nlt in Hpen. rewrite Hpen. reflexivity.
  - intros d rest Hshape Hd. rewrite Hshape.
    destruct (Qc_ltb 0 non_sparse_penalty); [|reflexivity].
    cbn [py_len lift assert cbind ret app].
    replace (1 <? d) with false by (symmetry; apply Nat.ltb_ge; exact Hd).
    reflexivity.
  - intros Hdim.
    destruct (Qc_ltb 0 non_sparse_penalty);
      [|split; [reflexivity | eexists; reflexivity]].
    destruct (pshape points) as [|d rest];
      [split; [reflexivity | eexists; reflexivity]|].
    cbn [py_len lift assert cbind ret app].
    destruct (1 <? d); [|split; [reflexivity | eexists; reflexivity]].
    cbn [py_len lift assert cbind ret app].
    destruct (Nat.eqb_spec (length (d :: rest)) 2) as [E|_];
      [contradiction|].
    split; [reflexivity | eexists; reflexivity].
  - intros N d Hpen Hshape HN.
    apply Qc_ltb_lt in Hpen. rewrite Hpen, Hshape.
    cbn [py_len lift assert cbind ret app length Nat.eqb called].
    replace (1 <? N) with true by (symmetry; apply Nat.ltb_lt; exact HN).
    cbn [py_len lift assert cbind ret app length Nat.eqb called].
    destruct (minimize _ _ _) as [success x]. cbn [fst snd].
    split.
    + intros ->. reflexivity.
    + intros -> Hlamb.
      cbn [py_len lift assert cbind ret app length Nat.eqb called].
      unfold extract_params, reshape.
      destruct (Nat.eqb_spec (length (skipn N x)) (N * N)) as [Hlen|Hlen].
      * cbn [bind lift assert cbind ret app fst snd].
        rewrite (count_occ_all_false _ Hlamb).
        split; [reflexivity|]. split; [eexists; reflexivity|].
        intros _. reflexivity.
      * split; [reflexivity|]. split; [eexists; reflexivity|].
        intros Hx. exfalso. apply Hlen.
        rewrite length_skipn. lia.
Qed.
End InducingSetFacts.

Lemma inducing_set_contract_witness :
  ~ 0 < (0 : Qc) /\
  inducing_set minimize_fails two_points eye_kernel 0
    = ([], Raise AssertionError) /\
  (0 : Qc) < 1 /\ pshape two_points = [2; 2]%nat /\
  inducing_set minimize_fails two_points eye_kernel 1
    = ([CallKernel; CallMinimize], Raise AssertionError) /\
  snd (inducing_set minimize_zero two_points eye_kernel 1)
    = Raise AssertionError.
Proof.
  assert (H0 : ~ 0 < (0 : Qc)) by (apply Qc_ltb_nlt; reflexivity).
  assert (H1 : (0 : Qc) < 1) by (apply Qc_ltb_lt; reflexivity).
  split; [exact H0|]. split; [|split; [exact H1|split; [reflexivity|split]]].
  - apply (inducing_set_contract minimize_fails two_points eye_kernel 0).
    exact H0.
  - destruct (inducing_set_contract minimize_fails two_points eye_kernel 1)
      as [_ [_ [_ H]]].
    destruct (H 2%nat 2%nat H1 eq_refl (Nat.lt_succ_diag_r 1)) as [Hfail _].
    apply Hfail. reflexivity.
  - destruct (inducing_set_contract minimize_zero two_points eye_kernel 1)
      as [_ [_ [_ H]]].
    destruct (H 2%nat 2%nat H1 eq_refl (Nat.lt_succ_diag_r 1)) as [_ Hzero].
    apply Hzero; try reflexivity.
    intros l Hl. simpl in Hl.
    destruct Hl as [<-|[<-|[]]]; exact H0.
Defined.

(** With an optimiser that succeeds at its starting point, every point is
    selected and [inducing_set] returns. *)
Example inducing_set_returns :
  fst (inducing_set minimize_init two_points eye_kernel 1)
    = [CallKernel; CallMinimize; CallPrint] /\
  exists appr dist cost_fn,
    snd (inducing_set minimize_init two_points eye_kernel 1)
      = Ok (appr, [true; true], dist, cost_fn).
Proof.
  split; [reflexivity|].
  do 3 eexists. reflexivity.
Qed.

(* ================================================================== *)
(** * Further properties of the index generators *)

(** X1. For every [n], also [n <= 1], [loo_train_val n] returns
    [max n 0] splits, and in split [i] the validation index followed by
    the training indices is a rearrangement of [[0, n)] without
    repetition: each split is a partition of the indices, and the
    validation index [i] is not a training index. *)
Theorem loo_train_val_partition (n : Z) :
  let train := fst (loo_train_val n) in
  let val := snd (loo_train_val n) in
  length train = Z.to_nat n /\
  length val = Z.to_nat n /\
  forall i : nat, (i < Z.to_nat n)%nat ->
    Permutation (nth i val [] ++ nth i train []) (arange n) /\
    NoDup (nth i val [] ++ nth i train []) /\
    ~ In (Z.of_nat i) (nth i train []).
Proof.
  intros train val. unfold train, val, loo_train_val. simpl.
  rewrite !length_map, length_arange.
  split; [reflexivity|]. split; [reflexivity|].
  intros i Hi.
  rewrite (nth_map_lt _ _ _ 0%Z) by (rewrite length_arange; exact Hi).
  rewrite (nth_map_lt _ _ _ 0%Z) by (rewrite length_arange; exact Hi).
  rewrite nth_arange by exact Hi.
  rewrite np_delete_arange by exact Hi.
  assert (Hperm : Permutation
            ([Z.of_nat i]
             ++ map Z.of_nat (seq 0 i ++ seq (S i) (Z.to_nat n - S i)))
            (arange n)).
  { unfold arange.
    replace (Z.to_nat n) with (i + S (Z.to_nat n - S i))%nat at 2 by lia.
    rewrite seq_app. simpl seq. rewrite !map_app. simpl.
    apply Permutation_middle. }
  split; [exact Hperm|]. split.
  - apply (Permutation_NoDup (Permutation_sym Hperm)), NoDup_arange.
  - intros Hin. apply in_map_iff in Hin. destruct Hin as [k [Hk Hin]].
    apply Nat2Z.inj in Hk. subst k.
    apply in_app_iff in Hin. rewrite !in_seq in Hin. lia.
Qed.

Lemma firstn_skipn_slice (A : Type) (l : list A) (b : Z) :
  slice_to l b ++ slice_from l b = l.
Proof. unfold slice_to, slice_from. apply firstn_skipn. Qed.

Section CvTrainValBounds.
Variable PRNGKey : Type.
Variable random_split : PRNGKey -> Z -> list PRNGKey.
Variable random_permutation : PRNGKey -> Z -> list Z.

Hypothesis random_split_length :
  forall rng s, length (random_split rng s) = Z.to_nat s.
Hypothesis random_permutation_perm :
  forall key n, Permutation (random_permutation key n) (arange n).

(** X2. [cv_train_val] does not check [0 < n_train < n].  For every
    [n_train] each split is still a partition of [[0, n)]: the train row
    followed by the val row is a rearrangement of the indices.  A
    non-negative [n_train] gives [min n_train n] training indices; a
    negative one counts from the end and gives [max 0 (n + n_train)]. *)
Theorem cv_train_val_any_n_train (n n_train S : Z) (rng : PRNGKey)
  (s : nat) :
  (s < Z.to_nat S)%nat ->
  let tv := cv_train_val random_split random_permutation
              n n_train S rng in
  let tr := nth s (fst tv) [] in
  let va := nth s (snd tv) [] in
  Permutation (tr ++ va) (arange n) /\
  length tr =
    Z.to_nat (Z.min n (if (n_train <? 0)%Z
                       then Z.max 0 (n + n_train) else n_train)) /\
  (length tr + length va)%nat = Z.to_nat n.
Proof.
  intros Hs tv tr va. unfold tr, va, tv, cv_train_val. simpl.
  set (keys := random_split rng S).
  assert (Hk : (s < length keys)%nat)
    by (unfold keys; rewrite random_split_length; exact Hs).
  set (p := map (fun key => random_permutation key n) keys).
  assert (Hp : (s < length p)%nat) by (unfold p; rewrite length_map; exact Hk).
  rewrite (nth_map_lt _ _ _ []) by exact Hp.
  rewrite (nth_map_lt _ _ _ []) by exact Hp.
  set (row := nth s p []).
  assert (Hrow : Permutation row (arange n)).
  { assert (Hin : In row p) by (apply nth_In; exact Hp).
    apply in_map_iff in Hin. destruct Hin as [key [<- _]].
    apply random_permutation_perm. }
  assert (Hlen : length row = Z.to_nat n)
    by (rewrite (Permutation_length Hrow); apply length_arange).
  rewrite firstn_skipn_slice.
  split; [exact Hrow|].
  unfold slice_to, slice_from, slice_bound.
  rewrite length_firstn, length_skipn, Hlen.
  destruct (Z.ltb_spec n_train 0); lia.
Qed.
End CvTrainValBounds.

Lemma cv_train_val_any_n_train_witness :
  (0 < Z.to_nat 2)%nat /\
  cv_train_val rot_split rot_permutation 5 (-2) 2 7%nat =
    ([[2; 3; 4]; [3; 4; 0]]%Z, [[0; 1]; [1; 2]]%Z) /\
  Permutation
    (nth 0 (fst (cv_train_val rot_split rot_permutation 5 (-2) 2 7%nat)) []
     ++ nth 0 (snd (cv_train_val rot_split rot_permutation 5 (-2) 2 7%nat)) [])
    (arange 5).
Proof.
  assert (H : (0 < Z.to_nat 2)%nat) by (simpl; lia).
  split; [exact H|]. split; [reflexivity|].
  apply (@cv_train_val_any_n_train nat rot_split rot_permutation
           rot_split_length rot_permutation_perm 5 (-2) 2 7%nat 0 H).
Defined.

Lemma loo_train_val_partition_witness :
  loo_train_val 1 = ([[]], [[0%Z]]) /\
  loo_train_val (-3) = ([], []) /\
  Permutation (nth 1 (snd (loo_train_val 3)) []
               ++ nth 1 (fst (loo_train_val 3)) []) (arange 3).
Proof.
  split; [reflexivity|]. split; [reflexivity|].
  apply (loo_train_val_partition 3). simpl. lia.
Defined.

(* ================================================================== *)
(** * Further properties of the selection matrices *)

(** Two ascending lists with the same elements are equal. *)
Lemma sorted_perm_eq (l1 l2 : list Z) :
  StronglySorted Z.le l1 -> StronglySorted Z.le l2 ->
  Permutation l1 l2 -> l1 = l2.
Proof.
  revert l2. induction l1 as [|x t IH]; intros l2 H1 H2 Hp.
  - apply Permutation_nil in Hp. auto.
  - destruct l2 as [|y u].
    + apply Permutation_sym, Permutation_nil in Hp. discriminate.
    + apply StronglySorted_inv in H1. destruct H1 as [Ht Hx].
      apply StronglySorted_inv in H2. destruct H2 as [Hu Hy].
      rewrite Forall_forall in Hx, Hy.
      assert (Hxy : x = y).
      { assert (Hin1 : In x (y :: u))
          by (apply (Permutation_in _ Hp); simpl; auto).
        assert (Hin2 : In y (x :: t))
          by (apply (Permutation_in _ (Permutation_sym Hp)); simpl; auto).
        destruct Hin1 as [E|Hin1]; [auto|].
        destruct Hin2 as [E|Hin2]; [auto|].
        specialize (Hx y Hin2). specialize (Hy x Hin1). lia. }
      subst y. f_equal. apply IH; auto.
      apply Permutation_cons_inv in Hp. exact Hp.
Qed.

Lemma np_sort_of_perm (l1 l2 : list Z) :
  Permutation l1 l2 -> np_sort l1 = np_sort l2.
Proof.
  intros Hp. apply sorted_perm_eq; auto using np_sort_sorted.
  rewrite !np_sort_perm. exact Hp.
Qed.

Lemma np_sort_of_sorted (l : list Z) :
  StronglySorted Z.le l -> np_sort l = l.
Proof.
  intros Hs. apply sorted_perm_eq; auto using np_sort_sorted, np_sort_perm.
Qed.

Lemma map_np_sort_perm (idcs idcs' : list (list Z)) :
  Forall2 (@Permutation Z) idcs idcs' ->
  map np_sort idcs = map np_sort idcs'.
Proof.
  induction 1 as [|r r' t t' Hr Ht IH]; simpl; auto.
  rewrite IH, (np_sort_of_perm Hr). reflexivity.
Qed.

(** X3. Without [idcs_sorted], the order of the indices inside a split is
    immaterial: rearranging each row of the index array changes neither
    the selection tensor nor what [invert_submatr] returns, with or
    without zero-fill. *)
Theorem index_order_immaterial (gram : matrix) (N : Z)
  (idcs idcs' : list (list Z)) (zerofill : bool) :
  Forall2 (@Permutation Z) idcs idcs' ->
  idcs_to_selection_matr N idcs false =
    idcs_to_selection_matr N idcs' false /\
  invert_submatr gram idcs zerofill = invert_submatr gram idcs' zerofill.
Proof.
  intros Hp.
  assert (H : forall n, idcs_to_selection_matr n idcs false =
                        idcs_to_selection_matr n idcs' false).
  { intros n. unfold idcs_to_selection_matr. simpl.
    rewrite (map_np_sort_perm Hp). reflexivity. }
  split; [apply H|].
  unfold invert_submatr. rewrite H. reflexivity.
Qed.

Lemma index_order_immaterial_witness :
  Forall2 (@Permutation Z) [[2; 0]; [1; 2]]%Z [[0; 2]; [2; 1]]%Z /\
  invert_submatr gram3 [[2; 0]; [1; 2]]%Z true =
    invert_submatr gram3 [[0; 2]; [2; 1]]%Z true.
Proof.
  assert (H : Forall2 (@Permutation Z) [[2; 0]; [1; 2]]%Z [[0; 2]; [2; 1]]%Z)
    by (repeat constructor).
  split; [exact H|].
  apply (@index_order_immaterial gram3 3 _ _ true H).
Defined.

(** X4. For rows that are already ascending, [idcs_sorted = True] only
    skips the sort: the selection tensor is the one computed with
    [idcs_sorted = False]. *)
Theorem idcs_sorted_flag (N : Z) (idcs : list (list Z)) :
  Forall (StronglySorted Z.le) idcs ->
  idcs_to_selection_matr N idcs true =
  idcs_to_selection_matr N idcs false.
Proof.
  intros Hs. unfold idcs_to_selection_matr. simpl.
  replace (map np_sort idcs) with idcs; [reflexivity|].
  induction Hs as [|r t Hr Ht IH]; simpl; auto.
  rewrite <- IH, (np_sort_of_sorted Hr). reflexivity.
Qed.

Lemma idcs_sorted_flag_witness :
  Forall (StronglySorted Z.le) [[0; 2]; [1; 2]]%Z /\
  idcs_to_selection_matr 3 [[0; 2]; [1; 2]]%Z true =
  idcs_to_selection_matr 3 [[0; 2]; [1; 2]]%Z false.
Proof.
  assert (H : Forall (StronglySorted Z.le) [[0; 2]; [1; 2]]%Z)
    by (repeat constructor; lia).
  split; [exact H|]. apply (idcs_sorted_flag 3 H).
Defined.

(* ================================================================== *)
(** * Matrix algebra *)


Lemma matmul_eye_l (A : matrix) (n : nat) :
  wf A -> nrows A = n -> eye n @ A = A.
Proof.
  intros HA Hn. apply matrix_ext; auto with mx.
  cbn [nrows ncols matmul eye mk]. intros i j Hi Hj.
  rewrite get_matmul by auto. cbn [ncols eye mk].
  rewrite (sum_single (a := i)); auto.
  - rewrite get_eye, Nat.eqb_refl by auto. ring.
  - intros k Hk Hne. rewrite get_eye by auto.
    destruct (Nat.eqb_spec i k); [congruence|ring].
Qed.

Lemma matmul_eye_r (A : matrix) (n : nat) :
  wf A -> ncols A = n -> A @ eye n = A.
Proof.
  intros HA Hn. apply matrix_ext; auto with mx.
  cbn [nrows ncols matmul eye mk]. intros i j Hi Hj.
  rewrite get_matmul by auto. rewrite Hn.
  rewrite (sum_single (a := j)); auto.
  - rewrite get_eye, Nat.eqb_refl by auto. ring.
  - intros k Hk Hne. rewrite get_eye by auto.
    destruct (Nat.eqb_spec k j); [congruence|ring].
Qed.

Lemma transpose_matmul (A B : matrix) :
  ncols A = nrows B ->
  transpose (A @ B) = transpose B @ transpose A.
Proof.
  intros HAB. unfold transpose at 1. unfold matmul at 2.
  cbn [nrows ncols matmul transpose mk].
  apply mk_ext. intros i j Hi Hj.
  cbn [nrows ncols transpose mk] in Hi, Hj.
  rewrite get_matmul by auto. rewrite HAB.
  apply sum_ext. intros k Hk. cbn [nrows ncols transpose mk] in Hk.
  rewrite !get_transpose by (auto; lia). ring.
Qed.

Lemma transpose_eye (n : nat) : transpose (eye n) = eye n.
Proof.
  apply matrix_ext; auto with mx.
  cbn [nrows ncols transpose eye mk]. intros i j Hi Hj.
  rewrite get_transpose by auto.
  rewrite !get_eye by auto. rewrite Nat.eqb_sym. reflexivity.
Qed.

(** The selection tensor, as a list of selection matrices. *)
Lemma selection_tensor (N : Z) (idcs : list (list Z)) (idcs_sorted : bool)
  (k : nat) (sels : list matrix) (s : nat) :
  (0 <= N)%Z ->
  Forall (fun row => length row = k) idcs ->
  (s < length idcs)%nat ->
  idcs_to_selection_matr N idcs idcs_sorted = Ok sels ->
  exists row,
    Permutation row (nth s idcs []) /\
    (idcs_sorted = true -> row = nth s idcs []) /\
    length row = k /\
    length sels = length idcs /\
    nth s sels (zeros 0 0) = selection_matrix (Z.to_nat N) row.
Proof.
  intros HN Hk Hs Hsels.
  apply (@idcs_to_selection_matr_ok N idcs idcs_sorted k sels HN Hk)
    in Hsels.
  subst sels.
  assert (Hlen0 : length (nth s idcs []) = k)
    by (rewrite Forall_forall in Hk; apply Hk, nth_In, Hs).
  destruct idcs_sorted.
  - exists (nth s idcs []).
    split; [reflexivity|]. split; [reflexivity|]. split; [exact Hlen0|].
    split; [apply length_map|]. apply nth_selection. exact Hs.
  - exists (np_sort (nth s idcs [])).
    split; [apply np_sort_perm|]. split; [discriminate|].
    split; [rewrite np_sort_length; exact Hlen0|].
    split; [rewrite !length_map; reflexivity|].
    rewrite nth_selection by (rewrite length_map; exact Hs).
    rewrite (nth_map_lt _ _ _ []) by exact Hs. reflexivity.
Qed.

(** The rows of a selection matrix for distinct indices are orthonormal. *)
Lemma selection_orthonormal (N : nat) (row : list Z) :
  Forall (fun c => (0 <= c < Z.of_nat N)%Z) row ->
  NoDup row ->
  selection_matrix N row @ transpose (selection_matrix N row)
  = eye (length row).
Proof.
  intros Hrange Hnd. unfold matmul, eye.
  cbn [nrows ncols selection_matrix transpose mk].
  apply mk_ext. intros r c Hr Hc.
  assert (Hin : forall i, (i < length row)%nat ->
            (0 <= nth i row 0 < Z.of_nat N)%Z)
    by (intros i Hi; rewrite Forall_forall in Hrange;
        apply Hrange, nth_In, Hi).
  pose proof (Hin r Hr) as Hxr. pose proof (Hin c Hc) as Hxc.
  rewrite (sum_single (a := Z.to_nat (nth r row 0%Z))); [| lia |].
  - rewrite get_transpose by (simpl; auto; lia).
    unfold selection_matrix. rewrite !get_mk by (auto; lia).
    rewrite !selects_in_range by (auto; lia).
    rewrite Z2Nat.id, Z.eqb_refl by lia.
    destruct (Nat.eqb_spec r c) as [->|Hne].
    + rewrite Z.eqb_refl. ring.
    + destruct (Z.eqb_spec (nth r row 0%Z) (nth c row 0%Z)) as [E|E];
        [|ring].
      exfalso. apply Hne.
      apply (proj1 (NoDup_nth row 0%Z) Hnd r c Hr Hc E).
  - intros j Hj Hne. unfold selection_matrix.
    rewrite get_mk by auto. rewrite selects_in_range by (auto; lia).
    destruct (Z.eqb_spec (Z.of_nat j) (nth r row 0%Z)); [lia|ring].
Qed.

(** Entry [[r, c]] of [sel @ sel.T] tells whether rows [r] and [c] select
    the same index. *)
Lemma selection_gram_entry (N : nat) (row : list Z) (r c : nat) :
  Forall (fun x => (0 <= x < Z.of_nat N)%Z) row ->
  (r < length row)%nat -> (c < length row)%nat ->
  get (selection_matrix N row @ transpose (selection_matrix N row)) r c =
  if (nth r row 0 =? nth c row 0)%Z then 1 else 0.
Proof.
  intros Hrange Hr Hc.
  assert (Hin : forall i, (i < length row)%nat ->
            (0 <= nth i row 0 < Z.of_nat N)%Z)
    by (intros i Hi; rewrite Forall_forall in Hrange;
        apply Hrange, nth_In, Hi).
  pose proof (Hin r Hr) as Hxr. pose proof (Hin c Hc) as Hxc.
  rewrite get_matmul by (simpl; auto).
  cbn [ncols selection_matrix mk].
  rewrite (sum_single (a := Z.to_nat (nth r row 0%Z))); [| lia |].
  - rewrite get_transpose by (simpl; auto; lia).
    unfold selection_matrix. rewrite !get_mk by (auto; lia).
    rewrite !selects_in_range by (auto; lia).
    rewrite Z2Nat.id, Z.eqb_refl by lia. ring.
  - intros j Hj Hne. unfold selection_matrix.
    rewrite get_mk by auto. rewrite selects_in_range by (auto; lia).
    destruct (Z.eqb_spec (Z.of_nat j) (nth r row 0%Z)); [lia|ring].
Qed.

(** X5. For indices in [[0, N)], the selection matrix [sel] of a split
    satisfies [sel @ sel.T = I] exactly when the split lists no index
    twice. *)
Theorem selection_rows_orthonormal (N : Z) (idcs : list (list Z))
  (idcs_sorted : bool) (k s : nat) (sels : list matrix) :
  (0 <= N)%Z ->
  Forall (fun row => length row = k /\
                     Forall (fun c => (0 <= c < N)%Z) row) idcs ->
  (s < length idcs)%nat ->
  idcs_to_selection_matr N idcs idcs_sorted = Ok sels ->
  (nth s sels (zeros 0 0) @ transpose (nth s sels (zeros 0 0)) = eye k
   <-> NoDup (nth s idcs [])).
Proof.
  intros HN Hall Hs Hsels.
  assert (Hk : Forall (fun row => length row = k) idcs)
    by (eapply Forall_impl; [|exact Hall]; simpl; tauto).
  destruct (@selection_tensor N idcs idcs_sorted k sels s HN Hk Hs Hsels)
    as [row [Hperm [_ [Hlen [_ Hsel]]]]].
  rewrite Hsel.
  assert (Hrange : Forall (fun c => (0 <= c < Z.of_nat (Z.to_nat N))%Z) row).
  { assert (Horig : Forall (fun c => (0 <= c < N)%Z) (nth s idcs []))
      by (rewrite Forall_forall in Hall; apply Hall, nth_In, Hs).
    rewrite Forall_forall in *. intros c Hc.
    rewrite Z2Nat.id by lia. apply Horig, (Permutation_in _ Hperm), Hc. }
  split.
  - intros Heye.
    apply (Permutation_NoDup Hperm).
    apply (proj2 (NoDup_nth row 0%Z)). intros i j Hi Hj Hij.
    pose proof (@selection_gram_entry (Z.to_nat N) row i j Hrange Hi Hj)
      as He.
    rewrite Heye, get_eye, Hij, Z.eqb_refl in He by lia.
    destruct (Nat.eqb_spec i j) as [E|E]; [exact E|].
    exfalso. apply Qc_one_neq_zero. symmetry. exact He.
  - intros Hnd. rewrite <- Hlen.
    apply selection_orthonormal; auto.
    apply (Permutation_NoDup (Permutation_sym Hperm)), Hnd.
Qed.

Lemma selection_rows_orthonormal_witness :
  NoDup [2; 0]%Z /\
  exists sels,
    idcs_to_selection_matr 3 [[2; 0]; [1; 2]]%Z false = Ok sels /\
    nth 0 sels (zeros 0 0) @ transpose (nth 0 sels (zeros 0 0)) = eye 2.
Proof.
  assert (Hnd : NoDup [2; 0]%Z).
  { repeat constructor; simpl; intros H; try lia; tauto. }
  split; [exact Hnd|].
  eexists. split; [reflexivity|].
  apply (@selection_rows_orthonormal 3 [[2; 0]; [1; 2]]%Z false 2 0).
  - lia.
  - repeat constructor; lia.
  - simpl. lia.
  - reflexivity.
  - exact Hnd.
Defined.

(** X6. [sym_matmul_fixed_inp] applied to the selection tensor of
    [train_idcs] extracts principal submatrices: for indices in [[0, N)]
    the matrix of a split is [k] by [k] and its entry [[r, c]] is
    [gram[row[r], row[c]]], with [row] the ascending indices of the
    split. *)
Theorem extracted_submatrix_entries (gram : matrix)
  (train_idcs : list (list Z)) (k s : nat) (sels : list matrix) :
  nrows gram = ncols gram ->
  Forall (fun row => length row = k /\
            Forall (fun c => (0 <= c < Z.of_nat (nrows gram))%Z) row)
         train_idcs ->
  (s < length train_idcs)%nat ->
  idcs_to_selection_matr (Z.of_nat (nrows gram)) train_idcs false = Ok sels ->
  exists row,
    Permutation row (nth s train_idcs []) /\ StronglySorted Z.le row /\
    let sub := nth s (sym_matmul_fixed_inp sels gram) (zeros 0 0) in
    nrows sub = k /\ ncols sub = k /\
    forall r c, (r < k)%nat -> (c < k)%nat ->
      get sub r c =
      get gram (Z.to_nat (nth r row 0%Z)) (Z.to_nat (nth c row 0%Z)).
Proof.
  intros Hsq Hall Hs Hsels.
  assert (Hk : Forall (fun row => length row = k) train_idcs)
    by (eapply Forall_impl; [|exact Hall]; simpl; tauto).
  apply (@idcs_to_selection_matr_ok _ train_idcs false k sels
           (Nat2Z.is_nonneg _) Hk) in Hsels.
  subst sels. rewrite Nat2Z.id.
  assert (Hs' : (s < length (map np_sort train_idcs))%nat)
    by (rewrite length_map; exact Hs).
  exists (np_sort (nth s train_idcs [])).
  split; [apply np_sort_perm|]. split; [apply np_sort_sorted|].
  unfold sym_matmul_fixed_inp.
  rewrite (nth_map_lt _ _ _ (zeros 0 0)) by (rewrite length_map; exact Hs').
  rewrite nth_selection by exact Hs'.
  rewrite (nth_map_lt _ _ _ []) by exact Hs.
  set (row := np_sort (nth s train_idcs [])).
  assert (Horig : length (nth s train_idcs []) = k /\
                  Forall (fun c => (0 <= c < Z.of_nat (nrows gram))%Z)
                         (nth s train_idcs []))
    by (rewrite Forall_forall in Hall; apply Hall, nth_In, Hs).
  assert (Hlen : length row = k)
    by (unfold row; rewrite np_sort_length; tauto).
  assert (Hrange : Forall (fun c => (0 <= c < Z.of_nat (nrows gram))%Z) row).
  { destruct Horig as [_ Hr]. rewrite Forall_forall in *. intros c Hc.
    apply Hr, (Permutation_in _ (np_sort_perm _)), Hc. }
  cbn zeta. split; [exact Hlen|]. split; [exact Hlen|].
  intros r c Hr Hc. apply sym_matmul_entries; auto; lia.
Qed.

Lemma extracted_submatrix_entries_witness :
  nrows gram3 = ncols gram3 /\
  exists sels row,
    idcs_to_selection_matr 3 [[2; 0]; [1; 2]]%Z false = Ok sels /\
    Permutation row [2; 0]%Z /\
    get (nth 0 (sym_matmul_fixed_inp sels gram3) (zeros 0 0)) 0 1 =
    get gram3 (Z.to_nat (nth 0 row 0%Z)) (Z.to_nat (nth 1 row 0%Z)).
Proof.
  split; [reflexivity|].
  eexists.
  destruct (@extracted_submatrix_entries gram3 [[2; 0]; [1; 2]]%Z 2 0
              [Matrix 2 3 [[1; 0; 0]; [0; 0; 1]];
               Matrix 2 3 [[0; 1; 0]; [0; 0; 1]]])
    as [row [Hperm [_ [_ [_ Hent]]]]].
  - reflexivity.
  - repeat constructor; simpl; lia.
  - simpl. lia.
  - reflexivity.
  - exists row. split; [reflexivity|]. split; [exact Hperm|].
    apply Hent; lia.
Defined.

(** X7. [select_rows] applied to the selection tensor of [idcs] and an
    [N]-row matrix [M] returns, for every split, the rows of [M] at the
    split's indices in ascending order: the whole batch is
    [[M[c] for c in sorted(row)] for row in idcs]. *)
Theorem select_rows_selects (N : Z) (idcs : list (list Z)) (k : nat)
  (M : matrix) (sels : list matrix) :
  (0 <= N)%Z ->
  Forall (fun row => length row = k /\
                     Forall (fun c => (0 <= c < N)%Z) row) idcs ->
  wf M -> nrows M = Z.to_nat N ->
  idcs_to_selection_matr N idcs false = Ok sels ->
  map rows (select_rows sels M) =
  map (fun row => map (fun c => nth (Z.to_nat c) (rows M) []) (np_sort row))
      idcs.
Proof.
  intros HN Hall HM HMn Hsels.
  assert (Hk : Forall (fun row => length row = k) idcs)
    by (eapply Forall_impl; [|exact Hall]; simpl; tauto).
  apply (@idcs_to_selection_matr_ok N idcs false k sels HN Hk) in Hsels.
  subst sels.
  unfold select_rows. rewrite !map_map.
  apply map_ext_in. intros row0 Hrow0.
  set (row := np_sort row0).
  assert (Hrange : Forall (fun c => (0 <= c < Z.of_nat (Z.to_nat N))%Z) row).
  { rewrite Forall_forall in Hall. destruct (Hall row0 Hrow0) as [_ Hr].
    rewrite Forall_forall in *. intros c Hc. rewrite Z2Nat.id by lia.
    apply Hr, (Permutation_in _ (np_sort_perm _)), Hc. }
  apply (list_ext []).
  - cbn [rows matmul mk nrows selection_matrix].
    rewrite !length_map, length_seq. reflexivity.
  - intros r Hr.
    cbn [rows matmul mk nrows selection_matrix] in Hr.
    rewrite length_map, length_seq in Hr.
    rewrite selection_matmul_row by auto.
    rewrite (nth_map_lt _ _ _ 0%Z) by exact Hr. reflexivity.
Qed.

Lemma select_rows_selects_witness :
  wf gram3 /\
  exists sels,
    idcs_to_selection_matr 3 [[2; 0]]%Z false = Ok sels /\
    map rows (select_rows sels gram3) =
    [[nth 0 (rows gram3) []; nth 2 (rows gram3) []]].
Proof.
  split; [apply wf_mk|].
  eexists. split; [reflexivity|].
  apply (@select_rows_selects 3 [[2; 0]]%Z 2 gram3).
  - lia.
  - repeat constructor; lia.
  - apply wf_mk.
  - reflexivity.
  - reflexivity.
Defined.

(* ================================================================== *)
(** * Zero-fill *)






(* ================================================================== *)
(** * Zero-fill in float32 *)

Lemma get32_mk32 (n m : nat) (f : nat -> nat -> float32) (i j : nat) :
  (i < n)%nat -> (j < m)%nat -> get32 (mk32 n m f) i j = f i j.
Proof.
  intros Hi Hj. unfold get32, mk32. simpl.
  rewrite nth_map_seq by exact Hi.
  rewrite nth_map_seq by exact Hj.
  reflexivity.
Qed.

Lemma get32_to_float32 (A : matrix) (i j : nat) :
  get32 (to_float32 A) i j = of_Qc32 (get A i j).
Proof.
  unfold get32, to_float32, get. cbn [rows32].
  change (@nil float32) with (map of_Qc32 []).
  rewrite map_nth.
  change zero32 with (of_Qc32 0).
  apply map_nth.
Qed.

(** The float32 selection matrix holds 1.0 where the exact one holds 1 and
    0.0 elsewhere. *)
Lemma selection32_entry (N : nat) (row : list Z) (r c : nat) :
  Forall (fun x => (0 <= x < Z.of_nat N)%Z) row ->
  (r < length row)%nat -> (c < N)%nat ->
  get32 (to_float32 (selection_matrix N row)) r c =
  if (Z.of_nat c =? nth r row 0%Z)%Z then one32 else zero32.
Proof.
  intros Hrange Hr Hc. rewrite get32_to_float32.
  unfold selection_matrix. rewrite get_mk by auto.
  rewrite selects_in_range; auto.
  - destruct (Z.of_nat c =? nth r row 0)%Z; vm_compute; reflexivity.
  - rewrite Forall_forall in Hrange. apply Hrange, nth_In, Hr.
Qed.

Lemma is_zero32_finite (x : float32) :
  is_zero32 x = true -> is_finite32 x = true.
Proof. destruct x; simpl; congruence. Qed.

Lemma add32_zeros (x y : float32) :
  is_zero32 x = true -> is_zero32 y = true -> is_zero32 (add32 x y) = true.
Proof.
  destruct x as [[|]| | |], y as [[|]| | |]; simpl; try discriminate;
    reflexivity.
Qed.

Lemma add32_zero_l (x y : float32) :
  is_zero32 x = true -> is_finite32 y = true -> is_zero32 y = false ->
  add32 x y = y.
Proof.
  destruct x as [sx| | |], y as [sy| | |]; simpl; try discriminate;
    reflexivity.
Qed.

Lemma add32_zero_r (x y : float32) :
  is_finite32 x = true -> is_zero32 x = false -> is_zero32 y = true ->
  add32 x y = x.
Proof.
  destruct x as [sx| | |], y as [sy| | |]; simpl; try discriminate;
    reflexivity.
Qed.

Lemma mul32_zero_l (x y : float32) :
  is_zero32 x = true -> is_finite32 y = true -> is_zero32 (mul32 x y) = true.
Proof.
  destruct x as [sx| | |], y as [sy| | |]; simpl; try discriminate;
    reflexivity.
Qed.

Lemma mul32_zero_r (x y : float32) :
  is_finite32 x = true -> is_zero32 y = true -> is_zero32 (mul32 x y) = true.
Proof.
  destruct x as [sx| | |], y as [sy| | |]; simpl; try discriminate;
    reflexivity.
Qed.

(** Multiplying a float32 number by 1.0 is exact. *)
Lemma mul32_one_l (x : float32) :
  is_finite32 x = true -> valid32 x = true -> mul32 one32 x = x.
Proof.
  destruct x as [s | s | | s m e]; try discriminate; intros _ Hv.
  - reflexivity.
  - unfold valid32, valid_binary, bounded in Hv.
    apply andb_prop in Hv. destruct Hv as [Hc Hb].
    unfold canonical_mantissa in Hc. apply Z.eqb_eq in Hc.
    unfold mul32, one32, of_Z32.
    change (binary_normalize prec32 emax32 1 0 false)
      with (S754_finite false 8388608 (-23)).
    unfold SFmul. cbn [xorb].
    change (Pos.mul 8388608 m)
      with (m~0~0~0~0~0~0~0~0~0~0~0~0~0~0~0~0~0~0~0~0~0~0~0)%positive.
    unfold binary_round_aux, shr_fexp.
    cbn [Zdigits2 digits2_pos].
    replace (Z.pos (Pos.succ (Pos.succ (Pos.succ (Pos.succ (Pos.succ
               (Pos.succ (Pos.succ (Pos.succ (Pos.succ (Pos.succ (Pos.succ
               (Pos.succ (Pos.succ (Pos.succ (Pos.succ (Pos.succ (Pos.succ
               (Pos.succ (Pos.succ (Pos.succ (Pos.succ (Pos.succ (Pos.succ
               (digits2_pos m)))))))))))))))))))))))) + (-23 + e))%Z
      with (Z.pos (digits2_pos m) + e)%Z by lia.
    replace (fexp prec32 emax32 (Z.pos (digits2_pos m) + e)) with e
      by (symmetry; exact Hc).
    replace (e - (-23 + e))%Z with 23%Z by lia.
    cbn [shr shr_record_of_loc iter_pos shr_1].
    replace (-23 + e + 23)%Z with e by lia.
    cbn [shr_m loc_of_shr_record shr_r shr_s round_nearest_even Zdigits2
         orb].
    replace (fexp prec32 emax32 (Z.pos (digits2_pos m) + e)) with e
      by (symmetry; exact Hc).
    rewrite Z.sub_diag. cbn [shr shr_m].
    rewrite Hb. reflexivity.
Qed.

Lemma sum32_zeros (n : nat) (f : nat -> float32) :
  (forall r, (r < n)%nat -> is_zero32 (f r) = true) ->
  is_zero32 (sum32 n f) = true.
Proof.
  induction n as [|n IH]; intros Hf; simpl; [reflexivity|].
  apply add32_zeros; auto.
Qed.

(** A sum with at most one term that is not zero is that term. *)
Lemma sum32_one_term (n : nat) (f : nat -> float32) (a : nat) :
  (forall r, (r < n)%nat -> r <> a -> is_zero32 (f r) = true) ->
  is_finite32 (f a) = true ->
  is_finite32 (sum32 n f) = true.
Proof.
  intros Hf Ha.
  assert (H : (sum32 n f = f a /\ (a < n)%nat /\ is_zero32 (f a) = false) \/
              is_zero32 (sum32 n f) = true).
  { induction n as [|n IH]; [right; reflexivity|].
    cbn [sum32].
    destruct IH as [[Hs [Hlt Hnz]]|Hz]; [intros r Hr; apply Hf; lia| |].
    - left. rewrite Hs.
      rewrite add32_zero_r; auto. apply Hf; lia.
    - destruct (Nat.eq_dec n a) as [->|Hne].
      + destruct (is_zero32 (f a)) eqn:Hza.
        * right. apply add32_zeros; auto.
        * left. split; [apply add32_zero_l; auto|]. split; [lia|reflexivity].
      + right. apply add32_zeros; auto. }
  destruct H as [[-> _]|Hz]; [exact Ha|].
  apply is_zero32_finite, Hz.
Qed.

Lemma invert_submatr32_false (gram : matrix32) (train_idcs : list (list Z))
  (sels : list matrix) :
  idcs_to_selection_matr (Z.of_nat (nrows32 gram)) train_idcs false
    = Ok sels ->
  invert_submatr32 gram train_idcs false =
  Ok (map (fun sel =>
             linalg_inv32 (matmul32 (matmul32 sel gram) (transpose32 sel)))
          (map to_float32 sels)).
Proof.
  intros Hsels. unfold invert_submatr32. rewrite Hsels. cbn [bind].
  unfold vinvert32, sym_matmul_fixed_inp32. rewrite map_map. reflexivity.
Qed.

Lemma invert_submatr32_true (gram : matrix32) (train_idcs : list (list Z))
  (sels : list matrix) :
  idcs_to_selection_matr (Z.of_nat (nrows32 gram)) train_idcs false
    = Ok sels ->
  invert_submatr32 gram train_idcs true =
  Ok (map (fun sel =>
             matmul32
               (matmul32 (transpose32 sel)
                  (linalg_inv32
                     (matmul32 (matmul32 sel gram) (transpose32 sel))))
               (transpose32 (transpose32 sel)))
          (map to_float32 sels)).
Proof.
  intros Hsels. unfold invert_submatr32. rewrite Hsels. cbn [bind].
  unfold sym_matmul_variable_inp32, vmap2, vinvert32,
    sym_matmul_fixed_inp32.
  rewrite !length_map, Nat.eqb_refl. f_equal.
  rewrite map_map. clear Hsels.
  induction sels as [|sel t IH]; simpl; auto.
  f_equal. exact IH.
Qed.

(** X22. Zero-fill in float32.  For a square [gram] of size [N] and a
    split of distinct indices in [[0, N)], if every entry of the inverse
    that [invert_submatr gram train_idcs false] returns for the split is
    a finite float32 number, then the [N] by [N] matrix that
    [invert_submatr gram train_idcs true] returns for the split is zero
    at every position whose row index or column index is not an index of
    the split. *)
Theorem zerofill32_zero (gram : matrix32) (train_idcs : list (list Z))
  (k s : nat) :
  wf32 gram -> nrows32 gram = ncols32 gram ->
  Forall (fun row => length row = k /\
            Forall (fun c => (0 <= c < Z.of_nat (nrows32 gram))%Z) row)
         train_idcs ->
  (s < length train_idcs)%nat ->
  NoDup (nth s train_idcs []) ->
  exists invs full,
    invert_submatr32 gram train_idcs false = Ok invs /\
    invert_submatr32 gram train_idcs true = Ok full /\
    length invs = length train_idcs /\
    length full = length train_idcs /\
    let inv := nth s invs (zeros32 0 0) in
    let Zf := nth s full (zeros32 0 0) in
    nrows32 inv = k /\ ncols32 inv = k /\
    nrows32 Zf = nrows32 gram /\ ncols32 Zf = nrows32 gram /\
    ((forall r c, (r < k)%nat -> (c < k)%nat ->
        is_finite32 (get32 inv r c) = true /\
        valid32 (get32 inv r c) = true) ->
     forall i j, (i < nrows32 gram)%nat -> (j < nrows32 gram)%nat ->
       ~ In (Z.of_nat i) (nth s train_idcs []) \/
       ~ In (Z.of_nat j) (nth s train_idcs []) ->
       is_zero32 (get32 Zf i j) = true).
Proof.
  intros _ _ Hall Hs Hnd.
  assert (Hk : Forall (fun row => length row = k) train_idcs)
    by (eapply Forall_impl; [|exact Hall]; simpl; tauto).
  assert (Hax : (0 < Z.of_nat (nrows32 gram))%Z \/
                Forall (fun row => row = []) train_idcs)
    by (apply in_range_axis; eapply Forall_impl; [|exact Hall];
        simpl; tauto).
  pose proof (@idcs_to_selection_matr_eq _ train_idcs false k
                (Nat2Z.is_nonneg _) Hk Hax) as Hsels.
  rewrite Nat2Z.id in Hsels.
  set (N := nrows32 gram) in *.
  eexists. eexists.
  split; [apply (invert_submatr32_false _ _ Hsels)|].
  split; [apply (invert_submatr32_true _ _ Hsels)|].
  split; [rewrite !length_map; reflexivity|].
  split; [rewrite !length_map; reflexivity|].
  assert (Hs' : (s < length (map np_sort train_idcs))%nat)
    by (rewrite length_map; exact Hs).
  rewrite !(@nth_map_lt _ _ _ _ _ (zeros32 0 0) (to_float32 (zeros 0 0)))
    by (rewrite !length_map; exact Hs).
  rewrite !(@nth_map_lt _ _ _ _ _ (to_float32 (zeros 0 0)) (zeros 0 0))
    by (rewrite !length_map; exact Hs).
  rewrite nth_selection by exact Hs'.
  set (row := nth s (map np_sort train_idcs) []).
  assert (Hperm : Permutation row (nth s train_idcs [])).
  { unfold row. rewrite (nth_map_lt _ _ _ []) by exact Hs.
    apply np_sort_perm. }
  assert (Horig : length (nth s train_idcs []) = k /\
                  Forall (fun c => (0 <= c < Z.of_nat N)%Z)
                         (nth s train_idcs []))
    by (rewrite Forall_forall in Hall; apply Hall, nth_In, Hs).
  assert (Hlen : length row = k)
    by (rewrite (Permutation_length Hperm); tauto).
  assert (Hrange : Forall (fun c => (0 <= c < Z.of_nat N)%Z) row).
  { destruct Horig as [_ Hr]. rewrite Forall_forall in *. intros c Hc.
    apply Hr, (Permutation_in _ Hperm), Hc. }
  assert (Hnd' : NoDup row)
    by (apply (Permutation_NoDup (Permutation_sym Hperm)), Hnd).
  set (fS := to_float32 (selection_matrix N row)).
  set (X := linalg_inv32 (matmul32 (matmul32 fS gram) (transpose32 fS))).
  cbv zeta.
  split; [exact Hlen|]. split; [exact Hlen|].
  split; [reflexivity|]. split; [reflexivity|].
  intros HX i j Hi Hj Hnot.
  assert (HfS : forall r c, (r < k)%nat -> (c < N)%nat ->
            get32 fS r c =
            if (Z.of_nat c =? nth r row 0%Z)%Z then one32 else zero32).
  { intros r c Hr Hc. apply selection32_entry; auto. lia. }
  assert (HfSfin : forall r c, (r < k)%nat -> (c < N)%nat ->
            is_finite32 (get32 fS r c) = true).
  { intros r c Hr Hc. rewrite HfS by auto.
    destruct (Z.of_nat c =? nth r row 0)%Z; reflexivity. }
  assert (HfSzero : forall r c, (r < k)%nat -> (c < N)%nat ->
            ~ In (Z.of_nat c) row -> is_zero32 (get32 fS r c) = true).
  { intros r c Hr Hc Hnotin. rewrite HfS by auto.
    destruct (Z.eqb_spec (Z.of_nat c) (nth r row 0%Z)) as [E|E];
      [|reflexivity].
    exfalso. apply Hnotin. rewrite E. apply nth_In. lia. }
  assert (HfSr : nrows32 fS = k) by exact Hlen.
  assert (HfSc : ncols32 fS = N) by reflexivity.
  assert (HXr : nrows32 X = k) by exact Hlen.
  assert (HXc : ncols32 X = k) by exact Hlen.
  assert (Htr : forall a b, (a < N)%nat -> (b < k)%nat ->
            get32 (transpose32 fS) a b = get32 fS b a).
  { intros a b Ha Hb. unfold transpose32.
    rewrite get32_mk32; [reflexivity | rewrite HfSc | rewrite HfSr];
      assumption. }
  set (T := matmul32 (transpose32 fS) X).
  assert (HTc : ncols32 T = k) by exact Hlen.
  assert (HT : forall i c, (i < N)%nat -> (c < k)%nat ->
            get32 T i c =
            sum32 k (fun r => mul32 (get32 fS r i) (get32 X r c))).
  { intros i0 c Hi0 Hc. unfold T, matmul32.
    rewrite get32_mk32
      by (cbn [nrows32 ncols32 transpose32 mk32]; rewrite ?HfSc, ?HXc;
          assumption).
    cbn [ncols32 transpose32 mk32]. rewrite HfSr.
    assert (Hext : forall n, (n <= k)%nat ->
              sum32 n (fun r => mul32 (get32 (transpose32 fS) i0 r)
                                      (get32 X r c)) =
              sum32 n (fun r => mul32 (get32 fS r i0) (get32 X r c))).
    { induction n as [|n IHn]; intros Hn; [reflexivity|].
      cbn [sum32]. rewrite IHn by lia. rewrite Htr by lia. reflexivity. }
    apply Hext. lia. }
  assert (HTfin : forall i c, (i < N)%nat -> (c < k)%nat ->
            is_finite32 (get32 T i c) = true).
  { intros i0 c Hi0 Hc. rewrite HT by auto.
    destruct (in_dec Z.eq_dec (Z.of_nat i0) row) as [Hin|Hnin].
    - destruct (In_nth _ _ 0%Z Hin) as [a [Ha Hnth]].
      apply (@sum32_one_term k _ a).
      + intros r Hr Hne. rewrite HfS by auto.
        destruct (Z.eqb_spec (Z.of_nat i0) (nth r row 0%Z)) as [E|E].
        * exfalso. apply Hne.
          apply (proj1 (NoDup_nth row 0%Z) Hnd' r a); lia.
        * apply mul32_zero_l; [reflexivity|]. apply HX; auto.
      + rewrite HfS by lia. rewrite Hnth, Z.eqb_refl.
        destruct (HX a c) as [Hf Hv]; try lia.
        rewrite mul32_one_l; auto.
    - apply is_zero32_finite, sum32_zeros. intros r Hr.
      apply mul32_zero_l; [apply HfSzero; auto|]. apply HX; auto. }
  assert (HTzero : forall i c, (i < N)%nat -> (c < k)%nat ->
            ~ In (Z.of_nat i) row -> is_zero32 (get32 T i c) = true).
  { intros i0 c Hi0 Hc Hnin. rewrite HT by auto.
    apply sum32_zeros. intros r Hr.
    apply mul32_zero_l; [apply HfSzero; auto|]. apply HX; auto. }
  fold T. unfold matmul32 at 1.
  rewrite get32_mk32
    by (cbn [nrows32 ncols32 transpose32 mk32 T matmul32];
        rewrite ?HfSc, ?HfSr; assumption).
  rewrite HTc.
  apply sum32_zeros. intros c Hc.
  assert (Htt : get32 (transpose32 (transpose32 fS)) c j = get32 fS c j).
  { unfold transpose32 at 1. rewrite get32_mk32.
    - apply Htr; assumption.
    - cbn [ncols32 transpose32 mk32]. rewrite HfSr. exact Hc.
    - cbn [nrows32 transpose32 mk32]. rewrite HfSc. exact Hj. }
  rewrite Htt.
  destruct Hnot as [Hni | Hnj].
  - apply mul32_zero_l; [|apply HfSfin; auto].
    apply HTzero; auto.
    intros Hin. apply Hni, (Permutation_in _ Hperm), Hin.
  - apply mul32_zero_r; [apply HTfin; auto|].
    apply HfSzero; auto.
    intros Hin. apply Hnj, (Permutation_in _ Hperm), Hin.
Qed.

Lemma zerofill32_zero_witness :
  NoDup (nth 0 [[2; 0]; [1; 2]]%Z []) /\
  exists full,
    invert_submatr32 (to_float32 gram3) [[2; 0]; [1; 2]]%Z true = Ok full /\
    is_zero32 (get32 (nth 0 full (zeros32 0 0)) 1 2) = true /\
    is_zero32 (get32 (nth 0 full (zeros32 0 0)) 1 1) = true.
Proof.
  assert (Hnd : NoDup (nth 0 [[2; 0]; [1; 2]]%Z [])).
  { simpl. repeat constructor; simpl; intros H; try lia; tauto. }
  split; [exact Hnd|].
  destruct (@zerofill32_zero (to_float32 gram3) [[2; 0]; [1; 2]]%Z 2 0)
    as [invs [full [Hinv [Hfull [_ [_ [_ [_ [_ [_ Hzero]]]]]]]]]].
  - split; [reflexivity|repeat constructor].
  - reflexivity.
  - repeat constructor; simpl; lia.
  - simpl. lia.
  - exact Hnd.
  - exists full. split; [exact Hfull|].
    assert (Hfin : forall r c, (r < 2)%nat -> (c < 2)%nat ->
              is_finite32 (get32 (nth 0 invs (zeros32 0 0)) r c) = true /\
              valid32 (get32 (nth 0 invs (zeros32 0 0)) r c) = true).
    { assert (Hconc : invert_submatr32 (to_float32 gram3)
                        [[2; 0]; [1; 2]]%Z false =
                      Ok [Matrix32 2 2
                            [[S754_finite false 11184811 (-24);
                              S754_finite true 11184811 (-25)];
                             [S754_finite true 11184811 (-25);
                              S754_finite false 11184811 (-24)]];
                          Matrix32 2 2
                            [[S754_finite false 11184811 (-24);
                              S754_finite true 11184811 (-25)];
                             [S754_finite true 11184811 (-25);
                              S754_finite false 11184811 (-24)]]])
        by (vm_compute; reflexivity).
      rewrite Hconc in Hinv. injection Hinv as <-.
      intros [|[|r]] [|[|c]] Hr Hc; try lia; split; reflexivity. }
    split; apply (Hzero Hfin); simpl; try lia;
      left; intros [H|[H|[]]]; discriminate H.
Defined.

(* ================================================================== *)
(** * Further properties of the conditional operators *)

Lemma check_regul_cases (regul : ndarray) (n : nat) :
  check_regul regul n = ([], Ok regul) \/
  exists e, check_regul regul n = ([], Raise e).
Proof.
  unfold check_regul.
  destruct (regul_shape_ok regul n) as [[|]|e]; simpl.
  - left. reflexivity.
  - right. eexists. reflexivity.
  - right. eexists. reflexivity.
Qed.

Lemma cbind_ok (A B : Type) (t : list call) (a : A) (f : A -> comp B) :
  cbind (t, Ok a) f = (t ++ fst (f a), snd (f a)).
Proof. unfold cbind. destruct (f a). reflexivity. Qed.

Section ConditionalOperatorCalls.
Context {R : Rkhs}.

(** X12. [Cdo] is [Cmo] followed by one covariance solve against
    [ref_feat]: it returns [Cov_solve(CovOp(ref_feat), mo, regul)] for the
    operator [mo] that [Cmo(inp_feat, outp_feat, regul)] returns, raises
    what [Cmo] raises, and its own check of [regul] adds nothing to the
    one inside [Cmo]. *)
Theorem Cdo_composes_Cmo (inp_feat outp_feat ref_feat : obj)
  (regul : option ndarray) :
  snd (Cdo inp_feat outp_feat ref_feat regul) =
    match snd (Cmo inp_feat outp_feat regul) with
    | Ok mo => Ok (Cov_solve (CovOp ref_feat) mo regul)
    | Raise e => Raise e
    end /\
  fst (Cdo inp_feat outp_feat ref_feat regul) =
    fst (Cmo inp_feat outp_feat regul)
    ++ match snd (Cmo inp_feat outp_feat regul) with
       | Ok _ => [CallCovOp; CallCovSolve]
       | Raise _ => []
       end.
Proof.
  destruct regul as [r|]; [|split; reflexivity].
  unfold Cdo, Cmo.
  destruct (check_regul_cases r (len inp_feat)) as [H | [e H]];
    rewrite H; cbn [cbind ret]; rewrite ?H; split; reflexivity.
Qed.

Lemma RidgeCmo_tail_cases (inp_feat outp_feat : obj) (regul : ndarray) :
  let tail :=
    K <~ called CallInner (inner inp_feat) ;;
    RI <~ lift (broadcast2 Qcmult (atleast_2d regul)
                           (eye (len inp_feat))) ;;
    S <~ lift (broadcast2 Qcplus K RI) ;;
    matr <~ called CallInv (linalg_inv S) ;;
    ret (FiniteOp inp_feat outp_feat matr) in
  (exists op, tail = ([CallInner; CallInv], Ok op)) \/
  tail = ([CallInner], Raise ShapeError).
Proof.
  intros tail. unfold tail, cbind, called, lift, ret.
  destruct (broadcast2 Qcmult _ _) as [RI|e] eqn:E1.
  - destruct (broadcast2 Qcplus _ _) as [S|e] eqn:E2.
    + left. eexists. reflexivity.
    + right. apply broadcast2_raise in E2. subst e. reflexivity.
  - right. apply broadcast2_raise in E1. subst e. reflexivity.
Qed.

(** X13. The calls the constructors make.  [Cmo] either stops at its
    shape check with no call made, or calls exactly [CovOp], [Cov_solve]
    and [CrossCovOp] and returns; it never computes a Gram matrix or an
    inverse itself.  [RidgeCmo] never calls [CovOp], [Cov_solve] or
    [CrossCovOp]; it calls [Cov_regul] exactly when [regul] is absent,
    and it returns exactly when it reaches the inversion. *)
Theorem constructor_calls (inp_feat outp_feat : obj)
  (regul : option ndarray) :
  ((exists e, Cmo inp_feat outp_feat regul = ([], Raise e)) \/
   (exists op, Cmo inp_feat outp_feat regul =
      ([CallCovOp; CallCovSolve; CallCrossCovOp], Ok op))) /\
  (forall c, In c (fst (RidgeCmo inp_feat outp_feat regul)) ->
     c = CallCovRegul \/ c = CallInner \/ c = CallInv) /\
  (In CallCovRegul (fst (RidgeCmo inp_feat outp_feat regul))
   <-> regul = None) /\
  (In CallInv (fst (RidgeCmo inp_feat outp_feat regul))
   <-> exists op, snd (RidgeCmo inp_feat outp_feat regul) = Ok op).
Proof.
  split.
  - destruct regul as [r|]; [|right; eexists; reflexivity].
    unfold Cmo.
    destruct (check_regul_cases r (len inp_feat)) as [H | [e H]];
      rewrite H.
    + right. eexists. reflexivity.
    + left. exists e. reflexivity.
  - assert (Hcases :
      exists pre t res,
        RidgeCmo inp_feat outp_feat regul = (pre ++ t, res) /\
        (regul = None /\ pre = [CallCovRegul] \/
         regul <> None /\ pre = []) /\
        (t = [CallInner; CallInv] /\ (exists op, res = Ok op) \/
         t = [CallInner] /\ res = Raise ShapeError \/
         t = [] /\ pre = [] /\ exists e, res = Raise e)).
    { destruct regul as [r|].
      - unfold RidgeCmo.
        destruct (check_regul_cases r (len inp_feat)) as [H | [e H]];
          rewrite H.
        + rewrite cbind_ok. cbv beta.
          destruct (RidgeCmo_tail_cases inp_feat outp_feat r)
            as [[op Ht] | Ht]; cbv zeta in Ht; rewrite Ht; cbn [fst snd].
          * exists [], [CallInner; CallInv], (Ok op).
            split; [reflexivity|].
            split; [right; split; [discriminate | reflexivity]|].
            left. split; [reflexivity | eexists; reflexivity].
          * exists [], [CallInner], (Raise ShapeError).
            split; [reflexivity|].
            split; [right; split; [discriminate | reflexivity]|].
            right. left. split; reflexivity.
        + exists [], [], (Raise e).
          split; [reflexivity|].
          split; [right; split; [discriminate | reflexivity]|].
          right. right. repeat split. eexists. reflexivity.
      - unfold RidgeCmo.
        change (r <~ called CallCovRegul (Cov_regul 1 (len inp_feat)) ;;
                ret (Scalar r))
          with ([CallCovRegul], Ok (Scalar (Cov_regul 1 (len inp_feat)))).
        rewrite cbind_ok. cbv beta.
        destruct (RidgeCmo_tail_cases inp_feat outp_feat
                    (Scalar (Cov_regul 1 (len inp_feat))))
          as [[op Ht] | Ht]; cbv zeta in Ht; rewrite Ht; cbn [fst snd].
        + exists [CallCovRegul], [CallInner; CallInv], (Ok op).
          split; [reflexivity|].
          split; [left; split; reflexivity|].
          left. split; [reflexivity | eexists; reflexivity].
        + exists [CallCovRegul], [CallInner], (Raise ShapeError).
          split; [reflexivity|].
          split; [left; split; reflexivity|].
          right. left. split; reflexivity. }
    destruct Hcases as [pre [t [res [Heq [Hpre Ht]]]]].
    rewrite Heq. cbn [fst snd].
    split; [|split].
    + intros c Hc. apply in_app_iff in Hc.
      destruct Hpre as [[_ ->] | [_ ->]];
        destruct Ht as [[-> _] | [[-> _] | [-> _]]];
        simpl in Hc; intuition auto.
    + destruct Hpre as [[-> ->] | [Hne ->]];
        destruct Ht as [[-> _] | [[-> _] | [-> _]]]; simpl;
        split; intros H; auto; try contradiction;
        try (exfalso; intuition discriminate).
    + destruct Hpre as [[_ ->] | [_ ->]];
        destruct Ht as [[-> [op ->]] | [[-> ->] | [-> [_ [e ->]]]]]; simpl;
        split; intros H; try (eexists; reflexivity); auto;
        try (destruct H as [op' H]; discriminate H);
        try (exfalso; intuition discriminate).
Qed.

(** X14. A two-dimensional [regul] of shape [(n, n)] passes the shape
    check of [RidgeCmo], and only its diagonal is used: the coefficient
    matrix is the inverse of [K] plus the diagonal of [regul]. *)
Theorem RidgeCmo_matrix_regul (inp_feat outp_feat : obj) (m : matrix) :
  let n := len inp_feat in
  let K := inner inp_feat in
  nrows K = n -> ncols K = n -> nrows m = n -> ncols m = n ->
  RidgeCmo inp_feat outp_feat (Some (Array2 m)) =
    ([CallInner; CallInv],
     Ok (FiniteOp inp_feat outp_feat
           (linalg_inv (ridge K (fun j => get m j j))))).
Proof.
  intros n K Hr Hc Hmr Hmc. subst n K.
  assert (Hok : regul_shape_ok (Array2 m) (len inp_feat) = Ok true).
  { unfold regul_shape_ok, squeeze_shape. cbn [shape]. rewrite Hmr, Hmc.
    cbn [filter].
    destruct (Nat.eqb_spec (len inp_feat) 1) as [E|E]; cbn [negb].
    - reflexivity.
    - cbn [size_of fold_right].
      destruct (Nat.eqb_spec (len inp_feat * (len inp_feat * 1)) 1)
        as [E1|E1]; [reflexivity|].
      cbn [shape0 bind]. rewrite Nat.eqb_refl. reflexivity. }
  unfold RidgeCmo. rewrite (check_regul_true _ _ Hok).
  unfold ret at 1. rewrite cbind_ok. cbv beta.
  assert (H1 : broadcast2 Qcmult (atleast_2d (Array2 m))
                 (eye (len inp_feat)) =
               Ok (mk (len inp_feat) (len inp_feat)
                     (fun i j => get m i j * get (eye (len inp_feat)) i j)))
    by (apply broadcast2_same; auto).
  assert (H2 : broadcast2 Qcplus (inner inp_feat)
                 (mk (len inp_feat) (len inp_feat)
                     (fun i j => get m i j * get (eye (len inp_feat)) i j)) =
               Ok (ridge (inner inp_feat) (fun j => get m j j))).
  { rewrite (@broadcast2_same Qcplus (inner inp_feat) _
               (len inp_feat) (len inp_feat)) by auto.
    f_equal. unfold ridge. rewrite Hr, Hc.
    apply mk_ext. intros i j Hi Hj.
    rewrite get_mk, get_eye by auto.
    destruct (Nat.eqb_spec i j) as [->|Hne]; f_equal; ring. }
  rewrite (@RidgeCmo_tail R inp_feat outp_feat _ _ _ H1 H2). reflexivity.
Qed.
End ConditionalOperatorCalls.

Lemma RidgeCmo_matrix_regul_witness :
  nrows gram3 = len (SFeat gram3) /\
  RidgeCmo (SFeat gram3) (SFeat gram3) (Some (Array2 gram3)) =
    ([CallInner; CallInv],
     Ok (SFiniteOp (SFeat gram3) (SFeat gram3)
           (linalg_inv (ridge gram3 (fun j => get gram3 j j))))).
Proof.
  split; [reflexivity|].
  apply (@RidgeCmo_matrix_regul sym_rkhs (SFeat gram3) (SFeat gram3) gram3);
    reflexivity.
Defined.

Lemma constructor_calls_witness :
  In CallCovRegul (fst (RidgeCmo (SFeat gram3) (SFeat gram3) None)) /\
  exists op, snd (RidgeCmo (SFeat gram3) (SFeat gram3) None) = Ok op.
Proof.
  destruct (@constructor_calls sym_rkhs (SFeat gram3) (SFeat gram3) None)
    as [_ [_ [Hreg Hinv]]].
  split.
  - apply Hreg. reflexivity.
  - apply Hinv. simpl. auto.
Defined.

(* ================================================================== *)
(** * Further properties of the inducing-set selector *)

Lemma length_concat_uniform (A : Type) (ls : list (list A)) (m : nat) :
  Forall (fun r => length r = m) ls ->
  length (concat ls) = (length ls * m)%nat.
Proof.
  induction 1 as [|r t Hr Ht IH]; simpl; auto.
  rewrite length_app, IH, Hr. reflexivity.
Qed.

Lemma nth_concat_uniform (A : Type) (d : A) (ls : list (list A))
  (m i j : nat) :
  Forall (fun r => length r = m) ls ->
  (j < m)%nat ->
  nth (i * m + j) (concat ls) d = nth j (nth i ls []) d.
Proof.
  intros Hall Hj. revert i.
  induction Hall as [|r t Hr Ht IH]; intros i; simpl.
  - destruct (i * m + j)%nat, i, j; reflexivity.
  - destruct i as [|i].
    + simpl. rewrite app_nth1 by lia. reflexivity.
    + rewrite app_nth2 by (simpl; nia).
      replace (Datatypes.S i * m + j - length r)%nat with (i * m + j)%nat
        by (simpl; nia).
      apply IH.
Qed.

Lemma length_flatten (A : matrix) :
  wf A -> length (flatten A) = (nrows A * ncols A)%nat.
Proof.
  intros [Hlen Hall]. unfold flatten.
  rewrite (length_concat_uniform Hall), Hlen. reflexivity.
Qed.

Lemma nth_flatten (A : matrix) (i j : nat) :
  wf A -> (j < ncols A)%nat ->
  nth (i * ncols A + j) (flatten A) 0 = get A i j.
Proof.
  intros [Hlen Hall] Hj. unfold flatten, get.
  apply nth_concat_uniform; auto.
Qed.

(** Reshaping the flattened matrix gives the matrix back. *)
Lemma reshape_flatten (A : matrix) :
  wf A -> reshape (flatten A) (nrows A) (ncols A) = Ok A.
Proof.
  intros HA. unfold reshape.
  rewrite (length_flatten HA), Nat.eqb_refl. f_equal.
  rewrite <- (mk_get HA) at 3. apply mk_ext. intros i j Hi Hj.
  apply nth_flatten; auto.
Qed.

(** Flattening the reshaped vector gives the vector back. *)
Lemma flatten_reshape (v : list Qc) (n m : nat) :
  length v = (n * m)%nat ->
  flatten (mk n m (fun i j => nth (i * m + j) v 0)) = v.
Proof.
  intros Hlen.
  set (A := mk n m (fun i j => nth (i * m + j) v 0)).
  assert (HA : wf A) by apply wf_mk.
  apply (list_ext 0).
  - rewrite (length_flatten HA). simpl. auto.
  - intros k Hk. rewrite (length_flatten HA) in Hk. simpl in Hk.
    assert (Hm : (m <> 0)%nat) by (intros ->; lia).
    pose proof (Nat.div_mod_eq k m) as Hdm.
    pose proof (Nat.mod_upper_bound k m Hm) as Hmod.
    assert (Hdiv : (k / m < n)%nat)
      by (apply Nat.Div0.div_lt_upper_bound; lia).
    replace k with (k / m * ncols A + k mod m)%nat at 1
      by (simpl; lia).
    rewrite nth_flatten by (auto; simpl; lia).
    unfold A. rewrite get_mk by auto.
    f_equal. lia.
Qed.

Lemma extract_params_pack (N : nat) (A : matrix) (lamb : list Qc) :
  wf A -> nrows A = N -> ncols A = N -> length lamb = N ->
  extract_params N (lamb ++ flatten A) = Ok (A, lamb).
Proof.
  intros HA Hr Hc Hl. unfold extract_params.
  rewrite <- Hl at 1. rewrite skipn_app, Nat.sub_diag, skipn_all.
  cbn [app skipn].
  rewrite <- Hr at 1. rewrite <- Hc at 1.
  rewrite (reshape_flatten HA). cbn [bind].
  rewrite <- Hl at 1. rewrite firstn_app, Nat.sub_diag, firstn_all.
  cbn [firstn]. rewrite app_nil_r. reflexivity.
Qed.

Lemma extract_params_unpack (N : nat) (params : list Qc) (A : matrix)
  (lamb : list Qc) :
  extract_params N params = Ok (A, lamb) ->
  lamb ++ flatten A = params.
Proof.
  intros H. unfold extract_params, reshape in H.
  destruct (Nat.eqb_spec (length (skipn N params)) (N * N)) as [Hlen|Hlen];
    [|discriminate H].
  cbn [bind] in H. injection H as <- <-.
  rewrite (@flatten_reshape (skipn N params) N N Hlen).
  apply firstn_skipn.
Qed.

(** X15. [extract_params] inverts the packing of the parameter vector:
    for [lamb] of length [N] and an [N] by [N] matrix [A],
    [extract_params(hstack([lamb, A.flatten()]))] is [(A, lamb)], and
    whenever [extract_params(params)] returns [(A, lamb)],
    [hstack([lamb, A.flatten()])] is [params]. *)
Theorem extract_params_round_trip (N : nat) :
  (forall (A : matrix) (lamb : list Qc),
     wf A -> nrows A = N -> ncols A = N -> length lamb = N ->
     extract_params N (lamb ++ flatten A) = Ok (A, lamb)) /\
  (forall (params : list Qc) (A : matrix) (lamb : list Qc),
     extract_params N params = Ok (A, lamb) ->
     lamb ++ flatten A = params).
Proof.
  split.
  - intros A lamb. apply extract_params_pack.
  - intros params A lamb. apply extract_params_unpack.
Qed.

Lemma extract_params_round_trip_witness :
  wf (eye 2) /\
  extract_params 2 ([1; 1] ++ flatten (eye 2)) = Ok (eye 2, [1; 1]).
Proof.
  split; [apply wf_mk|].
  apply (extract_params_round_trip 2); try reflexivity. apply wf_mk.
Defined.

(** X16. [extract_params] returns exactly for parameter vectors of length
    [N + N * N]; for every other length the reshape to [(N, N)] is
    rejected. *)
Theorem extract_params_length (N : nat) (params : list Qc) :
  ((exists r, extract_params N params = Ok r) <->
   length params = (N + N * N)%nat) /\
  (length params <> (N + N * N)%nat ->
   extract_params N params = Raise ShapeError).
Proof.
  unfold extract_params, reshape.
  rewrite length_skipn.
  destruct (Nat.eqb_spec (length params - N) (N * N)) as [Hlen|Hlen];
    cbn [bind].
  - assert (Hl : length params = (N + N * N)%nat).
    { destruct N as [|n]; [lia|]. nia. }
    split; [split; [auto | eexists; reflexivity] | contradiction].
  - assert (Hl : length params <> (N + N * N)%nat) by lia.
    split; [split; [intros [r H]; discriminate H | contradiction]
           | reflexivity].
Qed.

Lemma extract_params_length_witness :
  length [1; 1; 1] <> (2 + 2 * 2)%nat /\
  extract_params 2 [1; 1; 1] = Raise ShapeError.
Proof.
  assert (H : length [1; 1; 1] <> (2 + 2 * 2)%nat) by (simpl; lia).
  split; [exact H|].
  apply (extract_params_length 2 [1; 1; 1]). exact H.
Defined.

Lemma Qc_of_nat_0 : Qc_of_nat 0 = 0.
Proof. apply Qc_is_canon. reflexivity. Qed.

Lemma Qc_of_nat_S (n : nat) : Qc_of_nat (S n) = Qc_of_nat n + 1.
Proof.
  apply Qc_is_canon. unfold Qc_of_nat, Qcplus. cbn [this Q2Qc].
  rewrite !Qred_correct.
  rewrite Nat2Z.inj_succ. unfold Z.succ. rewrite inject_Z_plus.
  reflexivity.
Qed.

Lemma Qc_of_nat_neq0 (n : nat) : (n <> 0)%nat -> Qc_of_nat n <> 0.
Proof.
  intros Hn H. unfold Qc_of_nat in H.
  apply Q2Qc_eq_iff in H. unfold Qeq in H. simpl in H. lia.
Qed.

Lemma vsum_repeat (x : Qc) (n : nat) :
  vsum (repeat x n) = x * Qc_of_nat n.
Proof.
  induction n as [|n IH]; simpl.
  - rewrite Qc_of_nat_0. ring.
  - rewrite IH, Qc_of_nat_S. ring.
Qed.

Lemma diag_matrix_repeat (x : Qc) (n : nat) :
  diag_matrix (repeat x n) =
  mk n n (fun i j => if Nat.eqb i j then x else 0).
Proof.
  unfold diag_matrix. rewrite repeat_length.
  apply mk_ext. intros i j Hi Hj.
  rewrite nth_repeat_lt by exact Hi. reflexivity.
Qed.

(** A product whose left factor is zero is zero. *)
Lemma get_matmul_zero_l (Z0 G : matrix) (i k : nat) :
  (forall l, (l < ncols Z0)%nat -> get Z0 i l = 0) ->
  (i < nrows Z0)%nat -> (k < ncols G)%nat ->
  get (Z0 @ G) i k = 0.
Proof.
  intros Hz Hi Hk. rewrite get_matmul by auto.
  apply sum_zero. intros l Hl. rewrite Hz by exact Hl. ring.
Qed.

Section CostFacts.
Variable N : nat.
Variable G : matrix.
Variable non_sparse_penalty : Qc.

(** X17. At the starting point of the optimisation, [A = I] and
    [lamb = 1], every point approximates itself and the cost is the
    penalty alone: [flat_cost(init) = non_sparse_penalty], for the vector
    [init = hstack([ones(N), eye(N).flatten()])] that [inducing_set]
    passes to the optimiser and any [N] by [N] Gram matrix. *)
Theorem flat_cost_init :
  (N <> 0)%nat -> nrows G = N -> ncols G = N ->
  flat_cost N (eye N) G non_sparse_penalty
            (repeat 1 N ++ flatten (eye N)) = Ok non_sparse_penalty.
Proof.
  intros HN _ _. unfold flat_cost.
  rewrite (@extract_params_pack N (eye N) (repeat 1 N))
    by (try apply wf_mk; try apply repeat_length; reflexivity).
  cbn [bind fst snd]. unfold cost.
  rewrite repeat_length. cbn [nrows ncols eye mk].
  rewrite Nat.eqb_refl. cbn [andb]. f_equal.
  rewrite diag_matrix_repeat. fold (eye N).
  rewrite (@matmul_eye_l (eye N) N) by (try apply wf_mk; reflexivity).
  set (fact := msub (eye N) (eye N)).
  assert (Hfact : forall i l, (i < N)%nat -> (l < N)%nat ->
            get fact i l = 0).
  { intros i l Hi Hl. unfold fact, msub. cbn [nrows ncols eye mk].
    rewrite get_mk by auto. ring. }
  assert (Htrace : trace (fact @ G @ transpose fact) = 0).
  { unfold trace. apply sum_zero. intros i Hi.
    cbn [nrows ncols matmul transpose mk msub fact eye] in Hi.
    rewrite Nat.min_id in Hi.
    apply get_matmul_zero_l; auto.
    intros l Hl. cbn [nrows ncols matmul mk] in Hl.
    apply get_matmul_zero_l; auto. }
  rewrite Htrace, vsum_repeat.
  field. apply Qc_of_nat_neq0. exact HN.
Qed.

(** X18. With [lamb = 0] nothing is selected, and the cost is the mean of
    the diagonal of the Gram matrix, [trace(G) / N], whatever [A] and the
    penalty are. *)
Theorem cost_nothing_selected (A : matrix) :
  wf G -> nrows G = N -> ncols G = N ->
  nrows A = N -> ncols A = N ->
  cost N (eye N) G non_sparse_penalty A (repeat 0 N) =
  Ok (trace G / Qc_of_nat N).
Proof.
  intros HG HGr HGc HAr HAc. unfold cost.
  rewrite repeat_length, HAr, HAc, Nat.eqb_refl. cbn [andb]. f_equal.
  rewrite diag_matrix_repeat.
  assert (Hfact : msub (eye N) (A @ mk N N (fun i j =>
                     if Nat.eqb i j then 0 else 0)) = eye N).
  { unfold msub. cbn [nrows ncols eye mk].
    apply mk_ext. intros i j Hi Hj.
    rewrite get_matmul by (cbn [nrows ncols mk]; lia).
    rewrite sum_zero.
    - fold (eye N). rewrite get_eye by auto. ring.
    - intros k Hk. rewrite HAc in Hk. rewrite get_mk by auto.
      destruct (Nat.eqb k j); ring. }
  rewrite Hfact, transpose_eye.
  rewrite (matmul_eye_l HG HGr).
  rewrite (matmul_eye_r HG HGc).
  rewrite vsum_repeat.
  replace (trace G + non_sparse_penalty * (0 * Qc_of_nat N)) with (trace G)
    by ring.
  reflexivity.
Qed.
End CostFacts.

Lemma flat_cost_init_witness :
  (2 <> 0)%nat /\
  flat_cost 2 (eye 2) (eye 2) (Q2Qc 5) (repeat 1 2 ++ flatten (eye 2))
    = Ok (Q2Qc 5).
Proof.
  assert (H : (2 <> 0)%nat) by lia.
  split; [exact H|].
  apply (@flat_cost_init 2 (eye 2) (Q2Qc 5) H); reflexivity.
Defined.

Lemma cost_nothing_selected_witness :
  wf gram3 /\
  cost 3 (eye 3) gram3 1 (eye 3) (repeat 0 3) =
  Ok (trace gram3 / Qc_of_nat 3).
Proof.
  split; [apply wf_mk|].
  apply (@cost_nothing_selected 3 gram3 1 (eye 3));
    try reflexivity; apply wf_mk.
Defined.

Lemma count_occ_selected (l : list Qc) :
  (0 < count_occ bool_dec (map (fun x => Qc_ltb 0 x) l) true)%nat <->
  exists x, In x l /\ 0 < x.
Proof.
  split.
  - intros H. apply (proj2 (count_occ_In bool_dec _ _)) in H.
    apply in_map_iff in H. destruct H as [x [Hx Hin]].
    exists x. split; [exact Hin|]. apply Qc_ltb_lt. exact Hx.
  - intros [x [Hin Hx]]. apply (proj1 (count_occ_In bool_dec _ _)).
    apply in_map_iff. exists x. split; [|exact Hin].
    apply Qc_ltb_lt. exact Hx.
Qed.

Section InducingSetResult.
Variable minimize :
  (list Qc -> result Qc) -> list Qc -> list (option Qc * option Qc) ->
  bool * list Qc.

(** Every run of [inducing_set] either raises or passes all checks and
    returns after the kernel, the optimiser and the report have been
    called. *)
Lemma inducing_set_cases (points : points_t) (k : points_t -> matrix)
  (non_sparse_penalty : Qc) :
  (exists e, snd (inducing_set minimize points k non_sparse_penalty)
             = Raise e) \/
  (exists N d x appr dist,
     inducing_set minimize points k non_sparse_penalty =
       ([CallKernel; CallMinimize; CallPrint],
        Ok (appr, map (fun l => Qc_ltb 0 l) (firstn N x), dist,
            cost N (eye N) (k points) non_sparse_penalty)) /\
     0 < non_sparse_penalty /\
     pshape points = [N; d] /\ (1 < N)%nat /\
     minimize (flat_cost N (eye N) (k points) non_sparse_penalty)
              (repeat 1 N ++ flatten (eye N))
              (repeat (Some 0, Some 1) N ++ repeat (None, None) (N * N))
       = (true, x) /\
     length x = (N + N * N)%nat /\
     (exists l, In l (firstn N x) /\ 0 < l) /\
     nrows appr = N /\ ncols appr = N /\ length dist = N /\
     forall i, (i < N)%nat ->
       nth i (map (fun l => Qc_ltb 0 l) (firstn N x)) false = true ->
       nth i dist 1 = 0 /\
       forall j, (j < N)%nat ->
         get appr i j = if Nat.eqb i j then 1 else 0).
Proof.
  unfold inducing_set.
  destruct (Qc_ltb 0 non_sparse_penalty) eqn:Hpen;
    [|left; eexists; reflexivity].
  destruct (pshape points) as [|N rest] eqn:Hshape;
    [left; eexists; reflexivity|].
  cbn [py_len lift assert cbind ret app].
  destruct (1 <? N) eqn:HN; [|left; eexists; reflexivity].
  cbn [py_len lift assert cbind ret app].
  destruct rest as [|d [|d' rest']];
    [left; eexists; reflexivity | | left; eexists; reflexivity].
  cbn [py_len lift assert cbind ret app length Nat.eqb called].
  destruct (minimize _ _ _) as [success x] eqn:Emin. cbn [fst snd].
  destruct success; [|left; eexists; reflexivity].
  cbn [py_len lift assert cbind ret app length Nat.eqb called].
  unfold extract_params, reshape.
  destruct (Nat.eqb_spec (length (skipn N x)) (N * N)) as [Hlen|Hlen];
    [|left; eexists; reflexivity].
  cbn [bind lift assert cbind ret app fst snd].
  destruct (0 <? count_occ bool_dec
                   (map (fun l => Qc_ltb 0 l) (firstn N x)) true)
    eqn:Hcount; [|left; eexists; reflexivity].
  right. exists N, d, x. eexists. eexists.
  split; [reflexivity|].
  apply Nat.ltb_lt in HN, Hcount. apply Qc_ltb_lt in Hpen.
  assert (Hx : length x = (N + N * N)%nat).
  { rewrite length_skipn in Hlen. nia. }
  split; [exact Hpen|]. split; [reflexivity|]. split; [exact HN|].
  split; [exact Emin|]. split; [exact Hx|].
  split; [apply count_occ_selected; exact Hcount|].
  split; [reflexivity|]. split; [reflexivity|].
  split.
  { unfold diagonal. rewrite length_map, length_seq.
    cbn [nrows ncols matmul transpose msub eye mk]. apply Nat.min_id. }
  intros i Hi Hsel.
  set (A := mk N N (fun i0 j => nth (i0 * N + j) (skipn N x) 0)) in *.
  set (lamb := firstn N x) in *.
  set (appr := mk N N (fun i0 j =>
                 if nth i0 (map (fun l => Qc_ltb 0 l) lamb) false
                 then get (eye N) i0 j
                 else get (A @ diag_matrix lamb) i0 j)).
  assert (Happr : forall j, (j < N)%nat ->
            get appr i j = if Nat.eqb i j then 1 else 0).
  { intros j Hj. unfold appr. rewrite get_mk by auto.
    rewrite Hsel. apply get_eye; auto. }
  split; [|exact Happr].
  set (fact := msub (eye N) appr).
  assert (Hfact : forall l, (l < ncols fact)%nat -> get fact i l = 0).
  { intros l Hl. cbn [ncols fact msub eye mk] in Hl.
    unfold fact, msub. cbn [nrows ncols eye mk].
    rewrite get_mk by auto. rewrite Happr by auto.
    fold (eye N). rewrite get_eye by auto. ring. }
  unfold diagonal.
  cbn [nrows ncols matmul transpose msub eye mk]. rewrite Nat.min_id.
  rewrite nth_map_seq by exact Hi. cbn [Nat.add].
  apply get_matmul_zero_l; auto.
  intros l Hl. cbn [nrows ncols matmul mk] in Hl.
  apply get_matmul_zero_l; auto.
Qed.

(** X19. [inducing_set] returns a result exactly when the penalty is
    strictly positive, [points] is a two-dimensional array of more than
    one point, the optimiser reports success with a vector of length
    [N + N * N], and at least one of its first [N] entries is strictly
    positive. *)
Theorem inducing_set_returns_iff (points : points_t)
  (k : points_t -> matrix) (non_sparse_penalty : Qc) :
  (exists r, snd (inducing_set minimize points k non_sparse_penalty) = Ok r)
  <->
  (0 < non_sparse_penalty /\
   exists N d x,
     pshape points = [N; d] /\ (1 < N)%nat /\
     minimize (flat_cost N (eye N) (k points) non_sparse_penalty)
              (repeat 1 N ++ flatten (eye N))
              (repeat (Some 0, Some 1) N ++ repeat (None, None) (N * N))
       = (true, x) /\
     length x = (N + N * N)%nat /\
     exists l, In l (firstn N x) /\ 0 < l).
Proof.
  split.
  - intros [r Hr].
    destruct (inducing_set_cases points k non_sparse_penalty)
      as [[e He] | [N [d [x [appr [dist
            [_ [Hpen [Hshape [HN [Hmin [Hx [Hl _]]]]]]]]]]]]].
    + rewrite He in Hr. discriminate Hr.
    + split; [exact Hpen|]. exists N, d, x. auto.
  - intros [Hpen [N [d [x [Hshape [HN [Hmin [Hx Hl]]]]]]]].
    unfold inducing_set.
    apply Qc_ltb_lt in Hpen. rewrite Hpen, Hshape.
    cbn [py_len lift assert cbind ret app length Nat.eqb called].
    replace (1 <? N) with true by (symmetry; apply Nat.ltb_lt; exact HN).
    cbn [py_len lift assert cbind ret app length Nat.eqb called].
    rewrite Hmin. cbn [fst snd].
    cbn [py_len lift assert cbind ret app length Nat.eqb called].
    unfold extract_params, reshape.
    replace (Nat.eqb (length (skipn N x)) (N * N)) with true
      by (symmetry; apply Nat.eqb_eq; rewrite length_skipn; lia).
    cbn [bind lift assert cbind ret app fst snd].
    replace (0 <? count_occ bool_dec
                    (map (fun l => Qc_ltb 0 l) (firstn N x)) true)
      with true
      by (symmetry; apply Nat.ltb_lt, count_occ_selected; exact Hl).
    eexists. reflexivity.
Qed.

(** X20. What [inducing_set] returns.  When it returns
    [(appr_matr, selected, distances, cost)], it has called the kernel,
    the optimiser and the report, in this order; [selected] has one entry
    per point and at least one of them is true; [appr_matr] is [N] by
    [N]; and every selected point is approximated by itself: its row of
    [appr_matr] is the row of the identity and its approximation distance
    is zero. *)
Theorem inducing_set_result (points : points_t) (k : points_t -> matrix)
  (non_sparse_penalty : Qc) (appr : matrix) (selected : list bool)
  (dist : list Qc) (c : matrix -> list Qc -> result Qc) :
  snd (inducing_set minimize points k non_sparse_penalty)
    = Ok (appr, selected, dist, c) ->
  let N := hd 0%nat (pshape points) in
  fst (inducing_set minimize points k non_sparse_penalty)
    = [CallKernel; CallMinimize; CallPrint] /\
  length selected = N /\ In true selected /\
  nrows appr = N /\ ncols appr = N /\ length dist = N /\
  forall i, (i < N)%nat -> nth i selected false = true ->
    nth i dist 1 = 0 /\
    forall j, (j < N)%nat -> get appr i j = if Nat.eqb i j then 1 else 0.
Proof.
  intros Hr N.
  destruct (inducing_set_cases points k non_sparse_penalty)
    as [[e He] | [N' [d [x [appr' [dist'
          [Hrun [Hpen [Hshape [HN [Hmin [Hx [[l [Hl Hpos]]
             [Har [Hac [Hdl Hsel]]]]]]]]]]]]]]]].
  - rewrite He in Hr. discriminate Hr.
  - rewrite Hrun in Hr. cbn [snd] in Hr.
    injection Hr as <- <- <- <-.
    assert (HNN : N = N') by (unfold N; rewrite Hshape; reflexivity).
    rewrite HNN, Hrun. cbn [fst].
    split; [reflexivity|].
    split; [rewrite length_map, length_firstn; lia|].
    split.
    { apply in_map_iff. exists l. split; [|exact Hl].
      apply Qc_ltb_lt. exact Hpos. }
    split; [exact Har|]. split; [exact Hac|]. split; [exact Hdl|].
    exact Hsel.
Qed.
End InducingSetResult.

Lemma inducing_set_result_witness :
  exists appr dist c,
    snd (inducing_set minimize_init two_points eye_kernel 1)
      = Ok (appr, [true; true], dist, c) /\
    nth 0 dist 1 = 0.
Proof.
  do 3 eexists. split; [reflexivity|].
  eapply (@inducing_set_result minimize_init two_points eye_kernel 1);
    [reflexivity | simpl; lia | reflexivity].
Defined.

Lemma inducing_set_returns_iff_witness :
  exists r, snd (inducing_set minimize_init two_points eye_kernel 1) = Ok r.
Proof.
  apply (inducing_set_returns_iff minimize_init two_points eye_kernel 1).
  split; [apply Qc_ltb_lt; reflexivity|].
  exists 2%nat, 2%nat, (repeat 1 2 ++ flatten (eye 2)).
  split; [reflexivity|]. split; [lia|]. split; [reflexivity|].
  split; [reflexivity|].
  exists 1. split; [simpl; auto | apply Qc_ltb_lt; reflexivity].
Defined.

(* ================================================================== *)
(** * The selection tensor is binary *)

Lemma selects_one (n : nat) (x : Z) (c : nat) :
  selects n x c = 1 -> c = Z.to_nat (normalize_index x n).
Proof.
  unfold selects.
  destruct ((0 <=? normalize_index x n)%Z
            && (normalize_index x n <? Z.of_nat n)%Z); simpl.
  - destruct (Nat.eqb_spec c (Z.to_nat (normalize_index x n))); auto.
    intros H. exfalso. apply Qc_one_neq_zero. symmetry. exact H.
  - intros H. exfalso. apply Qc_one_neq_zero. symmetry. exact H.
Qed.

(** X21. Whatever the index values, every entry of the selection tensor
    is 0 or 1 and no row holds more than one 1; when the indices of a
    split lie in [[0, N)], each of its rows holds exactly one 1. *)
Theorem selection_tensor_binary (N : Z) (idcs : list (list Z))
  (idcs_sorted : bool) (k s r : nat) (sels : list matrix) :
  (0 <= N)%Z ->
  Forall (fun row => length row = k) idcs ->
  (s < length idcs)%nat -> (r < k)%nat ->
  idcs_to_selection_matr N idcs idcs_sorted = Ok sels ->
  let sel := nth s sels (zeros 0 0) in
  (forall c, (c < Z.to_nat N)%nat -> get sel r c = 0 \/ get sel r c = 1) /\
  (forall c c', (c < Z.to_nat N)%nat -> (c' < Z.to_nat N)%nat ->
     get sel r c = 1 -> get sel r c' = 1 -> c = c') /\
  (Forall (fun x => (0 <= x < N)%Z) (nth s idcs []) ->
   exists c, (c < Z.to_nat N)%nat /\ get sel r c = 1).
Proof.
  intros HN Hk Hs Hr Hsels sel.
  destruct (@selection_tensor N idcs idcs_sorted k sels s HN Hk Hs Hsels)
    as [row [Hperm [_ [Hlen [_ Hsel]]]]].
  unfold sel. rewrite Hsel.
  assert (Hget : forall c, (c < Z.to_nat N)%nat ->
            get (selection_matrix (Z.to_nat N) row) r c =
            selects (Z.to_nat N) (nth r row 0%Z) c).
  { intros c Hc. unfold selection_matrix. rewrite get_mk by (auto; lia).
    reflexivity. }
  split; [|split].
  - intros c Hc. rewrite Hget by exact Hc.
    destruct (selects_01 (Z.to_nat N) (nth r row 0%Z) c)
      as [[_ ->] | [_ ->]]; auto.
  - intros c c' Hc Hc' H1 H2. rewrite Hget in H1, H2 by assumption.
    apply selects_one in H1, H2. congruence.
  - intros Hrange.
    assert (Hx : (0 <= nth r row 0 < N)%Z).
    { rewrite Forall_forall in Hrange.
      apply Hrange, (Permutation_in _ Hperm), nth_In. lia. }
    exists (Z.to_nat (nth r row 0%Z)). split; [lia|].
    rewrite Hget by lia.
    rewrite selects_in_range by lia.
    rewrite Z2Nat.id, Z.eqb_refl by lia. reflexivity.
Qed.

Lemma selection_tensor_binary_witness :
  (0 <= 3)%Z /\
  exists sels,
    idcs_to_selection_matr 3 [[5]; [-1]]%Z false = Ok sels /\
    forall c, (c < 3)%nat ->
      get (nth 0 sels (zeros 0 0)) 0 c = 0 \/
      get (nth 0 sels (zeros 0 0)) 0 c = 1.
Proof.
  split; [lia|]. eexists. split; [reflexivity|].
  apply (@selection_tensor_binary 3 [[5]; [-1]]%Z false 1 0 0).
  - lia.
  - repeat constructor.
  - simpl. lia.
  - lia.
  - reflexivity.
Defined.
